(** * Mesh to volume conversion (openvdb/tools/MeshToVolume.h)

    A shallow embedding of the voxelizer, the contour tracer, the shell
    voxel cleaner, the narrow-band expander, the post-processing leaf
    operators and the pipeline driver of [MeshToVolume.h], together with
    the properties of these functions.

    Conventions of the embedding.
    - [DistValueT] is fixed to [double] and both are read as exact
      rationals ([Q]): no rounding, no NaN, no infinities.  With this
      reading the conversion [DistValueT(dist)] is the identity.
    - [Int32] coordinates and primitive indices are integers ([Z]).  The
      [int] and [Int32] arithmetic of the contour tracer (the alignment
      of its bounding box and the counters of its loops) is reduced to
      32 bits with [Int32], the two's complement wrap; elsewhere the
      lattice is unbounded.
    - A sparse tree is flattened to its background value, the set of its
      allocated leaf origins and a finite map from voxel coordinates to
      a value and an active state.  A coordinate without an entry reads
      as the inactive background.
    - The interrupter is absent ([mInterrupter == NULL]), so every
      [wasInterrupted] test is false.
    - [tbb::parallel_for] and [LeafTransformer::runParallel] are read as
      the serial loop over the same range. *)

From Stdlib Require Import ZArith QArith Qabs Qround Qminmax Lqa Lia List Bool.
From stdpp Require Import gmap sorting.

Set Default Proof Using "Type".
Local Open Scope Z_scope.

(** ** Numbers *)

Module Num.

(** [a < b] on [double], as a boolean. *)
Definition Qltb (x y : Q) : bool := negb (Qle_bool y x).

(** [std::numeric_limits<double>::max()], the largest finite double:
    (2^53 - 1) * 2^971. *)
Definition DBL_MAX : Q := inject_Z ((2 ^ 53 - 1) * 2 ^ 971).

(** The pruning radius written as a literal in [evalVoxel] and (negated)
    in [ShellVoxelCleaner]. *)
Definition HALF_DIAG : Q := 86602540378443861 # 100000000000000000.

End Num.
Export Num.

(** ** Coordinates *)

(** [openvdb::Coord]: three [Int32] components. *)
Definition Coord : Type := Z * Z * Z.

Definition coord_add (a b : Coord) : Coord :=
  let '(ax, ay, az) := a in
  let '(bx, by_, bz) := b in
  (ax + bx, ay + by_, az + bz).

Definition coord_k (c : Coord) : Z := snd c.
Definition coord_j (c : Coord) : Z := snd (fst c).
Definition coord_i (c : Coord) : Z := fst (fst c).

(** ** Sparse trees *)

Module Tree.

Record t (A : Type) : Type := mk {
  background : A;
  leafs : gset Coord;
  voxels : gmap Coord (A * bool)
}.
Arguments mk {A} _ _ _.
Arguments background {A} _.
Arguments leafs {A} _.
Arguments voxels {A} _.

Section Ops.
Context {A : Type}.
(** [LeafNodeType::DIM], the side length of a leaf. *)
Variable DIM : Z.

(** The tree constructor: an empty tree with the given background. *)
Definition create (bg : A) : t A := mk bg ∅ ∅.

(** Origin of the leaf that holds [c]: every component rounded down
    to a multiple of [DIM]. *)
Definition leafOrigin (c : Coord) : Coord :=
  let '(x, y, z) := c in
  (x - x mod DIM, y - y mod DIM, z - z mod DIM).

Definition getValue (tr : t A) (c : Coord) : A :=
  match voxels tr !! c with
  | Some (v, _) => v
  | None => background tr
  end.

Definition isValueOn (tr : t A) (c : Coord) : bool :=
  match voxels tr !! c with
  | Some (_, on) => on
  | None => false
  end.

(** [probeValue(ijk, val)]: the active state, and the value read. *)
Definition probeValue (tr : t A) (c : Coord) : bool * A :=
  (isValueOn tr c, getValue tr c).

Definition probeLeaf (tr : t A) (origin : Coord) : bool :=
  bool_decide (leafOrigin origin ∈ leafs tr).

Definition touchLeaf (tr : t A) (c : Coord) : t A :=
  mk (background tr) ({[leafOrigin c]} ∪ leafs tr) (voxels tr).

(** [setValue(ijk, v)] and [setValueOn(pos, v)]: store and activate. *)
Definition setValue (tr : t A) (c : Coord) (v : A) : t A :=
  mk (background tr) ({[leafOrigin c]} ∪ leafs tr)
     (<[c := (v, true)]> (voxels tr)).

(** [setValueOff(ijk, v)]: store and deactivate. *)
Definition setValueOff (tr : t A) (c : Coord) (v : A) : t A :=
  mk (background tr) ({[leafOrigin c]} ∪ leafs tr)
     (<[c := (v, false)]> (voxels tr)).

(** [setActiveState(ijk, on)]: the value stays. *)
Definition setActiveState (tr : t A) (c : Coord) (on : bool) : t A :=
  mk (background tr) ({[leafOrigin c]} ∪ leafs tr)
     (<[c := (getValue tr c, on)]> (voxels tr)).

(** A write through the reference returned by [getValue] (the
    [const_cast] idiom) and [setValueOnly]: the state stays and no
    leaf is allocated. *)
Definition setValueOnly (tr : t A) (c : Coord) (v : A) : t A :=
  mk (background tr) (leafs tr)
     (<[c := (v, isValueOn tr c)]> (voxels tr)).

(** [iter.setValueOff()]: the value stays, the voxel is turned off. *)
Definition iterSetValueOff (tr : t A) (c : Coord) : t A :=
  mk (background tr) (leafs tr)
     (<[c := (getValue tr c, false)]> (voxels tr)).

(** The coordinates visited by the [ValueOn] iterators of all leaves. *)
Definition activeVoxels (tr : t A) : list Coord :=
  (filter (λ kv, kv.2.2 = true) (map_to_list (voxels tr))).*1.

Definition activeVoxelCount (tr : t A) : nat := length (activeVoxels tr).

(** [leaf.setValuesOff()] for the leaf at [origin]. *)
Definition leafSetValuesOff (tr : t A) (origin : Coord) : t A :=
  mk (background tr) (leafs tr)
     (map_imap (λ c vo, Some (if bool_decide (leafOrigin c = leafOrigin origin)
                              then (vo.1, false) else vo)) (voxels tr)).

(** [clear()]: all leaves and voxels are dropped. *)
Definition clear (tr : t A) : t A := mk (background tr) ∅ ∅.

(** What can be observed of a voxel. *)
Definition voxel (tr : t A) (c : Coord) : A * bool :=
  (getValue tr c, isValueOn tr c).

(** Modelled from the spec: [Tree::merge] (openvdb/tree/Tree.h is not
    among the sources) merges by logical union: a voxel is active
    afterwards when it is active in either tree.  Where this tree is
    inactive and the other one is active the other tree's entry is
    taken over. *)
Definition merge (lhs rhs : t A) : t A :=
  mk (background lhs) (leafs lhs ∪ leafs rhs)
     (union_with (λ a b : A * bool, Some (if a.2 then a else if b.2 then b else a))
                 (voxels lhs) (voxels rhs)).

End Ops.

(** Modelled from the spec: [topologyUnion] (openvdb/tree/Tree.h is not
    among the sources) makes every active voxel of the other tree
    active in this tree; the values of this tree stay. *)
Definition topologyUnion {A B : Type} (DIM : Z) (tr : t A) (other : t B) : t A :=
  let tr' := fold_left (fun acc c => setActiveState DIM acc c true)
                       (activeVoxels other) tr in
  mk (background tr') (leafs tr' ∪ leafs other) (voxels tr').

End Tree.

(** ** Vectors, the mesh and library functions of <algorithm> *)

(** [Vec3d] and [Vec4I] ([uint32] components). *)
Definition Vec3d : Type := Q * Q * Q.
Definition Vec4I : Type := Z * Z * Z * Z.

(** [v[n]] for a [Vec3d]. *)
Definition at3 (v : Vec3d) (n : nat) : Q :=
  match n with
  | O => v.1.1
  | S O => v.1.2
  | _ => v.2
  end.

(** [v[n]] for a [Vec4I]. *)
Definition at4 (v : Vec4I) (n : nat) : Z :=
  match n with
  | O => v.1.1.1
  | S O => v.1.1.2
  | S (S O) => v.1.2
  | _ => v.2
  end.

(** [Vec3d(ijk[0], ijk[1], ijk[2])]: the centre of a voxel. *)
Definition Vec3d_of_Coord (ijk : Coord) : Vec3d :=
  (inject_Z (coord_i ijk), inject_Z (coord_j ijk), inject_Z (coord_k ijk)).

(** [std::max(a, b)] is [(a < b) ? b : a] and [std::min(a, b)] is
    [(b < a) ? b : a]. *)
Definition std_max (a b : Q) : Q := if Qltb a b then b else a.
Definition std_min (a b : Q) : Q := if Qltb b a then b else a.

(** Conversion of an integer to [Int32] (two's complement wrap). *)
Definition Int32 (z : Z) : Z := (z + 2 ^ 31) mod 2 ^ 32 - 2 ^ 31.

(** Modelled from the spec: [util::INVALID_IDX] (openvdb/util/Util.h is
    not among the sources) is the maximum 32-bit unsigned value. *)
Definition INVALID_IDX : Z := 4294967295.

(** Modelled from the spec: a table for [util::COORD_OFFSETS]
    (openvdb/util/Util.h is not among the sources).  Entries 0..5 are
    the face neighbours with entry 3 the +j and entry 5 the +k
    neighbour, entries 6..17 the edge neighbours and entries 18..25 the
    corner neighbours.  The functions below take the table as a
    parameter; this one serves to run them. *)
Definition COORD_OFFSETS_spec : list Coord :=
  [ (-1, 0, 0); (1, 0, 0); (0, -1, 0); (0, 1, 0); (0, 0, -1); (0, 0, 1);
    (1, 0, -1); (-1, 0, -1); (1, 0, 1); (-1, 0, 1);
    (1, 1, 0); (-1, 1, 0); (1, -1, 0); (-1, -1, 0);
    (0, -1, 1); (0, -1, -1); (0, 1, 1); (0, 1, -1);
    (-1, -1, -1); (-1, -1, 1); (1, -1, 1); (1, -1, -1);
    (-1, 1, -1); (-1, 1, 1); (1, 1, 1); (1, 1, -1) ].

(** A square root for running the functions on perfect squares: the
    functions below take [std::sqrt] as a parameter. *)
Definition sqrt_floor (q : Q) : Q :=
  Z.sqrt (Qnum q * Z.pos (Qden q)) # Qden q.

(** ** The pipeline *)

Section Pipeline.

(** [DistTreeT::LeafNodeType::DIM]. *)
Variable DIM : Z.
(** [util::COORD_OFFSETS] (openvdb/util/Util.h). *)
Variable COORD_OFFSETS : list Coord.
(** [util::nearestCoord] (openvdb/util/Util.h). *)
Variable nearestCoord : Vec3d -> Coord.
(** [math::triToPtnDistSqr] (openvdb/math/Proximity.h). *)
Variable triToPtnDistSqr : Vec3d -> Vec3d -> Vec3d -> Vec3d -> Q.
(** [std::sqrt]. *)
Variable sqrt : Q -> Q.
(** The mesh: [mPointList] and [mPolygonList]. *)
Variable pointList : list Vec3d.
Variable polygonList : list Vec4I.
(** [math::sTri3ToPointDistSqr] (openvdb/math/Proximity.h): the squared
    distance and the barycentric pair [uv]. *)
Variable sTri3ToPointDistSqr : Vec3d -> Vec3d -> Vec3d -> Vec3d -> Q * (Q * Q).
(** [Vec3d::normalize] (openvdb/math/Vec3.h). *)
Variable Vec3d_normalize : Vec3d -> Vec3d.
(** [math::ISGradientNormSqrd<math::FIRST_BIAS>::result] on the stencil
    moved to a voxel (openvdb/math/Operators.h). *)
Variable ISGradientNormSqrd : Tree.t Q -> Coord -> Q.
(** Queries on the node structure of the distance tree, which the
    flattened tree does not carry: [getNodeLog2Dims],
    [evalLeafBoundingBox] (minimum and maximum corner) and the
    accessor's [getValueDepth]. *)
Variable getNodeLog2Dims : list Z.
Variable evalLeafBoundingBox : Tree.t Q -> Coord * Coord.
Variable getValueDepth : Tree.t Q -> Coord -> nat.
(** Tree methods and tools that are not among the sources:
    [pruneInactive], [signedFloodFill], the sweep over the tiles above
    the leaf level, [tools::dilateVoxels] (openvdb/tools/Morphology.h)
    and [pruneOp] with a [LevelSetPrune]. *)
Variable pruneInactive : forall A : Type, Tree.t A -> Tree.t A.
Variable signedFloodFill : Tree.t Q -> Tree.t Q.
Variable sweepTiles : Q -> Q -> Tree.t Q -> Tree.t Q.
Variable dilateVoxels : Tree.t bool -> Tree.t bool.
Variable pruneLevelSet : Tree.t Q -> Tree.t Q.

(** [ijk + util::COORD_OFFSETS[n]]. *)
Definition neighbour (ijk : Coord) (n : nat) : Coord :=
  coord_add ijk (nth n COORD_OFFSETS (0, 0, 0)).

(** [mPointList->at(i)] and [mPolygonList->at(i)] without the range check.  An index out of range
    is undefined behaviour in the source; here it reads a zero entry. *)
Definition point (i : Z) : Vec3d := nth (Z.to_nat i) pointList (0%Q, 0%Q, 0%Q).
Definition polygon (i : Z) : Vec4I := nth (Z.to_nat i) polygonList (0, 0, 0, 0).

(** *** MeshVoxelizer *)

Record MeshVoxelizer : Type := mkVoxelizer {
  mSqrDistTree : Tree.t Q;
  mPrimIndexTree : Tree.t Z;
  mIntersectionTree : Tree.t bool;
  mLastPrimTree : Tree.t Z
}.

(** The constructors (also the splitting one): empty trees. *)
Definition MeshVoxelizer_new : MeshVoxelizer :=
  mkVoxelizer (Tree.create DBL_MAX) (Tree.create (Int32 INVALID_IDX))
              (Tree.create false) (Tree.create (Int32 INVALID_IDX)).

(** [MeshVoxelizer::shortEdge]. *)
Definition shortEdge (v0 v1 v2 : Vec3d) : bool :=
  let edge_max := Qabs (at3 v1 0 - at3 v0 0) in
  let edge_max := std_max edge_max (Qabs (at3 v1 1 - at3 v0 1)) in
  let edge_max := std_max edge_max (Qabs (at3 v1 2 - at3 v0 2)) in
  let edge_max := std_max edge_max (Qabs (at3 v0 0 - at3 v2 0)) in
  let edge_max := std_max edge_max (Qabs (at3 v0 1 - at3 v2 1)) in
  let edge_max := std_max edge_max (Qabs (at3 v0 2 - at3 v2 2)) in
  Qltb edge_max 200.

(** The squared distance computed at the head of [evalVoxel]: to the
    triangle, and for a quad also to its second triangle. *)
Definition evalVoxel_dist (ijk : Coord) (polyIdx : Z) : Q :=
  let voxelCenter := Vec3d_of_Coord ijk in
  let verts := polygon polyIdx in
  let p0 := point (at4 verts 0) in
  let p1 := point (at4 verts 1) in
  let p2 := point (at4 verts 2) in
  let dist := triToPtnDistSqr p0 p1 p2 voxelCenter in
  if negb (INVALID_IDX =? at4 verts 3) then
    let p1 := point (at4 verts 3) in
    let secondDist := triToPtnDistSqr p0 p1 p2 voxelCenter in
    if Qltb secondDist dist then secondDist else dist
  else dist.

(** [MeshVoxelizer::evalVoxel]: the returned flag and the voxelizer
    after the call. *)
Definition evalVoxel (vz : MeshVoxelizer) (ijk : Coord) (polyIdx : Z)
  : bool * MeshVoxelizer :=
  let dist := evalVoxel_dist ijk polyIdx in
  let tmp := dist in
  let vz' :=
    if Qltb tmp (Qabs (Tree.getValue (mSqrDistTree vz) ijk)) then
      mkVoxelizer (Tree.setValue DIM (mSqrDistTree vz) ijk (- tmp)%Q)
                  (Tree.setValue DIM (mPrimIndexTree vz) ijk polyIdx)
                  (mIntersectionTree vz) (mLastPrimTree vz)
    else vz in
  (Qltb dist HALF_DIAG, vz').

(** The loop over the 26 neighbours of a popped voxel, shared by both
    branches of [operator()]: returns the neighbours for which
    [evalVoxel] answered true, in visiting order. *)
Fixpoint evalNeighbours (primIdx : Z) (ijk : Coord) (ns : list nat)
  (vz : MeshVoxelizer) : list Coord * MeshVoxelizer :=
  match ns with
  | [] => ([], vz)
  | i :: ns' =>
      let n_ijk := neighbour ijk i in
      if negb (primIdx =? Tree.getValue (mLastPrimTree vz) n_ijk) then
        let vz1 := mkVoxelizer (mSqrDistTree vz) (mPrimIndexTree vz)
                     (mIntersectionTree vz)
                     (Tree.setValue DIM (mLastPrimTree vz) n_ijk primIdx) in
        let '(hit, vz2) := evalVoxel vz1 n_ijk primIdx in
        let '(found, vz3) := evalNeighbours primIdx ijk ns' vz2 in
        (if hit then n_ijk :: found else found, vz3)
      else evalNeighbours primIdx ijk ns' vz
  end.

Definition markIntersection (vz : MeshVoxelizer) (ijk : Coord) : MeshVoxelizer :=
  mkVoxelizer (mSqrDistTree vz) (mPrimIndexTree vz)
    (Tree.setActiveState DIM (mIntersectionTree vz) ijk true)
    (mLastPrimTree vz).

(** The [while (!coordList.empty())] loop of the short-edge branch.  The
    back of the deque is the head of the list.  [fuel] bounds the number
    of iterations. *)
Fixpoint shortEdgeFlood (fuel : nat) (primIdx : Z) (coordList : list Coord)
  (vz : MeshVoxelizer) : MeshVoxelizer :=
  match fuel with
  | O => vz
  | S fuel' =>
      match coordList with
      | [] => vz
      | ijk :: rest =>
          let vz1 := markIntersection vz ijk in
          let '(found, vz2) := evalNeighbours primIdx ijk (seq 0 26) vz1 in
          shortEdgeFlood fuel' primIdx (rev found ++ rest) vz2
      end
  end.

(** The short-edge branch for primitive [n]. *)
Definition shortEdgeFill (fuel : nat) (n : nat) (vz : MeshVoxelizer)
  : MeshVoxelizer :=
  let primIdx := Int32 (Z.of_nat n) in
  let verts := polygon (Z.of_nat n) in
  let seed (acc : list Coord * MeshVoxelizer) (p : Vec3d) :=
    let ijk := nearestCoord p in
    (ijk :: acc.1, (evalVoxel acc.2 ijk primIdx).2) in
  let s := seed ([], vz) (point (at4 verts 0)) in
  let s := seed s (point (at4 verts 1)) in
  let s := seed s (point (at4 verts 2)) in
  let s := if negb (INVALID_IDX =? at4 verts 3)
           then seed s (point (at4 verts 3)) else s in
  shortEdgeFlood fuel primIdx s.1 s.2.

(** One sweep over the active voxels of [auxTree] in the long-edge
    branch.  The sweep runs over the voxels that are on when it starts;
    voxels switched on meanwhile are left for the next sweep. *)
Fixpoint longEdgeSweep (primIdx : Z) (todo : list Coord)
  (aux : Tree.t bool) (vz : MeshVoxelizer) : Tree.t bool * MeshVoxelizer :=
  match todo with
  | [] => (aux, vz)
  | ijk :: todo' =>
      let aux1 := Tree.iterSetValueOff aux ijk in
      let vz1 := markIntersection vz ijk in
      let '(found, vz2) := evalNeighbours primIdx ijk (seq 0 26) vz1 in
      let aux2 := fold_left (fun a c => Tree.setActiveState DIM a c true)
                            found aux1 in
      longEdgeSweep primIdx todo' aux2 vz2
  end.

(** The [while (!auxTree.empty())] loop; [fuel] bounds the sweeps. *)
Fixpoint longEdgeFlood (fuel : nat) (primIdx : Z) (aux : Tree.t bool)
  (vz : MeshVoxelizer) : MeshVoxelizer :=
  match fuel with
  | O => vz
  | S fuel' =>
      match Tree.activeVoxels aux with
      | [] => vz
      | todo =>
          let '(aux', vz') := longEdgeSweep primIdx todo aux vz in
          longEdgeFlood fuel' primIdx aux' vz'
      end
  end.

(** The long-edge branch for primitive [n]. *)
Definition longEdgeFill (fuel : nat) (n : nat) (vz : MeshVoxelizer)
  : MeshVoxelizer :=
  let primIdx := Int32 (Z.of_nat n) in
  let verts := polygon (Z.of_nat n) in
  let ijk := nearestCoord (point (at4 verts 0)) in
  let vz1 := (evalVoxel vz ijk primIdx).2 in
  let vz2 := mkVoxelizer (mSqrDistTree vz1) (mPrimIndexTree vz1)
               (mIntersectionTree vz1)
               (Tree.setValue DIM (mLastPrimTree vz1) ijk primIdx) in
  let aux := Tree.setActiveState DIM (Tree.create false) ijk true in
  longEdgeFlood fuel primIdx aux vz2.

(** The body of the loop of [MeshVoxelizer::operator()] for primitive
    [n]: the branch is chosen by [shortEdge]. *)
Definition voxelizePrimitive (fuel : nat) (n : nat) (vz : MeshVoxelizer)
  : MeshVoxelizer :=
  let verts := polygon (Z.of_nat n) in
  let p0 := point (at4 verts 0) in
  let p1 := point (at4 verts 1) in
  let p2 := point (at4 verts 2) in
  if shortEdge p0 p1 p2 then shortEdgeFill fuel n vz
  else longEdgeFill fuel n vz.

(** [MeshVoxelizer::operator()] on the range [[first, last)]. *)
Definition MeshVoxelizer_call (fuel : nat) (first last : nat)
  (vz : MeshVoxelizer) : MeshVoxelizer :=
  fold_left (fun v n => voxelizePrimitive fuel n v)
            (seq first (last - first)) vz.

(** [MeshVoxelizer::runSerial]. *)
Definition MeshVoxelizer_runSerial (fuel : nat) (vz : MeshVoxelizer)
  : MeshVoxelizer :=
  MeshVoxelizer_call fuel 0 (length polygonList) vz.


(** [MeshVoxelizer::join]: the body of the loop over the active voxels
    of [rhs.mSqrDistTree]. *)
Definition join_voxel (rhs lhs : MeshVoxelizer) (ijk : Coord) : MeshVoxelizer :=
  let rhsDist := Tree.getValue (mSqrDistTree rhs) ijk in
  let lhsDist := Tree.getValue (mSqrDistTree lhs) ijk in
  if Qltb (- rhsDist) (Qabs lhsDist) then
    mkVoxelizer
      (Tree.setValue DIM (mSqrDistTree lhs) ijk rhsDist)
      (Tree.setValue DIM (mPrimIndexTree lhs) ijk
         (Tree.getValue (mPrimIndexTree rhs) ijk))
      (mIntersectionTree lhs) (mLastPrimTree lhs)
  else lhs.

(** [MeshVoxelizer::join]. *)
Definition join (lhs rhs : MeshVoxelizer) : MeshVoxelizer :=
  let l := fold_left (join_voxel rhs)
             (Tree.activeVoxels (mSqrDistTree rhs)) lhs in
  mkVoxelizer (mSqrDistTree l) (mPrimIndexTree l)
    (Tree.merge (mIntersectionTree l) (mIntersectionTree rhs))
    (mLastPrimTree l).

(** [internal::combine]: as [join] on the distance and index trees, but
    the distance is written through the reference returned by
    [getValue], which leaves the active state as it is. *)
Definition combine_voxel (rhsDist : Tree.t Q) (rhsIndex : Tree.t Z)
  (lhs : Tree.t Q * Tree.t Z) (ijk : Coord) : Tree.t Q * Tree.t Z :=
  let rhsValue := Tree.getValue rhsDist ijk in
  let lhsValue := Tree.getValue lhs.1 ijk in
  if Qltb (- rhsValue) (Qabs lhsValue) then
    (Tree.setValueOnly lhs.1 ijk rhsValue,
     Tree.setValue DIM lhs.2 ijk (Tree.getValue rhsIndex ijk))
  else lhs.

Definition combine (lhsDist : Tree.t Q) (lhsIndex : Tree.t Z)
  (rhsDist : Tree.t Q) (rhsIndex : Tree.t Z) : Tree.t Q * Tree.t Z :=
  fold_left (combine_voxel rhsDist rhsIndex)
            (Tree.activeVoxels rhsDist) (lhsDist, lhsIndex).

(** *** ContourTracer *)

(** The variables that [sparseScan] carries from voxel to voxel, with
    the distance tree it writes to. *)
Record ScanState : Type := mkScan {
  scDist : Tree.t Q;
  lastVoxelWasOut : bool;
  last_k : Z
}.

(** The [for (Int32 n = 3; n < 6; n += 2)] probe of [sparseScan]:
    is the neighbour at offset 3 or at offset 5 active with a positive
    value? *)
Definition probeOutside (dist : Tree.t Q) (ijk : Coord) : bool :=
  existsb (fun n => let '(on, val) := Tree.probeValue dist (neighbour ijk n) in
                    on && Qltb 0 val) [3%nat; 5%nat].

(** The backtrace loop of [sparseScan]:
    [for (--ijk[2]; ijk[2] >= last_k; --ijk[2])], entered with
    [k = ijk[2] - 1]. [fuel] bounds the number of iterations. *)
Fixpoint backtrace (fuel : nat) (mask : Tree.t bool) (i j k lastk : Z)
  (dist : Tree.t Q) : Tree.t Q :=
  match fuel with
  | O => dist
  | S fuel' =>
      if k >=? lastk then
        if Tree.isValueOn mask (i, j, k) then dist
        else
          let v := Tree.getValue dist (i, j, k) in
          let dist' := if Qltb v 0
                       then Tree.setValueOnly dist (i, j, k) (- v)%Q
                       else dist in
          backtrace fuel' mask i j (k - 1) lastk dist'
      else dist
  end.

(** The body of the k loop of [sparseScan] at voxel [ijk], from the
    test [isValueOn(ijk)] on. *)
Definition sparseScan_visit (mask : Tree.t bool) (ijk : Coord)
  (s : ScanState) : ScanState :=
  let dist := scDist s in
  if Tree.isValueOn dist ijk then
    if Tree.isValueOn mask ijk then
      mkScan dist false (coord_k ijk)
    else if lastVoxelWasOut s then
      mkScan (Tree.setValueOnly dist ijk (- Tree.getValue dist ijk)%Q)
             true (last_k s)
    else
      if probeOutside dist ijk then
        let dist1 := Tree.setValueOnly dist ijk (- Tree.getValue dist ijk)%Q in
        let tmp_k := coord_k ijk in
        let dist2 := backtrace (Z.to_nat (tmp_k - last_k s)) mask
                       (coord_i ijk) (coord_j ijk) (tmp_k - 1) (last_k s)
                       dist1 in
        mkScan dist2 true tmp_k
      else
        mkScan dist false (Z.min (coord_k ijk) (last_k s))
  else s.

(** A row of [sparseScan] with unit steps: the voxels [k0, k0+1, ...]
    of row [(i, j)] are visited in turn. *)
Definition sparseScan_row (mask : Tree.t bool) (i j k0 : Z) (len : nat)
  (s : ScanState) : ScanState :=
  fold_left (fun st n => sparseScan_visit mask (i, j, k0 + Z.of_nat n) st)
            (seq 0 len) s.

(** *** Sign propagation *)

(** [surfaceTracer]: the back of the deque is the head of the list;
    [fuel] bounds the number of pops. *)
Fixpoint surfaceTracer (fuel : nat) (coordList : list Coord)
  (dist : Tree.t Q) (mask : Tree.t bool) : Tree.t Q :=
  match fuel with
  | O => dist
  | S fuel' =>
      match coordList with
      | [] => dist
      | ijk :: rest =>
          if negb (Tree.isValueOn dist ijk) then
            surfaceTracer fuel' rest dist mask
          else if negb (Qltb (Tree.getValue dist ijk) 0) then
            surfaceTracer fuel' rest dist mask
          else
            let dist' := Tree.setValueOnly dist ijk
                           (- Tree.getValue dist ijk)%Q in
            let pushed :=
              filter (fun n_ijk =>
                        negb (Tree.isValueOn mask n_ijk)
                        && Tree.isValueOn dist' n_ijk
                        && Qltb (Tree.getValue dist' n_ijk) 0 = true)
                     (map (neighbour ijk) (seq 0 6)) in
            surfaceTracer fuel' (rev pushed ++ rest) dist' mask
      end
  end.

(** The body of the voxel loop of [propagateSign]. *)
Definition propagateSign_voxel (fuel : nat) (mask : Tree.t bool)
  (dist : Tree.t Q) (ijk : Coord) : Tree.t Q :=
  if Tree.isValueOn mask ijk then dist
  else if Qltb (Tree.getValue dist ijk) 0 then
    if existsb (fun n => let n_ijk := neighbour ijk n in
                         Tree.isValueOn dist n_ijk
                         && Qltb 0 (Tree.getValue dist n_ijk)) (seq 0 6)
    then surfaceTracer fuel [ijk] dist mask
    else dist
  else dist.

(** [propagateSign]: the voxels that are active when the sweep starts
    are visited; [surfaceTracer] never changes an active state. *)
Definition propagateSign (fuel : nat) (dist : Tree.t Q) (mask : Tree.t bool)
  : Tree.t Q :=
  fold_left (propagateSign_voxel fuel mask) (Tree.activeVoxels dist) dist.

(** *** The self-intersection cleaners *)

(** [IntersectingVoxelCleaner::operator()] for one voxel of the
    intersection tree.  The distance background is stored into a
    [bool] leaf, that is, converted to [bg != 0]. *)
Definition IntersectingVoxelCleaner_voxel (dist : Tree.t Q)
  (mask : Tree.t bool) (ijk : Coord) : Tree.t bool :=
  let bg := Tree.background dist in
  let turnOff :=
    negb (existsb (fun m => let '(on, value) :=
                               Tree.probeValue dist (neighbour ijk m) in
                            on && Qltb 0 value) (seq 0 26)) in
  if turnOff
  then Tree.setValueOff DIM mask ijk (negb (Qeq_bool bg 0))
  else mask.

Definition IntersectingVoxelCleaner_call (dist : Tree.t Q)
  (mask : Tree.t bool) : Tree.t bool :=
  fold_left (IntersectingVoxelCleaner_voxel dist)
            (Tree.activeVoxels mask) mask.

(** [ShellVoxelCleaner::operator()] for one active voxel of the distance
    tree.  [distC] is the literal [-0.86602540378443861]. *)
Definition ShellVoxelCleaner_voxel (mask : Tree.t bool)
  (distBG : Q) (indexBG : Z)
  (st : Tree.t Q * Tree.t Z) (ijk : Coord) : Tree.t Q * Tree.t Z :=
  let distC := (- HALF_DIAG)%Q in
  let value := Tree.getValue st.1 ijk in
  if Qltb 0 value then st
  else if Tree.isValueOn mask ijk then st
  else
    let turnOff :=
      negb (existsb (fun m => Tree.isValueOn mask (neighbour ijk m))
                    (seq 0 18)) in
    if turnOff then
      (Tree.setValueOff DIM st.1 ijk distBG,
       Tree.setValueOff DIM st.2 ijk indexBG)
    else
      (if Qltb distC value then Tree.setValue DIM st.1 ijk distC else st.1,
       st.2).

(** [ShellVoxelCleaner::operator()] over all leaves.  [indexBG] is the
    background of the intersection tree converted to [Int32]. *)
Definition ShellVoxelCleaner_call (dist : Tree.t Q) (index : Tree.t Z)
  (mask : Tree.t bool) : Tree.t Q * Tree.t Z :=
  let distBG := Tree.background dist in
  let indexBG := if Tree.background mask then 1 else 0 in
  fold_left (ShellVoxelCleaner_voxel mask distBG indexBG)
            (Tree.activeVoxels dist) (dist, index).


(** *** ExpandNB *)

(** [ExpandNB::getDistToPrim]. *)
Definition getDistToPrim (mVoxelSize : Q) (ijk : Coord) (polyIdx : Z) : Q :=
  let voxelCenter := Vec3d_of_Coord ijk in
  let verts := polygon polyIdx in
  let p0 := point (at4 verts 0) in
  let p1 := point (at4 verts 1) in
  let p2 := point (at4 verts 2) in
  let dist := triToPtnDistSqr p0 p1 p2 voxelCenter in
  let dist :=
    if negb (INVALID_IDX =? at4 verts 3) then
      let p1 := point (at4 verts 3) in
      let secondDist := triToPtnDistSqr p0 p1 p2 voxelCenter in
      if Qltb secondDist dist then secondDist else dist
    else dist in
  (sqrt dist * mVoxelSize)%Q.

(** The neighbour loop of [ExpandNB::getDist]: the running minimum
    [dist] and the primitive index picked so far. *)
Definition getDist_scan (distAcc : Tree.t Q) (indexAcc : Tree.t Z)
  (ijk : Coord) (ns : list nat) (init : Q * Z) : Q * Z :=
  fold_left
    (fun (acc : Q * Z) n =>
       let n_ijk := neighbour ijk n in
       let '(on, nDist) := Tree.probeValue distAcc n_ijk in
       if on then
         let nDist := Qabs nDist in
         if Qltb nDist acc.1 then (nDist, Tree.getValue indexAcc n_ijk)
         else acc
       else acc)
    ns init.

(** [ExpandNB::getDist]: the distance returned and the value left in
    [primIndex]. *)
Definition getDist (mVoxelSize : Q) (distAcc : Tree.t Q)
  (indexAcc : Tree.t Z) (ijk : Coord) (primIndex : Z) : Q * Z :=
  let r := getDist_scan distAcc indexAcc ijk (seq 0 18)
             (DBL_MAX, primIndex) in
  (getDistToPrim mVoxelSize ijk r.2, r.2).

(** The trees [ExpandNB::operator()] works on, and its local variable
    [closestPrimIndex]. *)
Record ExpandState : Type := mkExpand {
  exDist : Tree.t Q;
  exIndex : Tree.t Z;
  exMask : Tree.t bool;
  closestPrimIndex : Z
}.

(** The body of the loop over the active voxels of a mask leaf whose
    distance and index leaves exist. *)
Definition ExpandNB_voxel (mExteriorBandWidth mInteriorBandWidth mVoxelSize : Q)
  (s : ExpandState) (p : Coord) : ExpandState :=
  if Tree.isValueOn (exDist s) p then
    mkExpand (exDist s) (exIndex s) (Tree.iterSetValueOff (exMask s) p)
             (closestPrimIndex s)
  else
    let '(distance, prim) :=
      getDist mVoxelSize (exDist s) (exIndex s) p (closestPrimIndex s) in
    let inside := Qltb (Tree.getValue (exDist s) p) 0 in
    if negb inside && Qltb distance mExteriorBandWidth then
      mkExpand (Tree.setValue DIM (exDist s) p distance)
               (Tree.setValue DIM (exIndex s) p prim) (exMask s) prim
    else if inside && Qltb distance mInteriorBandWidth then
      mkExpand (Tree.setValue DIM (exDist s) p (- distance)%Q)
               (Tree.setValue DIM (exIndex s) p prim) (exMask s) prim
    else
      mkExpand (exDist s) (exIndex s) (Tree.iterSetValueOff (exMask s) p)
               prim.

(** The position of a voxel in the buffer of its leaf, the [pos] of
    the leaf iterators:
    [((x & (DIM-1)) << 2*Log2Dim) + ((y & (DIM-1)) << Log2Dim)
     + (z & (DIM-1))] with [DIM = 1 << Log2Dim]. *)
Definition coord2offset (c : Coord) : Z :=
  let '(x, y, z) := c in
  (x mod DIM) * (DIM * DIM) + (y mod DIM) * DIM + z mod DIM.

(** The active voxels of the leaf at [origin] in the order of the
    [ValueOn] iterator of the leaf: by increasing [pos]. *)
Definition leafActiveVoxels {A : Type} (tr : Tree.t A) (origin : Coord)
  : list Coord :=
  merge_sort (fun a b => coord2offset a <= coord2offset b)
    (H := fun a b => decide (coord2offset a <= coord2offset b))
    (filter (fun c => Tree.leafOrigin DIM c = Tree.leafOrigin DIM origin)
            (Tree.activeVoxels tr)).

(** The body of the loop over the mask leaves. *)
Definition ExpandNB_leaf (mExteriorBandWidth mInteriorBandWidth mVoxelSize : Q)
  (s : ExpandState) (origin : Coord) : ExpandState :=
  if Tree.probeLeaf DIM (exDist s) origin
     && Tree.probeLeaf DIM (exIndex s) origin then
    fold_left (ExpandNB_voxel mExteriorBandWidth mInteriorBandWidth mVoxelSize)
              (leafActiveVoxels (exMask s) origin) s
  else
    mkExpand (exDist s) (exIndex s)
             (Tree.leafSetValuesOff DIM (exMask s) origin)
             (closestPrimIndex s).

(** [ExpandNB::operator()] over all leaves of the mask tree. *)
Definition ExpandNB_call (mExteriorBandWidth mInteriorBandWidth mVoxelSize : Q)
  (dist : Tree.t Q) (index : Tree.t Z) (mask : Tree.t bool)
  : Tree.t Q * Tree.t Z * Tree.t bool :=
  let s := fold_left
             (ExpandNB_leaf mExteriorBandWidth mInteriorBandWidth mVoxelSize)
             (elements (Tree.leafs mask)) (mkExpand dist index mask 0) in
  (exDist s, exIndex s, exMask s).

(** *** Leaf operators of the post-processor *)

(** [LeafTransformer] with an operator that visits the active voxels of
    each leaf. *)
Definition transformValueOn (op : Tree.t Q -> Coord -> Tree.t Q)
  (tr : Tree.t Q) : Tree.t Q :=
  fold_left op (Tree.activeVoxels tr) tr.

(** [SqrtAndScaleOp::operator()] for one active voxel: the index into
    [w] is [!mUnsigned && int(val < 0)]. *)
Definition SqrtAndScaleOp (mVoxelSize : Q) (mUnsigned : bool)
  (leaf : Tree.t Q) (c : Coord) : Tree.t Q :=
  let val := Tree.getValue leaf c in
  let w := if negb mUnsigned && Qltb val 0 then (- mVoxelSize)%Q
           else mVoxelSize in
  Tree.setValueOnly leaf c (w * sqrt (Qabs val))%Q.

(** [TrimOp::operator()] for one active voxel. *)
Definition TrimOp (mExBandWidth mInBandWidth : Q)
  (leaf : Tree.t Q) (c : Coord) : Tree.t Q :=
  let val := Tree.getValue leaf c in
  let inside := Qltb val 0 in
  if inside && negb (Qltb (- mInBandWidth) val) then
    Tree.iterSetValueOff (Tree.setValueOnly leaf c (- mInBandWidth)%Q) c
  else if negb inside && negb (Qltb val mInBandWidth) then
    Tree.iterSetValueOff (Tree.setValueOnly leaf c mExBandWidth) c
  else leaf.

(** [OffsetOp::operator()] for one active voxel. *)
Definition OffsetOp (mOffset : Q) (leaf : Tree.t Q) (c : Coord) : Tree.t Q :=
  Tree.setValueOnly leaf c (Tree.getValue leaf c + mOffset)%Q.


(** *** ContourTracer: construction and the sparse scan *)

Record ContourTracer : Type := mkTracer {
  mBBox : Coord * Coord;
  mStepSize : list Z
}.

(** The step size table built by the constructor: entry [idx] is
    [1 << (dims[idx] + ... + dims[size-1])], the last entry is 1. *)
Definition buildStepSize (dims : list Z) : list Z :=
  map (fun idx => Z.shiftl 1 (fold_right Z.add 0 (skipn idx dims)))
      (seq 0 (length dims)) ++ [1].

(** The alignment of one axis of the bounding box to [tileDim].  The
    quotients are taken in [double]; the conversions to [int], the
    products, the difference and the sum are [int] and [Int32]
    operations and are reduced to 32 bits. *)
Definition alignAxis (tileDim : Z) (lo hi : Z) : Z * Z :=
  let diff := (Qabs (inject_Z lo) / inject_Z tileDim)%Q in
  let lo' := if lo <=? tileDim
             then Int32 (Int32 (- Int32 (Qceiling diff)) * tileDim)
             else Int32 (Int32 (Qfloor diff) * tileDim) in
  let n := Int32 (Qceiling (Qabs (inject_Z (Int32 (hi - lo')))
                            / inject_Z tileDim)) in
  (lo', Int32 (lo' + Int32 (n * tileDim))).

(** [ContourTracer::ContourTracer]. *)
Definition ContourTracer_new (dist : Tree.t Q) : ContourTracer :=
  let steps := buildStepSize getNodeLog2Dims in
  let '(lo, hi) := evalLeafBoundingBox dist in
  let tileDim := nth 0 steps 1 in
  let ax := alignAxis tileDim (coord_i lo) (coord_i hi) in
  let ay := alignAxis tileDim (coord_j lo) (coord_j hi) in
  let az := alignAxis tileDim (coord_k lo) (coord_k hi) in
  mkTracer ((ax.1, ay.1, az.1), (ax.2, ay.2, az.2)) steps.

(** [mStepSize[mDistAccessor.getValueDepth(ijk) + 1]]. *)
Definition stepAt (tr : ContourTracer) (dist : Tree.t Q) (ijk : Coord) : Z :=
  nth (getValueDepth dist ijk + 1) (mStepSize tr) 1.

(** The local variables of [sparseScan]: the scan state, the three
    components of [step] and the current [ijk[2]]. *)
Record SliceState : Type := mkSlice {
  slScan : ScanState;
  step0 : Z;
  step1 : Z;
  step2 : Z;
  cur_k : Z
}.

(** The k loop of [sparseScan], entered at [k]; the increment
    [ijk[2] += step[2]] is an [Int32] addition. *)
Fixpoint sparseScan_k (fuel : nat) (tr : ContourTracer) (mask : Tree.t bool)
  (slice j k : Z) (st : SliceState) : SliceState :=
  match fuel with
  | O => mkSlice (slScan st) (step0 st) (step1 st) (step2 st) k
  | S fuel' =>
      if k <=? coord_k (mBBox tr).2 then
        let s2 := stepAt tr (scDist (slScan st)) (slice, j, k) in
        let sc := sparseScan_visit mask (slice, j, k) (slScan st) in
        sparseScan_k fuel' tr mask slice j (Int32 (k + s2))
          (mkSlice sc (Z.min (step0 st) s2) (Z.min (step1 st) s2) s2 k)
      else mkSlice (slScan st) (step0 st) (step1 st) (step2 st) k
  end.

(** The j loop of [sparseScan], entered at [j]; the increment
    [ijk[1] += step[1]] is an [Int32] addition. *)
Fixpoint sparseScan_j (fuel : nat) (tr : ContourTracer) (mask : Tree.t bool)
  (slice j : Z) (st : SliceState) : SliceState :=
  match fuel with
  | O => st
  | S fuel' =>
      if j <=? coord_j (mBBox tr).2 then
        let s1 := stepAt tr (scDist (slScan st)) (slice, j, cur_k st) in
        let st1 := mkSlice (slScan st) (Z.min (step0 st) s1) s1
                           (step2 st) (cur_k st) in
        let st2 := sparseScan_k fuel tr mask slice j
                     (coord_k (mBBox tr).1) st1 in
        sparseScan_j fuel' tr mask slice (Int32 (j + step1 st2)) st2
      else st
  end.

(** [ContourTracer::sparseScan]: the distance tree after the scan of a
    slice and the returned [step[0]].  [last_k] starts uninitialised in
    the source; it is written before it is first read. *)
Definition sparseScan (fuel : nat) (tr : ContourTracer) (mask : Tree.t bool)
  (slice : Z) (dist : Tree.t Q) : Tree.t Q * Z :=
  let ijk := (slice, coord_j (mBBox tr).1, coord_k (mBBox tr).1) in
  let s := stepAt tr dist ijk in
  let st := sparseScan_j fuel tr mask slice (coord_j (mBBox tr).1)
              (mkSlice (mkScan dist true 0) s s s (coord_k (mBBox tr).1)) in
  (scDist (slScan st), step0 st).

(** [ContourTracer::operator()] on the slices [[n, last)]; the
    increment [n += iStep] is an [int] addition. *)
Fixpoint ContourTracer_call (fuel : nat) (tr : ContourTracer)
  (mask : Tree.t bool) (n last : Z) (dist : Tree.t Q) : Tree.t Q :=
  match fuel with
  | O => dist
  | S fuel' =>
      if n <? last then
        let '(dist', iStep) := sparseScan (S fuel') tr mask n dist in
        ContourTracer_call fuel' tr mask (Int32 (n + iStep)) last dist'
      else dist
  end.

(** [ContourTracer::runParallel]: the range ends at the [int]
    [mBBox.max()[0] + 1]. *)
Definition ContourTracer_run (fuel : nat) (tr : ContourTracer)
  (mask : Tree.t bool) (dist : Tree.t Q) : Tree.t Q :=
  ContourTracer_call fuel tr mask (coord_i (mBBox tr).1)
                     (Int32 (coord_i (mBBox tr).2 + 1)) dist.

(** *** IntersectingVoxelSign *)

Definition vscale (v : Vec3d) (a : Q) : Vec3d :=
  (at3 v 0 * a, at3 v 1 * a, at3 v 2 * a)%Q.
Definition vadd (u v : Vec3d) : Vec3d :=
  (at3 u 0 + at3 v 0, at3 u 1 + at3 v 1, at3 u 2 + at3 v 2)%Q.
Definition vsub (u v : Vec3d) : Vec3d :=
  (at3 u 0 - at3 v 0, at3 u 1 - at3 v 1, at3 u 2 - at3 v 2)%Q.
Definition vdot (u v : Vec3d) : Q :=
  (at3 u 0 * at3 v 0 + at3 u 1 * at3 v 1 + at3 u 2 * at3 v 2)%Q.

(** [IntersectingVoxelSign::getClosestPointDir]. *)
Definition getClosestPointDir (index : Tree.t Z) (ijk : Coord) : Vec3d :=
  let voxelCenter := Vec3d_of_Coord ijk in
  let prim := polygon (Tree.getValue index ijk) in
  let p0 := point (at4 prim 0) in
  let p1 := point (at4 prim 1) in
  let p2 := point (at4 prim 2) in
  let '(dist, uv) := sTri3ToPointDistSqr p0 p1 p2 voxelCenter in
  let '(p1, uv) :=
    if negb (at4 prim 3 =? INVALID_IDX) then
      let p3 := point (at4 prim 3) in
      let '(dist2, uv2) := sTri3ToPointDistSqr p0 p3 p2 voxelCenter in
      if Qltb dist2 dist then (p3, uv2) else (p1, uv)
    else (p1, uv) in
  let closestPoint :=
    vadd (vadd (vscale p0 uv.1) (vscale p1 uv.2))
         (vscale p2 (1 - uv.1 - uv.2)%Q) in
  Vec3d_normalize (vsub voxelCenter closestPoint).

(** [IntersectingVoxelSign::evalVoxel]. *)
Definition IntersectingVoxelSign_evalVoxel (index : Tree.t Z)
  (mask : Tree.t bool) (dist : Tree.t Q) (ijk : Coord) : Tree.t Q :=
  let val := Tree.getValue dist ijk in
  if negb (Qltb val 0) then dist
  else
    let dir := getClosestPointDir index ijk in
    if existsb
         (fun n =>
            let n_ijk := neighbour ijk n in
            let '(on, n_val) := Tree.probeValue dist n_ijk in
            negb (Tree.isValueOn mask n_ijk) && on && negb (Qltb n_val 0)
            && Qltb 0 (vdot (getClosestPointDir index n_ijk) dir))
         (seq 0 26)
    then Tree.setValue DIM dist ijk (- val)%Q
    else dist.

(** [IntersectingVoxelSign::operator()] over the leaves of the
    intersection tree. *)
Definition IntersectingVoxelSign_call (index : Tree.t Z) (mask : Tree.t bool)
  (dist : Tree.t Q) : Tree.t Q :=
  fold_left (IntersectingVoxelSign_evalVoxel index mask)
            (Tree.activeVoxels mask) dist.


(** *** More leaf operators *)

(** The voxels of the leaf at [origin]. *)
Definition leafCoords (origin : Coord) : list Coord :=
  let r := map Z.of_nat (seq 0 (Z.to_nat DIM)) in
  flat_map (fun x => flat_map (fun y => map (fun z => coord_add origin (x, y, z)) r) r) r.

(** The coordinates visited by the [ValueOff] iterators of all leaves. *)
Definition inactiveVoxels {A : Type} (tr : Tree.t A) : list Coord :=
  flat_map (fun o => filter (fun c => Tree.isValueOn tr c = false) (leafCoords o))
           (elements (Tree.leafs tr)).

(** [LeafTransformer] with an operator that visits the inactive voxels
    of each leaf. *)
Definition transformValueOff (op : Tree.t Q -> Coord -> Tree.t Q)
  (tr : Tree.t Q) : Tree.t Q :=
  fold_left op (inactiveVoxels tr) tr.

(** [VoxelSignOp::operator()] for one inactive voxel. *)
Definition VoxelSignOp (mExBandWidth mInBandWidth : Q)
  (leaf : Tree.t Q) (c : Coord) : Tree.t Q :=
  let val := Tree.getValue leaf c in
  Tree.setValueOnly leaf c
    (if Qltb val 0 then (- mInBandWidth)%Q else mExBandWidth).

(** [RenormOp::operator()]: the value stored in the auxiliary buffer for
    an active voxel. *)
Definition RenormOp (grid : Tree.t Q) (mVoxelSize mCFL : Q) (c : Coord) : Q :=
  let dt := (mCFL * mVoxelSize)%Q in
  let invDx := (1 / mVoxelSize)%Q in
  let normSqGradPhi := ISGradientNormSqrd grid c in
  let phi0 := Tree.getValue grid c in
  let diff := (sqrt normSqGradPhi * invDx - 1)%Q in
  let S := (phi0 / sqrt (phi0 * phi0 + normSqGradPhi))%Q in
  (phi0 - dt * S * diff)%Q.

(** [MinOp::operator()] for one active voxel. *)
Definition MinOp (buffer : Coord -> Q) (leaf : Tree.t Q) (c : Coord) : Tree.t Q :=
  Tree.setValueOnly leaf c (std_min (Tree.getValue leaf c) (buffer c)).

(** *** The driver *)

(** The stages of [doConvert].  The list of stages that ran is kept
    with the converter; it is not part of the source. *)
Inductive Stage : Type :=
| StVoxelize | StContourTrace | StPropagateSign
| StIntersectingVoxelSign | StIntersectingVoxelCleaner | StShellVoxelCleaner
| StSqrtAndScale | StSignedFloodFill | StBackground | StRenormalize
| StMaskInit | StPreallocLeafs | StDilate | StExpandNB
| StClearIndex | StTrim | StPrune.

Record MeshToVolume : Type := mkConverter {
  mTransform_voxelSize : Q;
  mConversionFlags : Z;
  mSignSweeps : Z;
  mDistGrid : Tree.t Q;
  mIndexGrid : Tree.t Z;
  mIntersectingVoxelsGrid : Tree.t bool;
  mLog : list Stage
}.

(** The grids are replaced and the stage is recorded. *)
Definition ran (ev : Stage) (m : MeshToVolume) (dist : Tree.t Q)
  (index : Tree.t Z) (mask : Tree.t bool) : MeshToVolume :=
  mkConverter (mTransform_voxelSize m) (mConversionFlags m) (mSignSweeps m)
              dist index mask (mLog m ++ [ev]).

(** [MeshToVolume::MeshToVolume], with [clear()] inlined. *)
Definition MeshToVolume_new (voxelSize : Q) (conversionFlags : Z)
  (signSweeps : Z) : MeshToVolume :=
  mkConverter voxelSize conversionFlags (Z.min signSweeps 1)
              (Tree.create DBL_MAX) (Tree.create (Int32 INVALID_IDX))
              (Tree.create false) [].

(** How [tbb::parallel_reduce] cuts the range of primitives. *)
Inductive Partition : Type :=
| Chunk (first last : nat)
| Split (l r : Partition).

(** [tbb::parallel_reduce]: a chunk is run by [operator()]; at a split
    the right half starts from a fresh voxelizer (the splitting
    constructor) and is joined into the left half. *)
Fixpoint parallel_reduce (fuel : nat) (p : Partition) (body : MeshVoxelizer)
  : MeshVoxelizer :=
  match p with
  | Chunk first last => MeshVoxelizer_call fuel first last body
  | Split l r =>
      join (parallel_reduce fuel l body)
           (parallel_reduce fuel r MeshVoxelizer_new)
  end.

(** The cut chosen by the scheduler. *)
Variable partition : Partition.

(** "Voxelize mesh". *)
Definition voxelizeStage (fuel : nat) (m : MeshToVolume) : MeshToVolume :=
  let voxelizer := parallel_reduce fuel partition MeshVoxelizer_new in
  ran StVoxelize m
      (Tree.merge (mDistGrid m) (mSqrDistTree voxelizer))
      (Tree.merge (mIndexGrid m) (mPrimIndexTree voxelizer))
      (Tree.merge (mIntersectingVoxelsGrid m) (mIntersectionTree voxelizer)).

(** The body of the loop [for (int i = 0; i < mSignSweeps; ++i)]. *)
Definition signSweep (fuel : nat) (trace : ContourTracer) (m : MeshToVolume)
  : MeshToVolume :=
  let m1 := ran StContourTrace m
              (ContourTracer_run fuel trace (mIntersectingVoxelsGrid m)
                                 (mDistGrid m))
              (mIndexGrid m) (mIntersectingVoxelsGrid m) in
  ran StPropagateSign m1
      (propagateSign fuel (mDistGrid m1) (mIntersectingVoxelsGrid m1))
      (mIndexGrid m1) (mIntersectingVoxelsGrid m1).

(** The tracer is built once and the loop runs [mSignSweeps] times
    (not at all when [mSignSweeps <= 0]). *)
Definition signSweepLoop (fuel : nat) (m : MeshToVolume) : MeshToVolume :=
  let trace := ContourTracer_new (mDistGrid m) in
  fold_left (fun acc (_ : nat) => signSweep fuel trace acc)
            (seq 0 (Z.to_nat (mSignSweeps m))) m.

(** The sign of the intersecting voxels and the two cleaners. *)
Definition cleanStage (m : MeshToVolume) : MeshToVolume :=
  let m1 := ran StIntersectingVoxelSign m
              (IntersectingVoxelSign_call (mIndexGrid m)
                 (mIntersectingVoxelsGrid m) (mDistGrid m))
              (mIndexGrid m) (mIntersectingVoxelsGrid m) in
  let m2 := ran StIntersectingVoxelCleaner m1 (mDistGrid m1) (mIndexGrid m1)
              (pruneInactive bool
                 (IntersectingVoxelCleaner_call (mDistGrid m1)
                    (mIntersectingVoxelsGrid m1))) in
  let di := ShellVoxelCleaner_call (mDistGrid m2) (mIndexGrid m2)
              (mIntersectingVoxelsGrid m2) in
  ran StShellVoxelCleaner m2 (pruneInactive Q di.1) (pruneInactive Z di.2)
      (mIntersectingVoxelsGrid m2).

(** The signed part after the square root: flood fill, background
    values, renormalization. *)
Definition signedPostStage (exBandWidth inBandWidth : Q) (m : MeshToVolume)
  : MeshToVolume :=
  let voxelSize := mTransform_voxelSize m in
  let m1 := ran StSignedFloodFill m (signedFloodFill (mDistGrid m))
              (mIndexGrid m) (mIntersectingVoxelsGrid m) in
  let d1 := transformValueOff (VoxelSignOp exBandWidth inBandWidth)
              (mDistGrid m1) in
  let d2 := sweepTiles exBandWidth inBandWidth d1 in
  let d3 := Tree.merge (Tree.create exBandWidth) d2 in
  let m2 := ran StBackground m1 d3 (mIndexGrid m1)
              (mIntersectingVoxelsGrid m1) in
  let offset := ((8 # 10) * voxelSize)%Q in
  let d4 := transformValueOn (OffsetOp (- offset)%Q) (mDistGrid m2) in
  let d5 := transformValueOn (MinOp (RenormOp d4 voxelSize 1)) d4 in
  let d6 := transformValueOn (OffsetOp offset) d5 in
  ran StRenormalize m2 d6 (mIndexGrid m2)
      (Tree.clear (mIntersectingVoxelsGrid m2)).


(** [std::numeric_limits<size_t>::max()] on a 64-bit target. *)
Definition SIZE_MAX : Z := 2 ^ 64 - 1.

(** The counts [inLeafs], [exLeafs] and [numLeafs] of the leaf
    preallocation. *)
Definition preallocCounts (exBandWidth inBandWidth voxelSize : Q) : Z * Z * Z :=
  let leafSize := (inject_Z (DIM - 1) * voxelSize)%Q in
  let inLeafsRatio := (inBandWidth / leafSize)%Q in
  let inLeafs := if Qltb (inLeafsRatio + 1) (inject_Z SIZE_MAX)
                 then Qceiling inLeafsRatio + 1 else SIZE_MAX in
  let exLeafs := Qceiling (exBandWidth / leafSize) + 1 in
  (inLeafs, exLeafs, Z.max inLeafs exLeafs).

(** The body of the loop over [distLeafs]: the six face-adjacent leaves
    of the leaf at [origin] are allocated where they are missing. *)
Definition preallocAround (i inLeafs exLeafs : Z)
  (st : Tree.t Q * list Coord) (origin : Coord) : Tree.t Q * list Coord :=
  let inside := Qltb (Tree.getValue st.1 origin) 0 in
  if inside && negb (i <? inLeafs) then st
  else if negb inside && negb (i <? exLeafs) then st
  else
    let '(x, y, z) := origin in
    fold_left
      (fun (acc : Tree.t Q * list Coord) ijk =>
         if Tree.probeLeaf DIM acc.1 ijk then acc
         else (Tree.touchLeaf DIM acc.1 ijk,
               acc.2 ++ [Tree.leafOrigin DIM ijk]))
      [ (x - 1, y, z); (x, y - 1, z); (x, y, z - 1);
        (x + DIM, y, z); (x, y + DIM, z); (x, y, z + DIM) ]
      st.

(** The loop [for (size_t i = 0; i < numLeafs; ++i)] entered at [i],
    with [todo] iterations left. *)
Fixpoint preallocLoop (todo : nat) (i inLeafs exLeafs : Z)
  (distLeafs : list Coord) (dist : Tree.t Q) : Tree.t Q :=
  match todo with
  | O => dist
  | S todo' =>
      let '(dist', newDistLeafs) :=
        fold_left (preallocAround i inLeafs exLeafs) distLeafs (dist, []) in
      match newDistLeafs with
      | [] => dist'
      | _ => preallocLoop todo' (i + 1) inLeafs exLeafs newDistLeafs dist'
      end
  end.

(** "Preallocate leafs". *)
Definition preallocLeafs (exBandWidth inBandWidth voxelSize : Q)
  (dist : Tree.t Q) : Tree.t Q :=
  let '(inLeafs, exLeafs, numLeafs) :=
    preallocCounts exBandWidth inBandWidth voxelSize in
  preallocLoop (Z.to_nat numLeafs) 0 inLeafs exLeafs
               (elements (Tree.leafs dist)) dist.

(** The loop [while (maskTree.activeVoxelCount() > 0)]; [fuel] bounds
    the number of iterations.  The stages that ran are appended to
    [log]. *)
Fixpoint expandLoop (fuel : nat) (exBandWidth inBandWidth voxelSize : Q)
  (dist : Tree.t Q) (index : Tree.t Z) (maskTree : Tree.t bool)
  (log : list Stage) : Tree.t Q * Tree.t Z * list Stage :=
  match fuel with
  | O => (dist, index, log)
  | S fuel' =>
      if (0 <? Tree.activeVoxelCount maskTree)%nat then
        let mask1 := dilateVoxels maskTree in
        let '(dist', index', mask2) :=
          ExpandNB_call exBandWidth inBandWidth voxelSize dist index mask1 in
        expandLoop fuel' exBandWidth inBandWidth voxelSize dist' index'
                   (pruneInactive bool mask2) (log ++ [StDilate; StExpandNB])
      else (dist, index, log)
  end.

(** "Narrow-band dilation": the block guarded by
    [inBandWidth > minWidth || exBandWidth > minWidth]. *)
Definition dilationStage (fuel : nat) (exBandWidth inBandWidth : Q)
  (m : MeshToVolume) : MeshToVolume :=
  let voxelSize := mTransform_voxelSize m in
  let minWidth := (voxelSize * 2)%Q in
  if Qltb minWidth inBandWidth || Qltb minWidth exBandWidth then
    let maskTree := Tree.topologyUnion DIM (Tree.create false) (mDistGrid m) in
    let m1 := ran StMaskInit m (mDistGrid m) (mIndexGrid m)
                  (mIntersectingVoxelsGrid m) in
    let dist1 := preallocLeafs exBandWidth inBandWidth voxelSize (mDistGrid m1) in
    let index1 := Tree.topologyUnion DIM (mIndexGrid m1) dist1 in
    let m2 := ran StPreallocLeafs m1 dist1 index1 (mIntersectingVoxelsGrid m1) in
    let '(dist2, index2, log2) :=
      expandLoop fuel exBandWidth inBandWidth voxelSize dist1 index1 maskTree
                 (mLog m2) in
    mkConverter (mTransform_voxelSize m2) (mConversionFlags m2)
                (mSignSweeps m2) dist2 index2 (mIntersectingVoxelsGrid m2) log2
  else m.

(** The block guarded by
    [inBandWidth < minTrimWidth || exBandWidth < minTrimWidth]. *)
Definition trimStage (exBandWidth inBandWidth : Q) (m : MeshToVolume)
  : MeshToVolume :=
  let minTrimWidth := (mTransform_voxelSize m * 3)%Q in
  if Qltb inBandWidth minTrimWidth || Qltb exBandWidth minTrimWidth then
    ran StTrim m (transformValueOn (TrimOp exBandWidth inBandWidth) (mDistGrid m))
        (mIndexGrid m) (mIntersectingVoxelsGrid m)
  else m.

(** [GENERATE_PRIM_INDEX_GRID]. *)
Definition GENERATE_PRIM_INDEX_GRID : Z := 1.

(** The part of [doConvert] from "Transform values" to the drop of the
    index grid, that is, up to the trim block. *)
Definition doConvert_upToTrim (fuel : nat) (exBandWidth inBandWidth : Q)
  (unsignedDistField : bool) (m2 : MeshToVolume) : MeshToVolume :=
  let voxelSize := mTransform_voxelSize m2 in
  let m3 := ran StSqrtAndScale m2
              (transformValueOn (SqrtAndScaleOp voxelSize unsignedDistField)
                                (mDistGrid m2))
              (mIndexGrid m2) (mIntersectingVoxelsGrid m2) in
  let m4 := if negb unsignedDistField
            then signedPostStage exBandWidth inBandWidth m3 else m3 in
  let m5 := dilationStage fuel exBandWidth inBandWidth m4 in
  if negb (negb (Z.land GENERATE_PRIM_INDEX_GRID (mConversionFlags m5) =? 0))
  then ran StClearIndex m5 (mDistGrid m5) (Tree.clear (mIndexGrid m5))
           (mIntersectingVoxelsGrid m5)
  else m5.

(** [MeshToVolume::doConvert]. *)
Definition doConvert (fuel : nat) (exBandWidth inBandWidth : Q)
  (unsignedDistField : bool) (m : MeshToVolume) : MeshToVolume :=
  let m1 := voxelizeStage fuel m in
  let m2 := if negb unsignedDistField
            then cleanStage (signSweepLoop fuel m1) else m1 in
  let inBandWidth := if negb unsignedDistField then inBandWidth else 0%Q in
  if (Tree.activeVoxelCount (mDistGrid m2) =? 0)%nat then m2
  else
    let m6 := doConvert_upToTrim fuel exBandWidth inBandWidth
                                 unsignedDistField m2 in
    let m7 := trimStage exBandWidth inBandWidth m6 in
    ran StPrune m7 (pruneLevelSet (mDistGrid m7)) (mIndexGrid m7)
        (mIntersectingVoxelsGrid m7).

(** The literal [DistValueT(1.0 + 1e-7)]. *)
Definition MIN_BAND : Q := 10000001 # 10000000.

(** [MeshToVolume::convertToLevelSet]. *)
Definition convertToLevelSet (fuel : nat) (exBandWidth inBandWidth : Q)
  (m : MeshToVolume) : MeshToVolume :=
  let exBandWidth := std_max MIN_BAND exBandWidth in
  let inBandWidth := std_max MIN_BAND inBandWidth in
  let vs := mTransform_voxelSize m in
  doConvert fuel (vs * exBandWidth)%Q (vs * inBandWidth)%Q false m.

(** [MeshToVolume::convertToUnsignedDistanceField]. *)
Definition convertToUnsignedDistanceField (fuel : nat) (exBandWidth : Q)
  (m : MeshToVolume) : MeshToVolume :=
  let exBandWidth := std_max MIN_BAND exBandWidth in
  let vs := mTransform_voxelSize m in
  doConvert fuel (vs * exBandWidth)%Q 0%Q true m.

Lemma Qltb_lt (x y : Q) : Qltb x y = true <-> (x < y)%Q.
Proof.
  unfold Qltb. rewrite negb_true_iff. split.
  - intros H. apply Qnot_le_lt. intros Hle.
    apply Qle_bool_iff in Hle. congruence.
  - intros H. destruct (Qle_bool y x) eqn:E; [|reflexivity].
    apply Qle_bool_iff in E. exfalso. apply (Qlt_not_le _ _ H E).
Qed.

Lemma Qltb_ge (x y : Q) : Qltb x y = false <-> (y <= x)%Q.
Proof.
  unfold Qltb. rewrite negb_false_iff. apply Qle_bool_iff.
Qed.

Lemma Qltb_irrefl (x : Q) : Qltb x x = false.
Proof. apply Qltb_ge. apply Qle_refl. Qed.

(** ** Facts about trees *)

Section TreeFacts.
Context {A : Type}.
Implicit Types (tr : Tree.t A) (c : Coord) (v : A).

Lemma voxel_setValue tr c c' v :
  Tree.voxel (Tree.setValue DIM tr c v) c'
  = if decide (c' = c) then (v, true) else Tree.voxel tr c'.
Proof.
  unfold Tree.voxel, Tree.getValue, Tree.isValueOn, Tree.setValue; simpl.
  case_decide as E; [subst; by rewrite lookup_insert_eq|].
  by rewrite lookup_insert_ne.
Qed.

Lemma voxel_setValueOff tr c c' v :
  Tree.voxel (Tree.setValueOff DIM tr c v) c'
  = if decide (c' = c) then (v, false) else Tree.voxel tr c'.
Proof.
  unfold Tree.voxel, Tree.getValue, Tree.isValueOn, Tree.setValueOff; simpl.
  case_decide as E; [subst; by rewrite lookup_insert_eq|].
  by rewrite lookup_insert_ne.
Qed.

Lemma voxel_setActiveState tr c c' on :
  Tree.voxel (Tree.setActiveState DIM tr c on) c'
  = if decide (c' = c) then (Tree.getValue tr c, on) else Tree.voxel tr c'.
Proof.
  unfold Tree.voxel, Tree.getValue, Tree.isValueOn, Tree.setActiveState; simpl.
  case_decide as E; [subst; by rewrite lookup_insert_eq|].
  by rewrite lookup_insert_ne.
Qed.

Lemma voxel_setValueOnly tr c c' v :
  Tree.voxel (Tree.setValueOnly tr c v) c'
  = if decide (c' = c) then (v, Tree.isValueOn tr c) else Tree.voxel tr c'.
Proof.
  unfold Tree.voxel, Tree.getValue, Tree.isValueOn, Tree.setValueOnly; simpl.
  case_decide as E; [subst; by rewrite lookup_insert_eq|].
  by rewrite lookup_insert_ne.
Qed.

Lemma voxel_iterSetValueOff tr c c' :
  Tree.voxel (Tree.iterSetValueOff tr c) c'
  = if decide (c' = c) then (Tree.getValue tr c, false) else Tree.voxel tr c'.
Proof.
  unfold Tree.voxel, Tree.getValue, Tree.isValueOn, Tree.iterSetValueOff; simpl.
  case_decide as E; [subst; by rewrite lookup_insert_eq|].
  by rewrite lookup_insert_ne.
Qed.

Lemma voxel_setValue_eq tr c v :
  Tree.voxel (Tree.setValue DIM tr c v) c = (v, true).
Proof. rewrite voxel_setValue. by destruct (decide (c = c)). Qed.

Lemma voxel_iterSetValueOff_eq tr c :
  Tree.voxel (Tree.iterSetValueOff tr c) c = (Tree.getValue tr c, false).
Proof. rewrite voxel_iterSetValueOff. by destruct (decide (c = c)). Qed.

Lemma voxel_setValueOnly_eq tr c v :
  Tree.voxel (Tree.setValueOnly tr c v) c = (v, Tree.isValueOn tr c).
Proof. rewrite voxel_setValueOnly. by destruct (decide (c = c)). Qed.

Lemma voxel_value tr c : (Tree.voxel tr c).1 = Tree.getValue tr c.
Proof. reflexivity. Qed.

Lemma voxel_on tr c : (Tree.voxel tr c).2 = Tree.isValueOn tr c.
Proof. reflexivity. Qed.

Lemma voxel_create (bg : A) c : Tree.voxel (Tree.create bg) c = (bg, false).
Proof.
  unfold Tree.voxel, Tree.getValue, Tree.isValueOn, Tree.create; simpl.
  by rewrite lookup_empty.
Qed.

(** The [ValueOn] iterators visit exactly the active voxels, each once. *)
Lemma elem_of_activeVoxels tr c :
  c ∈ Tree.activeVoxels tr <-> Tree.isValueOn tr c = true.
Proof.
  unfold Tree.activeVoxels, Tree.isValueOn. rewrite list_elem_of_fmap. split.
  - intros [[k [v on]] [-> [Hon Hin]%list_elem_of_filter]].
    apply elem_of_map_to_list in Hin. simpl in *. by rewrite Hin.
  - destruct (Tree.voxels tr !! c) as [[v on]|] eqn:E; [|done].
    intros ->. exists (c, (v, true)). split; [done|].
    apply list_elem_of_filter. split; [done|]. by apply elem_of_map_to_list.
Qed.

Lemma NoDup_activeVoxels tr : NoDup (Tree.activeVoxels tr).
Proof.
  unfold Tree.activeVoxels.
  eapply sublist_NoDup; [apply (NoDup_fst_map_to_list (Tree.voxels tr))|].
  apply fmap_sublist, sublist_filter.
Qed.

End TreeFacts.

(** ** Loops that touch one voxel per iteration *)

(** A loop over distinct voxels whose body changes what is observed
    ([get]) at the visited voxel only, as a function [F] of what was
    observed there, acts voxel by voxel. *)
Lemma fold_left_local {S X : Type} (get : S -> Coord -> X)
  (body : S -> Coord -> S) (F : Coord -> X -> X) (l : list Coord) :
  NoDup l ->
  (forall s c c', c' <> c -> get (body s c) c' = get s c') ->
  (forall s c, get (body s c) c = F c (get s c)) ->
  forall s c,
    get (fold_left body l s) c
    = if decide (c ∈ l) then F c (get s c) else get s c.
Proof.
  intros Hnd Hne Heq. induction l as [|a l IH]; intros s c; simpl.
  - destruct (decide (c ∈ [])) as [E|E]; [|done].
    by apply elem_of_nil in E.
  - apply NoDup_cons in Hnd as [Ha Hnd]. rewrite (IH Hnd).
    destruct (decide (c = a)) as [->|Hca].
    + destruct (decide (a ∈ l)) as [?|_]; [done|].
      destruct (decide (a ∈ a :: l)) as [_|E]; [apply Heq|].
      exfalso. apply E. left.
    + rewrite (Hne _ _ _ Hca).
      destruct (decide (c ∈ l)) as [Hin|Hin];
        destruct (decide (c ∈ a :: l)) as [Hin'|Hin']; try done.
      * exfalso. apply Hin'. by right.
      * apply elem_of_cons in Hin' as [?|?]; done.
Qed.

(** A loop whose body does nothing at any visited voxel does nothing. *)
Lemma fold_left_id {S : Type} (body : S -> Coord -> S) (l : list Coord) (s : S) :
  (forall c, c ∈ l -> body s c = s) -> fold_left body l s = s.
Proof.
  induction l as [|a l IH]; simpl; intros H; [done|].
  rewrite (H a) by left. apply IH. intros c Hc. apply H. by right.
Qed.


(** ** The trim pass *)

(** What [TrimOp] makes of the value and state of the voxel it visits. *)
Definition trimmed (ex inb : Q) (vo : Q * bool) : Q * bool :=
  let inside := Qltb vo.1 0 in
  if inside && negb (Qltb (- inb) vo.1) then ((- inb)%Q, false)
  else if negb inside && negb (Qltb vo.1 inb) then (ex, false)
  else vo.

Lemma voxel_TrimOp (ex inb : Q) (leaf : Tree.t Q) (c c' : Coord) :
  Tree.voxel (TrimOp ex inb leaf c) c'
  = if decide (c' = c) then trimmed ex inb (Tree.voxel leaf c)
    else Tree.voxel leaf c'.
Proof.
  unfold TrimOp, trimmed. rewrite voxel_value.
  destruct (Qltb (Tree.getValue leaf c) 0 && negb (Qltb (- inb) (Tree.getValue leaf c))).
  - rewrite voxel_iterSetValueOff. case_decide; [|by rewrite voxel_setValueOnly, decide_False].
    subst. f_equal. rewrite <- voxel_value, voxel_setValueOnly. by rewrite decide_True.
  - destruct (negb (Qltb (Tree.getValue leaf c) 0) && negb (Qltb (Tree.getValue leaf c) inb)).
    + rewrite voxel_iterSetValueOff. case_decide; [|by rewrite voxel_setValueOnly, decide_False].
      subst. f_equal. rewrite <- voxel_value, voxel_setValueOnly. by rewrite decide_True.
    + case_decide; by subst.
Qed.

Lemma voxel_trim (ex inb : Q) (tr : Tree.t Q) (c : Coord) :
  Tree.voxel (transformValueOn (TrimOp ex inb) tr) c
  = if Tree.isValueOn tr c then trimmed ex inb (Tree.voxel tr c)
    else Tree.voxel tr c.
Proof.
  unfold transformValueOn.
  rewrite (fold_left_local Tree.voxel (TrimOp ex inb)
             (fun _ => trimmed ex inb) _ (NoDup_activeVoxels tr)).
  - destruct (decide (c ∈ Tree.activeVoxels tr)) as [Hin|Hin].
    + apply elem_of_activeVoxels in Hin. by rewrite Hin.
    + destruct (Tree.isValueOn tr c) eqn:E; [|done].
      exfalso. apply Hin. by apply elem_of_activeVoxels.
  - intros s a a' Hne. rewrite voxel_TrimOp. by rewrite decide_False.
  - intros s a. rewrite voxel_TrimOp. by rewrite decide_True.
Qed.

Lemma trimmed_on (ex inb : Q) (vo : Q * bool) :
  (trimmed ex inb vo).2 = true -> trimmed ex inb vo = vo.
Proof.
  unfold trimmed.
  destruct (Qltb vo.1 0 && negb (Qltb (- inb) vo.1)); [done|].
  by destruct (negb (Qltb vo.1 0) && negb (Qltb vo.1 inb)).
Qed.

Lemma TrimOp_kept (ex inb : Q) (leaf : Tree.t Q) (c : Coord) :
  trimmed ex inb (Tree.voxel leaf c) = Tree.voxel leaf c ->
  Tree.isValueOn leaf c = true ->
  TrimOp ex inb leaf c = leaf.
Proof.
  unfold trimmed, TrimOp, Tree.voxel. simpl. intros H Hon.
  destruct (Qltb (Tree.getValue leaf c) 0 && negb (Qltb (- inb) (Tree.getValue leaf c))).
  { inversion H. congruence. }
  destruct (negb (Qltb (Tree.getValue leaf c) 0) && negb (Qltb (Tree.getValue leaf c) inb)).
  { inversion H. congruence. }
  done.
Qed.

(** C10. In the trim pass an active voxel with value [v >= 0] is set to
    [+exBandWidth] and deactivated exactly when [v] is not less than the
    interior width [inBandWidth]; an active voxel with [v < 0] is set to
    [-inBandWidth] and deactivated exactly when [v] is not greater than
    [-inBandWidth]; every other voxel keeps its value and state; and
    running the pass on its own result changes nothing. *)
Theorem C10_trim_pass (exBandWidth inBandWidth : Q) (tr : Tree.t Q) :
  let tr' := transformValueOn (TrimOp exBandWidth inBandWidth) tr in
  (forall c, Tree.isValueOn tr c = true ->
     let v := Tree.getValue tr c in
     ((0 <= v)%Q ->
        (~ (v < inBandWidth)%Q -> Tree.voxel tr' c = (exBandWidth, false))
        /\ ((v < inBandWidth)%Q -> Tree.voxel tr' c = (v, true)))
     /\ ((v < 0)%Q ->
        (~ (- inBandWidth < v)%Q ->
           Tree.voxel tr' c = ((- inBandWidth)%Q, false))
        /\ ((- inBandWidth < v)%Q -> Tree.voxel tr' c = (v, true))))
  /\ (forall c, Tree.isValueOn tr c = false ->
        Tree.voxel tr' c = Tree.voxel tr c)
  /\ transformValueOn (TrimOp exBandWidth inBandWidth) tr' = tr'.
Proof.
  intros tr'. split; [|split].
  - intros c Hon v. subst tr'. rewrite voxel_trim, Hon.
    unfold trimmed, Tree.voxel. simpl. fold v. rewrite Hon.
    split.
    + intros Hv. apply Qltb_ge in Hv. rewrite Hv. simpl. split.
      * intros Hn. destruct (Qltb v inBandWidth) eqn:E; [|done].
        apply Qltb_lt in E. done.
      * intros Hlt. apply Qltb_lt in Hlt. by rewrite Hlt.
    + intros Hv. apply Qltb_lt in Hv. rewrite Hv. simpl. split.
      * intros Hn. destruct (Qltb (- inBandWidth) v) eqn:E; [|done].
        apply Qltb_lt in E. done.
      * intros Hlt. apply Qltb_lt in Hlt. by rewrite Hlt.
  - intros c Hoff. subst tr'. by rewrite voxel_trim, Hoff.
  - unfold transformValueOn at 1. apply fold_left_id. intros c Hc.
    apply elem_of_activeVoxels in Hc.
    assert (Hv : Tree.voxel tr' c
                 = if Tree.isValueOn tr c
                   then trimmed exBandWidth inBandWidth (Tree.voxel tr c)
                   else Tree.voxel tr c) by apply voxel_trim.
    apply TrimOp_kept; [|done].
    destruct (Tree.isValueOn tr c) eqn:E.
    + rewrite Hv. assert (Ht := Hv). apply (f_equal snd) in Ht.
      rewrite voxel_on, Hc in Ht. symmetry in Ht.
      rewrite (trimmed_on _ _ _ Ht). by apply trimmed_on.
    + rewrite <- voxel_on, Hv, voxel_on in Hc. congruence.
Qed.


(** ** The driver: which stages run *)

#[local] Instance Stage_eq_dec : EqDecision Stage.
Proof. solve_decision. Defined.

(** How often a stage occurs in a log. *)
Definition occurrences (e : Stage) (log : list Stage) : nat :=
  length (filter (fun x => x = e) log).

Lemma occurrences_app (e : Stage) (l1 l2 : list Stage) :
  occurrences e (l1 ++ l2) = (occurrences e l1 + occurrences e l2)%nat.
Proof. unfold occurrences. by rewrite filter_app, length_app. Qed.

Lemma mLog_ran ev m d i k : mLog (ran ev m d i k) = mLog m ++ [ev].
Proof. reflexivity. Qed.

Lemma mSignSweeps_ran ev m d i k : mSignSweeps (ran ev m d i k) = mSignSweeps m.
Proof. reflexivity. Qed.

Lemma signSweepLoop_spec (fuel : nat) (m : MeshToVolume) :
  mLog (signSweepLoop fuel m)
  = mLog m ++ concat (replicate (Z.to_nat (mSignSweeps m))
                                [StContourTrace; StPropagateSign])
  /\ mSignSweeps (signSweepLoop fuel m) = mSignSweeps m.
Proof.
  unfold signSweepLoop.
  generalize (ContourTracer_new (mDistGrid m)) as trace.
  generalize (Z.to_nat (mSignSweeps m)) as n. intros n trace.
  generalize 0%nat as start.
  assert (G : forall (k start : nat) (acc : MeshToVolume),
    mLog (fold_left (fun a (_ : nat) => signSweep fuel trace a) (seq start k) acc)
    = mLog acc ++ concat (replicate k [StContourTrace; StPropagateSign])
    /\ mSignSweeps (fold_left (fun a (_ : nat) => signSweep fuel trace a)
                              (seq start k) acc) = mSignSweeps acc).
  { induction k as [|k IH]; intros start acc; simpl.
    - by rewrite app_nil_r.
    - destruct (IH (S start) (signSweep fuel trace acc)) as [-> ->].
      unfold signSweep. rewrite !mLog_ran, !mSignSweeps_ran.
      split; [|done]. by rewrite <- !app_assoc. }
  intros start. apply G.
Qed.

Lemma expandLoop_S (fuel : nat) (ex inb vs : Q) (d : Tree.t Q)
  (i : Tree.t Z) (k : Tree.t bool) (log : list Stage) :
  expandLoop (S fuel) ex inb vs d i k log
  = if (0 <? Tree.activeVoxelCount k)%nat then
      let r := ExpandNB_call ex inb vs d i (dilateVoxels k) in
      expandLoop fuel ex inb vs r.1.1 r.1.2 (pruneInactive bool r.2)
                 (log ++ [StDilate; StExpandNB])
    else (d, i, log).
Proof.
  simpl. destruct (0 <? Tree.activeVoxelCount k)%nat; [|done].
  by destruct (ExpandNB_call ex inb vs d i (dilateVoxels k)) as [[d' i'] k'].
Qed.

Lemma expandLoop_log (fuel : nat) (ex inb vs : Q) (d : Tree.t Q)
  (i : Tree.t Z) (k : Tree.t bool) (log : list Stage) (e : Stage) :
  e <> StDilate -> e <> StExpandNB ->
  occurrences e (expandLoop fuel ex inb vs d i k log).2 = occurrences e log.
Proof.
  intros H1 H2. revert d i k log.
  induction fuel as [|fuel IH]; intros d i k log; [done|].
  rewrite expandLoop_S.
  destruct (0 <? Tree.activeVoxelCount k)%nat; [|done].
  cbv zeta. rewrite IH, occurrences_app.
  assert (occurrences e [StDilate; StExpandNB] = 0%nat) as ->
    by (destruct e; done).
  lia.
Qed.

Lemma dilationStage_log (fuel : nat) (ex inb : Q) (m : MeshToVolume) (e : Stage) :
  e <> StDilate -> e <> StExpandNB -> e <> StMaskInit -> e <> StPreallocLeafs ->
  occurrences e (mLog (dilationStage fuel ex inb m)) = occurrences e (mLog m).
Proof.
  intros H1 H2 H3 H4. unfold dilationStage.
  destruct (Qltb (mTransform_voxelSize m * 2) inb
            || Qltb (mTransform_voxelSize m * 2) ex); [|done].
  match goal with
  | |- context [expandLoop ?f ?a ?b ?c ?d ?i ?k ?l] =>
      pose proof (expandLoop_log f a b c d i k l e H1 H2) as HL;
      destruct (expandLoop f a b c d i k l) as [[d2 i2] l2]
  end.
  change (occurrences e l2 = occurrences e (mLog m)).
  change (snd (d2, i2, l2)) with l2 in HL.
  rewrite HL, !mLog_ran, !occurrences_app.
  assert (occurrences e [StMaskInit] = 0%nat) as -> by (destruct e; done).
  assert (occurrences e [StPreallocLeafs] = 0%nat) as -> by (destruct e; done).
  lia.
Qed.

Lemma occurrences_sweeps (n : nat) :
  occurrences StContourTrace
    (concat (replicate n [StContourTrace; StPropagateSign])) = n.
Proof.
  induction n as [|n IH]; [done|].
  cbn [replicate concat]. rewrite occurrences_app, IH. done.
Qed.

(** C1. The constructor stores [min(signSweeps, 1)], and the driver runs
    that many alternations of contour tracing and sign propagation: at
    most one, whatever count above 1 the caller gives, and none for a
    count below 1. *)
Theorem C1_sign_sweeps_capped (fuel : nat) (voxelSize : Q)
  (conversionFlags signSweeps : Z) (exBandWidth inBandWidth : Q) :
  let m := MeshToVolume_new voxelSize conversionFlags signSweeps in
  mSignSweeps m = Z.min signSweeps 1
  /\ mLog (signSweepLoop fuel m)
     = concat (replicate (Z.to_nat (Z.min signSweeps 1))
                         [StContourTrace; StPropagateSign])
  /\ occurrences StContourTrace
       (mLog (doConvert fuel exBandWidth inBandWidth false m))
     = Z.to_nat (Z.min signSweeps 1).
Proof.
  intros m. split; [done|]. split.
  { destruct (signSweepLoop_spec fuel m) as [-> _]. done. }
  unfold doConvert. simpl negb. cbv iota.
  set (m1 := voxelizeStage fuel m).
  assert (Hs : mSignSweeps m1 = Z.min signSweeps 1) by done.
  assert (Hl : mLog m1 = [StVoxelize]) by done.
  destruct (signSweepLoop_spec fuel m1) as [Hlog Hsw].
  set (m2 := cleanStage (signSweepLoop fuel m1)).
  assert (H2 : occurrences StContourTrace (mLog m2)
               = Z.to_nat (Z.min signSweeps 1)).
  { subst m2. unfold cleanStage. rewrite !mLog_ran, Hlog, Hl, Hs.
    rewrite !occurrences_app, occurrences_sweeps.
    change (occurrences StContourTrace [StVoxelize]) with 0%nat.
    change (occurrences StContourTrace [StIntersectingVoxelSign]) with 0%nat.
    change (occurrences StContourTrace [StIntersectingVoxelCleaner]) with 0%nat.
    change (occurrences StContourTrace [StShellVoxelCleaner]) with 0%nat.
    lia. }
  destruct (Tree.activeVoxelCount (mDistGrid m2) =? 0)%nat; [done|].
  cbv zeta. rewrite mLog_ran, occurrences_app.
  unfold trimStage, doConvert_upToTrim. cbv zeta.
  match goal with
  | |- context [if ?b then ran StTrim ?a ?d ?i ?k else ?a'] =>
      assert (Ht : occurrences StContourTrace
                     (mLog (if b then ran StTrim a d i k else a'))
                   = occurrences StContourTrace (mLog a'))
        by (destruct b; [rewrite mLog_ran, occurrences_app; unfold occurrences; simpl; lia|done]);
      rewrite Ht; clear Ht
  end.
  match goal with
  | |- context [if ?b then ran StClearIndex ?a ?d ?i ?k else ?a'] =>
      assert (Ht : occurrences StContourTrace
                     (mLog (if b then ran StClearIndex a d i k else a'))
                   = occurrences StContourTrace (mLog a'))
        by (destruct b; [rewrite mLog_ran, occurrences_app; unfold occurrences; simpl; lia|done]);
      rewrite Ht; clear Ht
  end.
  rewrite dilationStage_log by done.
  simpl negb. cbv iota. unfold signedPostStage. cbv zeta.
  rewrite !mLog_ran, !occurrences_app, H2.
  unfold occurrences. simpl. lia.
Qed.


Lemma expandLoop_log_extends (fuel : nat) (ex inb vs : Q) (d : Tree.t Q)
  (i : Tree.t Z) (k : Tree.t bool) (log : list Stage) :
  exists rest, (expandLoop fuel ex inb vs d i k log).2 = log ++ rest.
Proof.
  revert d i k log.
  induction fuel as [|fuel IH]; intros d i k log.
  { exists []. simpl. by rewrite app_nil_r. }
  rewrite expandLoop_S.
  destruct (0 <? Tree.activeVoxelCount k)%nat.
  - cbv zeta.
    match goal with
    | |- context [expandLoop fuel ex inb vs ?d' ?i' ?k' ?l] =>
        destruct (IH d' i' k' l) as [rest Hrest]
    end.
    exists ([StDilate; StExpandNB] ++ rest).
    rewrite (app_assoc log [StDilate; StExpandNB] rest). exact Hrest.
  - exists []. simpl. by rewrite app_nil_r.
Qed.

(** C9. The narrow-band expansion block of [doConvert] (mask
    construction, leaf preallocation, dilate-and-expand loop) runs
    exactly when the interior or the exterior band width is greater
    than twice the voxel size.  When both widths are at most twice the
    voxel size the converter, and with it the distance grid and its
    active set, is left as it was. *)
Theorem C9_dilation_guard (fuel : nat) (exBandWidth inBandWidth : Q)
  (m : MeshToVolume) :
  let minWidth := (mTransform_voxelSize m * 2)%Q in
  ((inBandWidth <= minWidth)%Q /\ (exBandWidth <= minWidth)%Q ->
     dilationStage fuel exBandWidth inBandWidth m = m)
  /\ ((minWidth < inBandWidth)%Q \/ (minWidth < exBandWidth)%Q ->
        exists rest,
          mLog (dilationStage fuel exBandWidth inBandWidth m)
          = mLog m ++ StMaskInit :: StPreallocLeafs :: rest)
  /\ (dilationStage fuel exBandWidth inBandWidth m <> m ->
        (minWidth < inBandWidth)%Q \/ (minWidth < exBandWidth)%Q).
Proof.
  intros minWidth. unfold dilationStage. fold minWidth.
  destruct (Qltb minWidth inBandWidth) eqn:Ein;
    destruct (Qltb minWidth exBandWidth) eqn:Eex; simpl orb; cbv iota.
  4: { split; [done|]. split; [|done].
       apply Qltb_ge in Ein, Eex.
       intros [H|H]; exfalso; eapply Qlt_not_le; eauto. }
  all: split;
    [ intros [Hi He]; exfalso;
      first [ apply Qltb_lt in Ein; apply (Qlt_not_le _ _ Ein Hi)
            | apply Qltb_lt in Eex; apply (Qlt_not_le _ _ Eex He) ] |].
  all: split;
    [ intros _
    | intros _; first [ left; by apply Qltb_lt | right; by apply Qltb_lt ] ].
  all: match goal with
       | |- context [expandLoop ?f ?a ?b ?c ?d ?i ?k ?l] =>
           destruct (expandLoop_log_extends f a b c d i k l) as [rest HL];
           destruct (expandLoop f a b c d i k l) as [[d2 i2] l2]
       end;
       change (snd (d2, i2, l2)) with l2 in HL;
       exists rest; cbn [mLog]; rewrite HL, !mLog_ran;
       by rewrite <- !app_assoc.
Qed.


(** ** Unsigned mode *)

(** With an interior width of zero the trim pass turns every voxel off:
    a negative value is not greater than [-0], and a non-negative value
    is not less than [0]. *)
Lemma trim_zero_inBandWidth_all_off (exBandWidth : Q) (tr : Tree.t Q) (c : Coord) :
  Tree.isValueOn (transformValueOn (TrimOp exBandWidth 0) tr) c = false.
Proof.
  rewrite <- voxel_on, voxel_trim.
  destruct (Tree.isValueOn tr c) eqn:Hon; [|by rewrite voxel_on].
  unfold trimmed, Tree.voxel. simpl.
  destruct (Qltb (Tree.getValue tr c) 0) eqn:E; simpl.
  - apply Qltb_lt in E.
    assert (Qltb (- 0) (Tree.getValue tr c) = false) as ->; [|done].
    apply Qltb_ge. lra.
  - done.
Qed.

Lemma activeVoxelCount_0 {A : Type} (tr : Tree.t A) (c : Coord) :
  Tree.activeVoxelCount tr = 0%nat -> Tree.isValueOn tr c = false.
Proof.
  unfold Tree.activeVoxelCount. intros H.
  destruct (Tree.isValueOn tr c) eqn:E; [|done].
  apply elem_of_activeVoxels in E.
  destruct (Tree.activeVoxels tr); [by apply elem_of_nil in E|done].
Qed.

(** Modelled from the spec: the level-set prune quantizes to the
    background outside the band; it turns no voxel on and keeps the
    value of every active voxel. *)
Hypothesis pruneLevelSet_active : forall (tr : Tree.t Q) (c : Coord),
  Tree.isValueOn (pruneLevelSet tr) c = true ->
  Tree.voxel (pruneLevelSet tr) c = Tree.voxel tr c.

(** In unsigned mode, with a positive voxel size, the trim pass runs
    with an interior width of zero, so the returned distance grid has
    no active voxel at all. *)
Lemma unsigned_result_all_off (fuel : nat) (exBandWidth : Q)
  (m : MeshToVolume) (c : Coord) :
  (0 < mTransform_voxelSize m)%Q ->
  Tree.isValueOn
    (mDistGrid (convertToUnsignedDistanceField fuel exBandWidth m)) c = false.
Proof using pruneLevelSet_active.
  intros Hvs. unfold convertToUnsignedDistanceField, doConvert.
  simpl negb. cbv iota.
  set (m1 := voxelizeStage fuel m).
  destruct (Tree.activeVoxelCount (mDistGrid m1) =? 0)%nat eqn:E.
  { apply Nat.eqb_eq in E. by apply activeVoxelCount_0. }
  cbv zeta.
  match goal with
  | |- context [trimStage ?e ?inb ?m6] => set (mm := m6); set (ex := e)
  end.
  assert (Hvs6 : mTransform_voxelSize mm = mTransform_voxelSize m).
  { subst mm. unfold doConvert_upToTrim, dilationStage.
    repeat match goal with
           | |- context [if ?b then _ else _] => destruct b
           | |- context [expandLoop ?f ?a ?b ?c ?d ?i ?k ?l] =>
               destruct (expandLoop f a b c d i k l) as [[d2 i2] l2]
           end; reflexivity. }
  unfold trimStage. rewrite Hvs6.
  assert (Qltb 0 (mTransform_voxelSize m * 3) = true) as ->.
  { apply Qltb_lt. lra. }
  simpl orb. cbv iota. cbn [mDistGrid ran].
  match goal with
  | |- Tree.isValueOn ?t c = false => destruct (Tree.isValueOn t c) eqn:Hon
  end; [|done].
  apply pruneLevelSet_active in Hon as Hv.
  apply (f_equal snd) in Hv. rewrite !voxel_on, Hon in Hv.
  by rewrite trim_zero_inBandWidth_all_off in Hv.
Qed.

(** C8. After [convertToUnsignedDistanceField], with a positive voxel
    size, every voxel of the distance grid is inactive or holds a value
    that is not negative: no active voxel holds a negative value. *)
Theorem C8_unsigned_nonnegative (fuel : nat) (exBandWidth : Q)
  (m : MeshToVolume) (c : Coord) :
  (0 < mTransform_voxelSize m)%Q ->
  let m' := convertToUnsignedDistanceField fuel exBandWidth m in
  Tree.isValueOn (mDistGrid m') c = false
  \/ (0 <= Tree.getValue (mDistGrid m') c)%Q.
Proof using pruneLevelSet_active.
  intros Hvs m'. left. by apply unsigned_result_all_off.
Qed.


(** ** The voxelizer *)

Lemma std_max_lt (a b c : Q) :
  (std_max a b < c)%Q <-> (a < c)%Q /\ (b < c)%Q.
Proof.
  unfold std_max.
  destruct (Qltb a b) eqn:E.
  - apply Qltb_lt in E. split; [intros H; split; lra | by intros [_ H]].
  - apply Qltb_ge in E. split; [intros H; split; lra | by intros [H _]].
Qed.

(** C4. [shortEdge] answers true exactly when the three axis-wise
    extents of the edge from v0 to v1 and the three axis-wise extents of
    the edge between v0 and v2 are all below 200; the edge between v1
    and v2 does not enter the test.  A primitive whose first three
    vertices pass the test is voxelized by the short-edge branch, every
    other primitive by the long-edge flood fill. *)
Theorem C4_shortEdge (fuel n : nat) (vz : MeshVoxelizer) (v0 v1 v2 : Vec3d) :
  let below (a b c : Vec3d) :=
    ((Qabs (at3 b 0 - at3 a 0) < 200)%Q
     /\ (Qabs (at3 b 1 - at3 a 1) < 200)%Q
     /\ (Qabs (at3 b 2 - at3 a 2) < 200)%Q)
    /\ ((Qabs (at3 a 0 - at3 c 0) < 200)%Q
        /\ (Qabs (at3 a 1 - at3 c 1) < 200)%Q
        /\ (Qabs (at3 a 2 - at3 c 2) < 200)%Q) in
  (shortEdge v0 v1 v2 = true <-> below v0 v1 v2)
  /\ (let verts := polygon (Z.of_nat n) in
      let p0 := point (at4 verts 0) in
      let p1 := point (at4 verts 1) in
      let p2 := point (at4 verts 2) in
      (below p0 p1 p2 ->
       voxelizePrimitive fuel n vz = shortEdgeFill fuel n vz)
      /\ (~ below p0 p1 p2 ->
          voxelizePrimitive fuel n vz = longEdgeFill fuel n vz)).
Proof.
  intros below.
  assert (H : forall a b c, shortEdge a b c = true <-> below a b c).
  { intros a b c. unfold shortEdge, below. rewrite Qltb_lt, !std_max_lt.
    split.
    - intros [[[[[? ?] ?] ?] ?] ?]. repeat split; assumption.
    - intros [[? [? ?]] [? [? ?]]]. repeat split; assumption. }
  split; [apply H|]. cbv zeta. unfold voxelizePrimitive. cbv zeta.
  match goal with
  | |- context [shortEdge ?a ?b ?c] =>
      pose proof (H a b c) as Hs; destruct (shortEdge a b c)
  end.
  - split; [done|]. intros Hn. exfalso. apply Hn. by apply Hs.
  - split; [|done]. intros Hb. apply Hs in Hb. discriminate.
Qed.

(** C2. [evalVoxel] computes the squared distance [d] from the voxel
    centre to the triangle (v0,v1,v2), for a quad the smaller of this
    and the distance to (v0,v3,v2).  When [d] is below the magnitude of
    the stored squared distance it stores [-d] and the primitive index
    and activates both voxels; otherwise it leaves the voxelizer as it
    is.  No other voxel and no other tree changes.  It returns true
    exactly when [d < 0.86602540378443861]. *)
Theorem C2_evalVoxel (vz : MeshVoxelizer) (ijk : Coord) (polyIdx : Z) :
  let verts := polygon polyIdx in
  let x := Vec3d_of_Coord ijk in
  let d1 := triToPtnDistSqr (point (at4 verts 0)) (point (at4 verts 1))
                            (point (at4 verts 2)) x in
  let d2 := triToPtnDistSqr (point (at4 verts 0)) (point (at4 verts 3))
                            (point (at4 verts 2)) x in
  let d := evalVoxel_dist ijk polyIdx in
  let r := evalVoxel vz ijk polyIdx in
  (at4 verts 3 = INVALID_IDX -> d = d1)
  /\ (at4 verts 3 <> INVALID_IDX ->
        (d <= d1)%Q /\ (d <= d2)%Q /\ (d = d1 \/ d = d2))
  /\ ((d < Qabs (Tree.getValue (mSqrDistTree vz) ijk))%Q ->
        Tree.voxel (mSqrDistTree r.2) ijk = ((- d)%Q, true)
        /\ Tree.voxel (mPrimIndexTree r.2) ijk = (polyIdx, true))
  /\ (~ (d < Qabs (Tree.getValue (mSqrDistTree vz) ijk))%Q -> r.2 = vz)
  /\ (forall c, c <> ijk ->
        Tree.voxel (mSqrDistTree r.2) c = Tree.voxel (mSqrDistTree vz) c
        /\ Tree.voxel (mPrimIndexTree r.2) c
           = Tree.voxel (mPrimIndexTree vz) c)
  /\ mIntersectionTree r.2 = mIntersectionTree vz
  /\ mLastPrimTree r.2 = mLastPrimTree vz
  /\ (r.1 = true <-> (d < HALF_DIAG)%Q).
Proof.
  intros verts x d1 d2 d r.
  split; [|split; [|split; [|split; [|split; [|split; [|split]]]]]].
  - intros H. subst d. unfold evalVoxel_dist. fold verts. rewrite H. done.
  - intros H. subst d. unfold evalVoxel_dist. fold verts x d1 d2.
    assert ((INVALID_IDX =? at4 verts 3) = false) as ->.
    { apply Z.eqb_neq. congruence. }
    simpl negb. cbv iota.
    destruct (Qltb d2 d1) eqn:E.
    + apply Qltb_lt in E. repeat split; [lra|lra|by right].
    + apply Qltb_ge in E. repeat split; [lra|lra|by left].
  - intros H. apply Qltb_lt in H. subst r. unfold evalVoxel. fold d.
    rewrite H. simpl. rewrite !voxel_setValue. by rewrite !decide_True.
  - intros H. subst r. unfold evalVoxel. fold d.
    destruct (Qltb d (Qabs (Tree.getValue (mSqrDistTree vz) ijk))) eqn:E;
      [|done].
    apply Qltb_lt in E. done.
  - intros c Hc. subst r. unfold evalVoxel. fold d.
    destruct (Qltb d (Qabs (Tree.getValue (mSqrDistTree vz) ijk))); [|done].
    simpl. rewrite !voxel_setValue. by rewrite !decide_False.
  - subst r. unfold evalVoxel.
    by destruct (Qltb _ (Qabs (Tree.getValue (mSqrDistTree vz) ijk))).
  - subst r. unfold evalVoxel.
    by destruct (Qltb _ (Qabs (Tree.getValue (mSqrDistTree vz) ijk))).
  - subst r. unfold evalVoxel. simpl. apply Qltb_lt.
Qed.

(** ** The shell voxel cleaner *)

(** What is observed of a voxel in a pair of trees. *)
Definition voxel2 {A B : Type} (st : Tree.t A * Tree.t B) (c : Coord)
  : (A * bool) * (B * bool) :=
  (Tree.voxel st.1 c, Tree.voxel st.2 c).

(** What [ShellVoxelCleaner] makes of the voxel it visits. *)
Definition shellCleaned (mask : Tree.t bool) (distBG : Q) (indexBG : Z)
  (c : Coord) (o : (Q * bool) * (Z * bool)) : (Q * bool) * (Z * bool) :=
  if Qltb 0 o.1.1 then o
  else if Tree.isValueOn mask c then o
  else if negb (existsb (fun m => Tree.isValueOn mask (neighbour c m)) (seq 0 18))
       then ((distBG, false), (indexBG, false))
       else (if Qltb (- HALF_DIAG) o.1.1 then ((- HALF_DIAG)%Q, true) else o.1,
             o.2).

Lemma voxel2_ShellVoxelCleaner_voxel (mask : Tree.t bool) (distBG : Q)
  (indexBG : Z) (st : Tree.t Q * Tree.t Z) (c c' : Coord) :
  voxel2 (ShellVoxelCleaner_voxel mask distBG indexBG st c) c'
  = if decide (c' = c) then shellCleaned mask distBG indexBG c (voxel2 st c)
    else voxel2 st c'.
Proof.
  unfold ShellVoxelCleaner_voxel, shellCleaned, voxel2, Tree.voxel. cbn [fst snd].
  destruct (Qltb 0 (Tree.getValue st.1 c)).
  { case_decide; by subst. }
  destruct (Tree.isValueOn mask c).
  { case_decide; by subst. }
  match goal with
  | |- context [negb (existsb ?f ?l)] => destruct (negb (existsb f l)); cbn [fst snd]
  end.
  { fold (Tree.voxel (Tree.setValueOff DIM st.1 c distBG) c').
    fold (Tree.voxel (Tree.setValueOff DIM st.2 c indexBG) c').
    rewrite !voxel_setValueOff. by case_decide. }
  destruct (Qltb (- HALF_DIAG) (Tree.getValue st.1 c)).
  - fold (Tree.voxel (Tree.setValue DIM st.1 c (- HALF_DIAG)%Q) c').
    rewrite voxel_setValue. case_decide; by subst.
  - case_decide; by subst.
Qed.

Lemma voxel2_ShellVoxelCleaner_call (dist : Tree.t Q) (index : Tree.t Z)
  (mask : Tree.t bool) (c : Coord) :
  voxel2 (ShellVoxelCleaner_call dist index mask) c
  = if Tree.isValueOn dist c
    then shellCleaned mask (Tree.background dist)
           (if Tree.background mask then 1 else 0) c (voxel2 (dist, index) c)
    else voxel2 (dist, index) c.
Proof.
  unfold ShellVoxelCleaner_call.
  rewrite (fold_left_local voxel2 _
             (shellCleaned mask (Tree.background dist)
                (if Tree.background mask then 1 else 0))
             _ (NoDup_activeVoxels dist)).
  - destruct (decide (c ∈ Tree.activeVoxels dist)) as [Hin|Hin].
    + apply elem_of_activeVoxels in Hin. by rewrite Hin.
    + destruct (Tree.isValueOn dist c) eqn:E; [|done].
      exfalso. apply Hin. by apply elem_of_activeVoxels.
  - intros s a a' Hne. rewrite voxel2_ShellVoxelCleaner_voxel.
    by rewrite decide_False.
  - intros s a. rewrite voxel2_ShellVoxelCleaner_voxel.
    by rewrite decide_True.
Qed.

Lemma existsb_seq_false (f : nat -> bool) (n : nat) :
  existsb f (seq 0 n) = false <-> forall m, (m < n)%nat -> f m = false.
Proof.
  split.
  - intros H m Hm. destruct (f m) eqn:E; [|done].
    assert (existsb f (seq 0 n) = true); [|congruence].
    apply existsb_exists. exists m. split; [|done]. apply in_seq. lia.
  - intros H. destruct (existsb f (seq 0 n)) eqn:E; [|done].
    apply existsb_exists in E as [m [Hin Hm]]. apply in_seq in Hin.
    rewrite H in Hm; [done|lia].
Qed.

Lemma existsb_seq_true (f : nat -> bool) (n : nat) :
  existsb f (seq 0 n) = true <-> exists m, (m < n)%nat /\ f m = true.
Proof.
  rewrite existsb_exists. split.
  - intros [m [Hin Hm]]. apply in_seq in Hin. exists m. split; [lia|done].
  - intros [m [Hlt Hm]]. exists m. split; [|done]. apply in_seq. lia.
Qed.

(** C3 (amended). In the shell-voxel cleaner pass, for an active
    non-shell voxel [c] with a value [<= 0]: when none of its 18
    neighbours is a shell voxel, [c] is turned off in the distance tree
    and in the index tree; otherwise [c] stays active, its index is
    kept, and its value becomes the smaller of its previous value and
    [-0.86602540378443861]. *)
Theorem C3_shell_cleaner_min (dist : Tree.t Q) (index : Tree.t Z)
  (mask : Tree.t bool) (c : Coord) :
  Tree.isValueOn dist c = true ->
  Tree.isValueOn mask c = false ->
  (Tree.getValue dist c <= 0)%Q ->
  let r := ShellVoxelCleaner_call dist index mask in
  ((forall m, (m < 18)%nat -> Tree.isValueOn mask (neighbour c m) = false) ->
     Tree.isValueOn r.1 c = false /\ Tree.isValueOn r.2 c = false)
  /\ ((exists m, (m < 18)%nat /\ Tree.isValueOn mask (neighbour c m) = true) ->
        Tree.isValueOn r.1 c = true
        /\ (Tree.getValue r.1 c == Qmin (Tree.getValue dist c) (- HALF_DIAG))%Q
        /\ Tree.voxel r.2 c = Tree.voxel index c).
Proof.
  intros Hon Hmask Hle r.
  pose proof (voxel2_ShellVoxelCleaner_call dist index mask c) as H.
  fold r in H. rewrite Hon in H.
  unfold shellCleaned, voxel2, Tree.voxel in H. cbn [fst snd] in H.
  apply Qltb_ge in Hle. rewrite Hle, Hmask in H.
  split.
  - intros Hnone. apply existsb_seq_false in Hnone. rewrite Hnone in H.
    cbn [negb] in H. injection H as H1 H2 H3 H4. by split.
  - intros Hsome. apply existsb_seq_true in Hsome. rewrite Hsome in H.
    cbn [negb] in H.
    destruct (Qltb (- HALF_DIAG) (Tree.getValue dist c)) eqn:E;
      injection H as H1 H2 H3 H4.
    + split; [done|]. split; [|unfold Tree.voxel; congruence].
      rewrite H1. apply Qltb_lt in E. symmetry. apply Q.min_r. lra.
    + split; [congruence|]. split; [|unfold Tree.voxel; congruence].
      rewrite H1. apply Qltb_ge in E. symmetry. apply Q.min_l. lra.
Qed.

(** ** The merge of two partial voxelizer results *)

(** What is observed of a voxel in a voxelizer: its entries in the
    squared-distance tree and in the primitive-index tree. *)
Definition vobs (vz : MeshVoxelizer) (c : Coord) : (Q * bool) * (Z * bool) :=
  voxel2 (mSqrDistTree vz, mPrimIndexTree vz) c.

(** What [join] makes of a voxel of the left side, given the entry [r]
    of the right side (which is active there). *)
Definition joined (r l : (Q * bool) * (Z * bool)) : (Q * bool) * (Z * bool) :=
  if Qltb (- r.1.1) (Qabs l.1.1) then ((r.1.1, true), (r.2.1, true)) else l.

(** A partial result of the voxelizer: an active voxel holds the
    negative of a squared distance below the background, an inactive
    voxel reads as the background, and the index tree has the same
    active voxels. *)
Definition goodVoxel (o : (Q * bool) * (Z * bool)) : Prop :=
  (o.1.2 = true -> (- DBL_MAX < o.1.1)%Q /\ (o.1.1 <= 0)%Q)
  /\ (o.1.2 = false -> (o.1.1 == DBL_MAX)%Q)
  /\ o.2.2 = o.1.2.

Definition partialResult (vz : MeshVoxelizer) : Prop :=
  forall c, goodVoxel (vobs vz c).

(** Two voxels tie when both are active with the same distance. *)
Definition tie (l r : (Q * bool) * (Z * bool)) : Prop :=
  l.1.2 = true /\ r.1.2 = true /\ (l.1.1 == r.1.1)%Q.

Lemma DBL_MAX_pos : (0 < DBL_MAX)%Q.
Proof. reflexivity. Qed.

Lemma vobs_join_voxel (rhs lhs : MeshVoxelizer) (c c' : Coord) :
  vobs (join_voxel rhs lhs c) c'
  = if decide (c' = c) then joined (vobs rhs c) (vobs lhs c)
    else vobs lhs c'.
Proof.
  unfold join_voxel, joined, vobs, voxel2, Tree.voxel. cbn [fst snd].
  destruct (Qltb (- Tree.getValue (mSqrDistTree rhs) c)
                 (Qabs (Tree.getValue (mSqrDistTree lhs) c))).
  - cbn [mSqrDistTree mPrimIndexTree].
    fold (Tree.voxel (Tree.setValue DIM (mSqrDistTree lhs) c
                        (Tree.getValue (mSqrDistTree rhs) c)) c').
    fold (Tree.voxel (Tree.setValue DIM (mPrimIndexTree lhs) c
                        (Tree.getValue (mPrimIndexTree rhs) c)) c').
    rewrite !voxel_setValue. by case_decide.
  - case_decide; by subst.
Qed.

Lemma vobs_join (lhs rhs : MeshVoxelizer) (c : Coord) :
  vobs (join lhs rhs) c
  = if Tree.isValueOn (mSqrDistTree rhs) c
    then joined (vobs rhs c) (vobs lhs c) else vobs lhs c.
Proof.
  unfold join.
  change (vobs (mkVoxelizer ?d ?i ?k ?l) c) with (voxel2 (d, i) c).
  match goal with
  | |- context [fold_left ?f ?l ?s] =>
      change (voxel2 (mSqrDistTree (fold_left f l s),
                      mPrimIndexTree (fold_left f l s)) c)
        with (vobs (fold_left f l s) c)
  end.
  rewrite (fold_left_local vobs _ (fun a => joined (vobs rhs a))
             _ (NoDup_activeVoxels (mSqrDistTree rhs))).
  - destruct (decide (c ∈ Tree.activeVoxels (mSqrDistTree rhs))) as [Hin|Hin].
    + apply elem_of_activeVoxels in Hin. by rewrite Hin.
    + destruct (Tree.isValueOn (mSqrDistTree rhs) c) eqn:E; [|done].
      exfalso. apply Hin. by apply elem_of_activeVoxels.
  - intros s a a' Hne. rewrite vobs_join_voxel. by rewrite decide_False.
  - intros s a. rewrite vobs_join_voxel. by rewrite decide_True.
Qed.

Lemma isValueOn_merge {A : Type} (lhs rhs : Tree.t A) (c : Coord) :
  Tree.isValueOn (Tree.merge lhs rhs) c
  = Tree.isValueOn lhs c || Tree.isValueOn rhs c.
Proof.
  unfold Tree.isValueOn, Tree.merge. cbn [Tree.voxels].
  rewrite lookup_union_with.
  destruct (Tree.voxels lhs !! c) as [[v1 [|]]|];
    destruct (Tree.voxels rhs !! c) as [[v2 [|]]|]; done.
Qed.

(** The magnitude that [join] compares against, for a good voxel. *)
Definition key (o : (Q * bool) * (Z * bool)) : Q :=
  if o.1.2 then (- o.1.1)%Q else DBL_MAX.

Lemma Qabs_good (o : (Q * bool) * (Z * bool)) :
  goodVoxel o -> (Qabs o.1.1 == key o)%Q.
Proof.
  intros [Hon [Hoff _]]. unfold key. destruct o.1.2.
  - destruct (Hon eq_refl) as [_ H]. by apply Qabs_neg.
  - rewrite (Hoff eq_refl). apply Qabs_pos. apply Qlt_le_weak, DBL_MAX_pos.
Qed.

Lemma joined_cases (r l : (Q * bool) * (Z * bool)) :
  goodVoxel l ->
  (joined r l = ((r.1.1, true), (r.2.1, true)) /\ (- r.1.1 < key l)%Q)
  \/ (joined r l = l /\ (key l <= - r.1.1)%Q).
Proof.
  intros Hl. unfold joined.
  destruct (Qltb (- r.1.1) (Qabs l.1.1)) eqn:E.
  - left. split; [done|]. apply Qltb_lt in E. by rewrite <- (Qabs_good l).
  - right. split; [done|]. apply Qltb_ge in E. by rewrite <- (Qabs_good l).
Qed.

Lemma goodVoxel_on (o : (Q * bool) * (Z * bool)) :
  goodVoxel o -> o.1.2 = true ->
  o = ((o.1.1, true), (o.2.1, true))
  /\ (0 <= key o)%Q /\ (key o < DBL_MAX)%Q /\ key o = (- o.1.1)%Q.
Proof.
  intros [Hon [_ Hi]] H. destruct (Hon H) as [H1 H2].
  destruct o as [[v on] [i ion]]. cbn [fst snd] in *. subst.
  unfold key. cbn [fst snd]. repeat split; lra.
Qed.

Lemma goodVoxel_off (o : (Q * bool) * (Z * bool)) :
  goodVoxel o -> o.1.2 = false -> key o = DBL_MAX.
Proof. intros _ H. unfold key. by rewrite H. Qed.

Lemma goodVoxel_joined (r l : (Q * bool) * (Z * bool)) :
  goodVoxel r -> goodVoxel l -> r.1.2 = true -> goodVoxel (joined r l).
Proof.
  intros Hr Hl Hon. destruct (joined_cases r l Hl) as [[-> _]|[-> _]]; [|done].
  destruct (goodVoxel_on r Hr Hon) as [E _]. by rewrite <- E.
Qed.

Lemma partialResult_join (lhs rhs : MeshVoxelizer) :
  partialResult lhs -> partialResult rhs -> partialResult (join lhs rhs).
Proof.
  intros Hl Hr c. rewrite vobs_join.
  destruct (Tree.isValueOn (mSqrDistTree rhs) c) eqn:E; [|apply Hl].
  apply goodVoxel_joined; [apply Hr|apply Hl|done].
Qed.

Lemma isValueOn_join_mask (lhs rhs : MeshVoxelizer) (c : Coord) :
  Tree.isValueOn (mIntersectionTree (join lhs rhs)) c
  = Tree.isValueOn (mIntersectionTree lhs) c
    || Tree.isValueOn (mIntersectionTree rhs) c.
Proof.
  unfold join. cbn [mIntersectionTree]. rewrite isValueOn_merge. f_equal.
  generalize (Tree.activeVoxels (mSqrDistTree rhs)) as l.
  intros l. revert lhs. induction l as [|x l IH]; intros lhs; [done|].
  cbn [fold_left]. rewrite IH. unfold join_voxel.
  by destruct (Qltb _ _).
Qed.

Lemma join_comm_voxel (l r : (Q * bool) * (Z * bool)) :
  goodVoxel l -> goodVoxel r ->
  let o1 := if r.1.2 then joined r l else l in
  let o2 := if l.1.2 then joined l r else r in
  o1.1.2 = o2.1.2
  /\ (o1.1.1 == o2.1.1)%Q
  /\ o1.2.2 = o2.2.2
  /\ (~ tie l r -> o1.1.2 = true -> o1 = o2)
  /\ (tie l r -> o1 = l).
Proof.
  intros Hl Hr.
  destruct (r.1.2) eqn:Er; destruct (l.1.2) eqn:El; cbv zeta.
  - destruct (goodVoxel_on l Hl El) as [Eql [Hl0 [HlM Hkl]]].
    destruct (goodVoxel_on r Hr Er) as [Eqr [Hr0 [HrM Hkr]]].
    destruct (joined_cases r l Hl) as [[-> H1]|[-> H1]];
      destruct (joined_cases l r Hr) as [[-> H2]|[-> H2]];
      rewrite <- ?Eql, <- ?Eqr; rewrite Hkl, Hkr in *.
    + exfalso. lra.
    + split; [done|]. split; [reflexivity|]. split; [done|].
      split; [done|]. intros [_ [_ Ht]]. exfalso. lra.
    + destruct Hl as [_ [_ Hl]], Hr as [_ [_ Hr]].
      split; [congruence|]. split; [reflexivity|]. split; [congruence|].
      split; [done|]. done.
    + assert (Ht : (l.1.1 == r.1.1)%Q) by lra.
      destruct Hl as [_ [_ Hl]], Hr as [_ [_ Hr]].
      split; [congruence|]. split; [done|]. split; [congruence|].
      split; [|done]. intros Hn. exfalso. apply Hn. by repeat split.
  - destruct (goodVoxel_on r Hr Er) as [Eqr [Hr0 [HrM Hkr]]].
    pose proof (goodVoxel_off l Hl El) as Hkl.
    destruct (joined_cases r l Hl) as [[-> H1]|[-> H1]];
      rewrite <- ?Eqr; rewrite Hkl, Hkr in *.
    + split; [done|]. split; [reflexivity|]. split; [done|].
      split; [done|]. intros [Ht _]. congruence.
    + exfalso. lra.
  - destruct (goodVoxel_on l Hl El) as [Eql [Hl0 [HlM Hkl]]].
    pose proof (goodVoxel_off r Hr Er) as Hkr.
    destruct (joined_cases l r Hr) as [[-> H1]|[-> H1]];
      rewrite <- ?Eql; rewrite Hkl, Hkr in *.
    + split; [done|]. split; [reflexivity|]. split; [done|].
      split; [done|]. done.
    + exfalso. lra.
  - destruct Hl as [_ [Hlv Hli]], Hr as [_ [Hrv Hri]].
    split; [congruence|]. split; [by rewrite (Hlv El), (Hrv Er)|].
    split; [congruence|]. split; [congruence|]. done.
Qed.

Lemma join_assoc_voxel (a b c : (Q * bool) * (Z * bool)) :
  goodVoxel a -> goodVoxel b -> goodVoxel c ->
  let ab := if b.1.2 then joined b a else a in
  let bc := if c.1.2 then joined c b else b in
  (if c.1.2 then joined c ab else ab)
  = (if bc.1.2 then joined bc a else a).
Proof.
  intros Ha Hb Hc.
  destruct (c.1.2) eqn:Ec; destruct (b.1.2) eqn:Eb; cbv zeta.
  - destruct (goodVoxel_on b Hb Eb) as [Eqb [Hb0 [HbM Hkb]]].
    destruct (goodVoxel_on c Hc Ec) as [Eqc [Hc0 [HcM Hkc]]].
    assert (Hab : goodVoxel (joined b a)) by by apply goodVoxel_joined.
    destruct (joined_cases c b Hb) as [[E2 H2]|[E2 H2]]; rewrite E2.
    + cbn [fst snd]. rewrite <- Eqc.
      destruct (joined_cases b a Ha) as [[E1 H1]|[E1 H1]]; rewrite E1.
      * rewrite <- Eqb. rewrite E2. rewrite <- Eqc.
        destruct (joined_cases c a Ha) as [[E3 H3]|[E3 H3]]; rewrite E3;
          [done|]. exfalso. rewrite ?Hkb, ?Hkc in *. lra.
      * done.
    + rewrite Eb.
      destruct (joined_cases b a Ha) as [[E1 H1]|[E1 H1]]; rewrite E1.
      * rewrite <- Eqb. by rewrite E2.
      * destruct (joined_cases c a Ha) as [[E3 H3]|[E3 H3]]; rewrite E3;
          [|done]. exfalso. rewrite ?Hkb, ?Hkc in *. lra.
  - destruct (goodVoxel_on c Hc Ec) as [Eqc [Hc0 [HcM Hkc]]].
    pose proof (goodVoxel_off b Hb Eb) as Hkb.
    destruct (joined_cases c b Hb) as [[E2 H2]|[E2 H2]]; rewrite E2.
    + cbn [fst snd]. by rewrite <- Eqc.
    + exfalso. rewrite ?Hkb, ?Hkc in *. lra.
  - by rewrite Eb.
  - by rewrite Eb.
Qed.

(** C5. [join] takes over the entry of the right side at a voxel that
    is active there exactly when the negated right value is below the
    magnitude of the left value, and leaves every other voxel of the
    left side as it is; the intersection masks are merged by union.
    On partial voxelizer results the merge is commutative up to voxels
    where both sides are active with the same distance, where the left
    (first) side is kept, and it is associative. *)
Theorem C5_join_merge_policy (lhs rhs a b d : MeshVoxelizer) (c : Coord) :
  let rv := Tree.getValue (mSqrDistTree rhs) c in
  let lv := Tree.getValue (mSqrDistTree lhs) c in
  (Tree.isValueOn (mSqrDistTree rhs) c = true ->
     ((- rv < Qabs lv)%Q ->
        vobs (join lhs rhs) c
        = ((rv, true), (Tree.getValue (mPrimIndexTree rhs) c, true)))
     /\ (~ (- rv < Qabs lv)%Q -> vobs (join lhs rhs) c = vobs lhs c))
  /\ (Tree.isValueOn (mSqrDistTree rhs) c = false ->
        vobs (join lhs rhs) c = vobs lhs c)
  /\ Tree.isValueOn (mIntersectionTree (join lhs rhs)) c
     = Tree.isValueOn (mIntersectionTree lhs) c
       || Tree.isValueOn (mIntersectionTree rhs) c
  /\ (partialResult lhs -> partialResult rhs ->
        let o1 := vobs (join lhs rhs) c in
        let o2 := vobs (join rhs lhs) c in
        o1.1.2 = o2.1.2
        /\ (o1.1.1 == o2.1.1)%Q
        /\ o1.2.2 = o2.2.2
        /\ Tree.isValueOn (mIntersectionTree (join lhs rhs)) c
           = Tree.isValueOn (mIntersectionTree (join rhs lhs)) c
        /\ (~ tie (vobs lhs c) (vobs rhs c) -> o1.1.2 = true -> o1 = o2)
        /\ (tie (vobs lhs c) (vobs rhs c) -> o1 = vobs lhs c))
  /\ (partialResult a -> partialResult b -> partialResult d ->
        vobs (join (join a b) d) c = vobs (join a (join b d)) c
        /\ Tree.isValueOn (mIntersectionTree (join (join a b) d)) c
           = Tree.isValueOn (mIntersectionTree (join a (join b d))) c).
Proof.
  intros rv lv. split; [|split; [|split; [|split]]].
  - intros Hon. rewrite vobs_join, Hon. unfold joined.
    change (vobs rhs c).1.1 with rv. change (vobs lhs c).1.1 with lv.
    split.
    + intros H. apply Qltb_lt in H. by rewrite H.
    + intros H. destruct (Qltb (- rv) (Qabs lv)) eqn:E; [|done].
      apply Qltb_lt in E. done.
  - intros Hoff. by rewrite vobs_join, Hoff.
  - apply isValueOn_join_mask.
  - intros Hl Hr o1 o2. subst o1 o2. rewrite !vobs_join.
    rewrite !isValueOn_join_mask.
    pose proof (join_comm_voxel (vobs lhs c) (vobs rhs c) (Hl c) (Hr c)) as H.
    cbv zeta in H.
    change (Tree.isValueOn (mSqrDistTree rhs) c) with (vobs rhs c).1.2.
    change (Tree.isValueOn (mSqrDistTree lhs) c) with (vobs lhs c).1.2.
    destruct H as [H1 [H2 [H3 [H4 H5]]]].
    split; [done|]. split; [done|]. split; [done|].
    split; [apply orb_comm|]. by split.
  - intros Ha Hb Hd. split.
    + rewrite !vobs_join.
      change (Tree.isValueOn (mSqrDistTree (join b d)) c)
        with (vobs (join b d) c).1.2.
      rewrite !vobs_join.
      change (Tree.isValueOn (mSqrDistTree d) c) with (vobs d c).1.2.
      change (Tree.isValueOn (mSqrDistTree b) c) with (vobs b c).1.2.
      apply (join_assoc_voxel (vobs a c) (vobs b c) (vobs d c));
        [apply Ha|apply Hb|apply Hd].
    + rewrite !isValueOn_join_mask. by rewrite orb_assoc.
Qed.

(** *** The voxelizer produces partial results *)

(** The contract of [math::triToPtnDistSqr]: a squared distance is not
    negative. *)
Definition distSqr_nonneg : Prop :=
  forall p0 p1 p2 x : Vec3d, (0 <= triToPtnDistSqr p0 p1 p2 x)%Q.

Lemma evalVoxel_dist_nonneg (ijk : Coord) (polyIdx : Z) :
  distSqr_nonneg -> (0 <= evalVoxel_dist ijk polyIdx)%Q.
Proof.
  intros H. unfold evalVoxel_dist.
  destruct (negb (INVALID_IDX =? at4 (polygon polyIdx) 3)); [|apply H].
  destruct (Qltb _ _); apply H.
Qed.

Lemma partialResult_new : partialResult MeshVoxelizer_new.
Proof.
  intros c. unfold vobs, voxel2, MeshVoxelizer_new. cbn [fst snd].
  cbn [mSqrDistTree mPrimIndexTree]. rewrite !voxel_create.
  repeat split; try done.
Qed.

Lemma partialResult_evalVoxel (vz : MeshVoxelizer) (ijk : Coord) (polyIdx : Z) :
  distSqr_nonneg -> partialResult vz ->
  partialResult (evalVoxel vz ijk polyIdx).2.
Proof.
  intros Hd Hvz c. unfold evalVoxel. cbn [snd].
  pose proof (evalVoxel_dist_nonneg ijk polyIdx Hd) as H0.
  destruct (Qltb (evalVoxel_dist ijk polyIdx)
                 (Qabs (Tree.getValue (mSqrDistTree vz) ijk))) eqn:E;
    [|apply Hvz].
  apply Qltb_lt in E.
  unfold vobs, voxel2. cbn [fst snd mSqrDistTree mPrimIndexTree].
  rewrite !voxel_setValue.
  destruct (decide (c = ijk)) as [->|Hne]; [|apply Hvz].
  pose proof (Qabs_good _ (Hvz ijk)) as Hk.
  change (vobs vz ijk).1.1 with (Tree.getValue (mSqrDistTree vz) ijk) in Hk.
  assert (key (vobs vz ijk) <= DBL_MAX)%Q.
  { unfold key. destruct (vobs vz ijk).1.2 eqn:Eon; [|lra].
    destruct (goodVoxel_on _ (Hvz ijk) Eon) as [_ [_ [Hlt Hk']]].
    unfold key in Hlt. rewrite Eon in Hlt. lra. }
  repeat split; cbn [fst snd]; try done; lra.
Qed.

Lemma partialResult_ext (vz vz' : MeshVoxelizer) :
  mSqrDistTree vz' = mSqrDistTree vz ->
  mPrimIndexTree vz' = mPrimIndexTree vz ->
  partialResult vz -> partialResult vz'.
Proof.
  intros H1 H2 H c. unfold vobs. rewrite H1, H2. apply H.
Qed.

Lemma partialResult_evalNeighbours (primIdx : Z) (ijk : Coord)
  (ns : list nat) (vz : MeshVoxelizer) :
  distSqr_nonneg -> partialResult vz ->
  partialResult (evalNeighbours primIdx ijk ns vz).2.
Proof.
  intros Hd. revert vz. induction ns as [|n ns IH]; intros vz Hvz; [done|].
  cbn [evalNeighbours].
  destruct (negb (primIdx =? Tree.getValue (mLastPrimTree vz) (neighbour ijk n)));
    [|by apply IH].
  match goal with
  | |- context [evalVoxel ?v ?c ?p] =>
      pose proof (partialResult_evalVoxel v c p Hd) as He;
      destruct (evalVoxel v c p) as [hit vz2]
  end.
  cbn [snd] in He.
  specialize (IH vz2).
  destruct (evalNeighbours primIdx ijk ns vz2) as [found vz3].
  cbn [snd] in *. apply IH, He.
  by eapply partialResult_ext; [| |exact Hvz].
Qed.

Lemma partialResult_shortEdgeFlood (fuel : nat) (primIdx : Z)
  (coordList : list Coord) (vz : MeshVoxelizer) :
  distSqr_nonneg -> partialResult vz ->
  partialResult (shortEdgeFlood fuel primIdx coordList vz).
Proof.
  intros Hd. revert coordList vz.
  induction fuel as [|fuel IH]; intros coordList vz Hvz; [done|].
  cbn [shortEdgeFlood]. destruct coordList as [|ijk rest]; [done|].
  pose proof (partialResult_evalNeighbours primIdx ijk (seq 0 26)
                (markIntersection vz ijk) Hd) as He.
  destruct (evalNeighbours primIdx ijk (seq 0 26) (markIntersection vz ijk))
    as [found vz2].
  apply IH, He. by eapply partialResult_ext; [| |exact Hvz].
Qed.

Lemma partialResult_longEdgeSweep (primIdx : Z) (todo : list Coord)
  (aux : Tree.t bool) (vz : MeshVoxelizer) :
  distSqr_nonneg -> partialResult vz ->
  partialResult (longEdgeSweep primIdx todo aux vz).2.
Proof.
  intros Hd. revert aux vz.
  induction todo as [|ijk todo IH]; intros aux vz Hvz; [done|].
  cbn [longEdgeSweep].
  pose proof (partialResult_evalNeighbours primIdx ijk (seq 0 26)
                (markIntersection vz ijk) Hd) as He.
  destruct (evalNeighbours primIdx ijk (seq 0 26) (markIntersection vz ijk))
    as [found vz2].
  apply IH, He. by eapply partialResult_ext; [| |exact Hvz].
Qed.

Lemma partialResult_longEdgeFlood (fuel : nat) (primIdx : Z)
  (aux : Tree.t bool) (vz : MeshVoxelizer) :
  distSqr_nonneg -> partialResult vz ->
  partialResult (longEdgeFlood fuel primIdx aux vz).
Proof.
  intros Hd. revert aux vz.
  induction fuel as [|fuel IH]; intros aux vz Hvz; [done|].
  cbn [longEdgeFlood]. destruct (Tree.activeVoxels aux) as [|x todo]; [done|].
  pose proof (partialResult_longEdgeSweep primIdx (x :: todo) aux vz Hd Hvz)
    as Hs.
  destruct (longEdgeSweep primIdx (x :: todo) aux vz) as [aux' vz'].
  by apply IH.
Qed.

Lemma partialResult_voxelizePrimitive (fuel n : nat) (vz : MeshVoxelizer) :
  distSqr_nonneg -> partialResult vz ->
  partialResult (voxelizePrimitive fuel n vz).
Proof.
  intros Hd Hvz. unfold voxelizePrimitive.
  destruct (shortEdge _ _ _).
  - unfold shortEdgeFill. apply partialResult_shortEdgeFlood; [done|].
    destruct (negb (INVALID_IDX =? at4 (polygon (Z.of_nat n)) 3));
      cbn [fst snd]; repeat apply partialResult_evalVoxel; done.
  - unfold longEdgeFill. apply partialResult_longEdgeFlood; [done|].
    eapply partialResult_ext; [| |apply partialResult_evalVoxel; [exact Hd|exact Hvz]];
      done.
Qed.

(** Whatever cut the scheduler chooses, the reduction of partial
    results is a partial result. *)
Lemma partialResult_parallel_reduce (fuel : nat) (p : Partition)
  (body : MeshVoxelizer) :
  distSqr_nonneg -> partialResult body ->
  partialResult (parallel_reduce fuel p body).
Proof.
  intros Hd. revert body.
  induction p as [first last|l IHl r IHr]; intros body Hb;
    cbn [parallel_reduce].
  - unfold MeshVoxelizer_call.
    generalize (seq first (last - first)) as ns. intros ns. revert body Hb.
    induction ns as [|n ns IH]; intros body Hb; [done|].
    cbn [fold_left]. apply IH. by apply partialResult_voxelizePrimitive.
  - apply partialResult_join; [by apply IHl|].
    apply IHr, partialResult_new.
Qed.

(** ** The narrow-band expander *)

(** One step of the neighbour loop of [getDist]. *)
Definition getDist_step (distAcc : Tree.t Q) (indexAcc : Tree.t Z)
  (ijk : Coord) (acc : Q * Z) (n : nat) : Q * Z :=
  let n_ijk := neighbour ijk n in
  if Tree.isValueOn distAcc n_ijk then
    if Qltb (Qabs (Tree.getValue distAcc n_ijk)) acc.1
    then (Qabs (Tree.getValue distAcc n_ijk), Tree.getValue indexAcc n_ijk)
    else acc
  else acc.

Lemma getDist_scan_cons (distAcc : Tree.t Q) (indexAcc : Tree.t Z)
  (ijk : Coord) (n : nat) (ns : list nat) (init : Q * Z) :
  getDist_scan distAcc indexAcc ijk (n :: ns) init
  = getDist_scan distAcc indexAcc ijk ns
      (getDist_step distAcc indexAcc ijk init n).
Proof. reflexivity. Qed.

(** The neighbour loop keeps the smallest [|D|] among the active
    neighbours it has seen (if that is below the initial bound) and the
    index recorded at a neighbour where this minimum is taken. *)
Lemma getDist_scan_spec (distAcc : Tree.t Q) (indexAcc : Tree.t Z)
  (ijk : Coord) (ns : list nat) (init : Q * Z) :
  let r := getDist_scan distAcc indexAcc ijk ns init in
  (r.1 <= init.1)%Q
  /\ (forall n, In n ns -> Tree.isValueOn distAcc (neighbour ijk n) = true ->
        (r.1 <= Qabs (Tree.getValue distAcc (neighbour ijk n)))%Q)
  /\ (r = init
      \/ exists n, In n ns
           /\ Tree.isValueOn distAcc (neighbour ijk n) = true
           /\ r.1 = Qabs (Tree.getValue distAcc (neighbour ijk n))
           /\ r.2 = Tree.getValue indexAcc (neighbour ijk n)
           /\ (r.1 < init.1)%Q).
Proof.
  revert init. induction ns as [|n ns IH]; intros init.
  { cbn. split; [lra|]. split; [by intros n []|by left]. }
  rewrite getDist_scan_cons. cbv zeta.
  specialize (IH (getDist_step distAcc indexAcc ijk init n)).
  cbv zeta in IH. destruct IH as [H1 [H2 H3]].
  set (r := getDist_scan distAcc indexAcc ijk ns
              (getDist_step distAcc indexAcc ijk init n)) in *.
  assert (Hstep : ((getDist_step distAcc indexAcc ijk init n).1 <= init.1)%Q
     /\ (Tree.isValueOn distAcc (neighbour ijk n) = true ->
          ((getDist_step distAcc indexAcc ijk init n).1
           <= Qabs (Tree.getValue distAcc (neighbour ijk n)))%Q)
     /\ (getDist_step distAcc indexAcc ijk init n = init
         \/ (Tree.isValueOn distAcc (neighbour ijk n) = true
             /\ getDist_step distAcc indexAcc ijk init n
                = (Qabs (Tree.getValue distAcc (neighbour ijk n)),
                   Tree.getValue indexAcc (neighbour ijk n))
             /\ (Qabs (Tree.getValue distAcc (neighbour ijk n)) < init.1)%Q))).
  { unfold getDist_step.
    destruct (Tree.isValueOn distAcc (neighbour ijk n)) eqn:Eon.
    - destruct (Qltb (Qabs (Tree.getValue distAcc (neighbour ijk n))) init.1)
        eqn:E.
      + apply Qltb_lt in E. cbn [fst]. split; [lra|]. split; [intros _; lra|].
        right. by repeat split.
      + apply Qltb_ge in E. split; [lra|]. split; [by intros _|by left].
    - split; [lra|]. split; [done|by left]. }
  destruct Hstep as [S1 [S2 S3]].
  split; [lra|]. split.
  - intros m [<-|Hin] Hon; [|by apply H2]. specialize (S2 Hon). lra.
  - destruct H3 as [H3|[m [Hin [Hon [Hv [Hi Hlt]]]]]].
    + destruct S3 as [S3|[Hon [S3 Hlt]]].
      * left. by rewrite H3.
      * right. exists n. rewrite H3, S3. cbn [fst snd].
        split; [by left|]. by repeat split.
    + right. exists m. split; [by right|]. repeat split; try done. lra.
Qed.

Lemma ExpandNB_voxel_other (ex inb vs : Q) (s : ExpandState) (p c : Coord) :
  c <> p ->
  let s' := ExpandNB_voxel ex inb vs s p in
  Tree.voxel (exDist s') c = Tree.voxel (exDist s) c
  /\ Tree.voxel (exIndex s') c = Tree.voxel (exIndex s) c
  /\ Tree.voxel (exMask s') c = Tree.voxel (exMask s) c.
Proof.
  intros Hne. unfold ExpandNB_voxel.
  destruct (Tree.isValueOn (exDist s) p).
  { cbn [exDist exIndex exMask]. rewrite voxel_iterSetValueOff.
    by rewrite decide_False. }
  destruct (getDist vs (exDist s) (exIndex s) p (closestPrimIndex s))
    as [distance prim].
  repeat match goal with
         | |- context [if ?b then _ else _] => destruct b
         end;
    cbn [exDist exIndex exMask];
    rewrite ?voxel_setValue, ?voxel_iterSetValueOff;
    by rewrite ?decide_False.
Qed.

Lemma ExpandNB_voxel_unfold (ex inb vs : Q) (s : ExpandState) (p : Coord) :
  ExpandNB_voxel ex inb vs s p
  = if Tree.isValueOn (exDist s) p then
      mkExpand (exDist s) (exIndex s) (Tree.iterSetValueOff (exMask s) p)
               (closestPrimIndex s)
    else
      let gd := getDist vs (exDist s) (exIndex s) p (closestPrimIndex s) in
      let inside := Qltb (Tree.getValue (exDist s) p) 0 in
      if negb inside && Qltb gd.1 ex then
        mkExpand (Tree.setValue DIM (exDist s) p gd.1)
                 (Tree.setValue DIM (exIndex s) p gd.2) (exMask s) gd.2
      else if inside && Qltb gd.1 inb then
        mkExpand (Tree.setValue DIM (exDist s) p (- gd.1)%Q)
                 (Tree.setValue DIM (exIndex s) p gd.2) (exMask s) gd.2
      else
        mkExpand (exDist s) (exIndex s) (Tree.iterSetValueOff (exMask s) p)
                 gd.2.
Proof.
  unfold ExpandNB_voxel. destruct (Tree.isValueOn (exDist s) p); [done|].
  by destruct (getDist vs (exDist s) (exIndex s) p (closestPrimIndex s)).
Qed.

Lemma let_pair_snd {A B : Type} (r : A * B) (f : B -> A) :
  (let r0 := r in (f r0.2, r0.2)).2 = r.2.
Proof. reflexivity. Qed.

Lemma let_pair_fst {A B : Type} (r : A * B) (f : B -> A) :
  (let r0 := r in (f r0.2, r0.2)).1 = f r.2.
Proof. reflexivity. Qed.

Lemma getDist_snd (vs : Q) (distAcc : Tree.t Q) (indexAcc : Tree.t Z)
  (ijk : Coord) (primIndex : Z) :
  (getDist vs distAcc indexAcc ijk primIndex).2
  = (getDist_scan distAcc indexAcc ijk (seq 0 18) (DBL_MAX, primIndex)).2.
Proof.
  exact (let_pair_snd
           (getDist_scan distAcc indexAcc ijk (seq 0 18) (DBL_MAX, primIndex))
           (getDistToPrim vs ijk)).
Qed.

Lemma getDist_fst (vs : Q) (distAcc : Tree.t Q) (indexAcc : Tree.t Z)
  (ijk : Coord) (primIndex : Z) :
  (getDist vs distAcc indexAcc ijk primIndex).1
  = getDistToPrim vs ijk
      (getDist_scan distAcc indexAcc ijk (seq 0 18) (DBL_MAX, primIndex)).2.
Proof.
  exact (let_pair_fst
           (getDist_scan distAcc indexAcc ijk (seq 0 18) (DBL_MAX, primIndex))
           (getDistToPrim vs ijk)).
Qed.

(** The neighbour loop picks the first neighbour, in the order of the
    loop, at which the smallest [|D|] among the active neighbours is
    taken, provided that minimum is below the initial bound. *)
Lemma getDist_scan_first (distAcc : Tree.t Q) (indexAcc : Tree.t Z)
  (ijk : Coord) (ns : list nat) (init : Q * Z) :
  let r := getDist_scan distAcc indexAcc ijk ns init in
  r = init
  \/ exists (i : nat) (n : nat), ns !! i = Some n
       /\ Tree.isValueOn distAcc (neighbour ijk n) = true
       /\ r.1 = Qabs (Tree.getValue distAcc (neighbour ijk n))
       /\ r.2 = Tree.getValue indexAcc (neighbour ijk n)
       /\ (r.1 < init.1)%Q
       /\ (forall (j : nat) (m : nat), (j < i)%nat -> ns !! j = Some m ->
             Tree.isValueOn distAcc (neighbour ijk m) = true ->
             (r.1 < Qabs (Tree.getValue distAcc (neighbour ijk m)))%Q).
Proof.
  revert init. induction ns as [|n ns IH]; intros init; [by left|].
  rewrite getDist_scan_cons. cbv zeta.
  specialize (IH (getDist_step distAcc indexAcc ijk init n)).
  cbv zeta in IH.
  set (r := getDist_scan distAcc indexAcc ijk ns
              (getDist_step distAcc indexAcc ijk init n)) in *.
  assert (Hstep :
    ((getDist_step distAcc indexAcc ijk init n).1 <= init.1)%Q
    /\ (Tree.isValueOn distAcc (neighbour ijk n) = true ->
        ((getDist_step distAcc indexAcc ijk init n).1
         <= Qabs (Tree.getValue distAcc (neighbour ijk n)))%Q)
    /\ (getDist_step distAcc indexAcc ijk init n = init
        \/ (Tree.isValueOn distAcc (neighbour ijk n) = true
            /\ getDist_step distAcc indexAcc ijk init n
               = (Qabs (Tree.getValue distAcc (neighbour ijk n)),
                  Tree.getValue indexAcc (neighbour ijk n))
            /\ (Qabs (Tree.getValue distAcc (neighbour ijk n)) < init.1)%Q))).
  { unfold getDist_step.
    destruct (Tree.isValueOn distAcc (neighbour ijk n)) eqn:Eon.
    - destruct (Qltb (Qabs (Tree.getValue distAcc (neighbour ijk n))) init.1)
        eqn:E.
      + apply Qltb_lt in E. cbn [fst]. split; [lra|]. split; [intros _; lra|].
        right. by repeat split.
      + apply Qltb_ge in E. split; [lra|]. split; [by intros _|by left].
    - split; [lra|]. split; [done|by left]. }
  destruct Hstep as [S1 [S2 S3]].
  destruct IH as [IH|[i [n' [Hi [Hon [Hv [Hx [Hlt Hfirst]]]]]]]].
  - destruct S3 as [S3|[Hon [S3 Hlt]]].
    + left. by rewrite IH.
    + right. exists 0%nat, n. rewrite IH, S3. cbn [fst snd].
      split; [done|]. repeat split; try done. intros j m Hj. lia.
  - right. exists (S i), n'. split; [exact Hi|].
    split; [exact Hon|]. split; [exact Hv|]. split; [exact Hx|].
    split; [lra|].
    intros [|j] m Hj Hm Hmon.
    + cbn in Hm. injection Hm as <-. specialize (S2 Hmon). lra.
    + apply (Hfirst j m); [lia|exact Hm|exact Hmon].
Qed.

(** Two voxels of one leaf at the same position are the same voxel, so
    the order of the visits of a leaf is fixed by the positions. *)
Lemma coord2offset_inj (a b : Coord) :
  0 < DIM -> Tree.leafOrigin DIM a = Tree.leafOrigin DIM b ->
  coord2offset a = coord2offset b -> a = b.
Proof.
  destruct a as [[x y] z], b as [[x' y'] z']. intros HD Ho Hp.
  unfold Tree.leafOrigin, coord2offset in *.
  injection Ho as Hx Hy Hz.
  pose proof (Z.mod_pos_bound x DIM HD). pose proof (Z.mod_pos_bound x' DIM HD).
  pose proof (Z.mod_pos_bound y DIM HD). pose proof (Z.mod_pos_bound y' DIM HD).
  pose proof (Z.mod_pos_bound z DIM HD). pose proof (Z.mod_pos_bound z' DIM HD).
  destruct (Z.div_mod_unique DIM (x mod DIM * DIM + y mod DIM)
              (x' mod DIM * DIM + y' mod DIM) (z mod DIM) (z' mod DIM))
    as [E1 E2]; [lia|lia|lia|].
  destruct (Z.div_mod_unique DIM (x mod DIM) (x' mod DIM)
              (y mod DIM) (y' mod DIM)) as [E3 E4]; [lia|lia|lia|].
  f_equal; [f_equal|]; lia.
Qed.

Lemma NoDup_leafActiveVoxels {A : Type} (tr : Tree.t A) (origin : Coord) :
  NoDup (leafActiveVoxels tr origin).
Proof.
  unfold leafActiveVoxels. rewrite merge_sort_Permutation.
  apply NoDup_filter, NoDup_activeVoxels.
Qed.

(** The voxels of a leaf are visited by increasing position. *)
Lemma leafActiveVoxels_sorted {A : Type} (tr : Tree.t A) (origin : Coord) :
  StronglySorted (fun a b => coord2offset a <= coord2offset b)
                 (leafActiveVoxels tr origin).
Proof.
  unfold leafActiveVoxels. apply StronglySorted_merge_sort.
  - intros a b c. lia.
  - intros a b. lia.
Qed.

(** The visits of other voxels leave a voxel as it is in the three
    trees. *)
Lemma ExpandNB_voxels_other (ex inb vs : Q) (l : list Coord)
  (s : ExpandState) (c : Coord) :
  c ∉ l ->
  let s' := fold_left (ExpandNB_voxel ex inb vs) l s in
  Tree.voxel (exDist s') c = Tree.voxel (exDist s) c
  /\ Tree.voxel (exIndex s') c = Tree.voxel (exIndex s) c
  /\ Tree.voxel (exMask s') c = Tree.voxel (exMask s) c.
Proof.
  revert s. induction l as [|p l IH]; intros s Hc; [done|].
  cbn [fold_left]. apply not_elem_of_cons in Hc as [Hne Hc].
  destruct (IH (ExpandNB_voxel ex inb vs s p) Hc) as [E1 [E2 E3]].
  destruct (ExpandNB_voxel_other ex inb vs s p c Hne) as [F1 [F2 F3]].
  cbv zeta. rewrite E1, E2, E3. done.
Qed.

(** What [ExpandNB::operator()] does at a voxel [p] where the distance
    tree is not active, in the state [s] in which [p] is visited. *)
Lemma ExpandNB_voxel_spec (exBandWidth inBandWidth voxelSize : Q)
  (s : ExpandState) (p : Coord) :
  Tree.isValueOn (exDist s) p = false ->
  let dp := Tree.getValue (exDist s) p in
  let scan := getDist_scan (exDist s) (exIndex s) p (seq 0 18)
                           (DBL_MAX, closestPrimIndex s) in
  let verts := polygon scan.2 in
  let x := Vec3d_of_Coord p in
  let d1 := triToPtnDistSqr (point (at4 verts 0)) (point (at4 verts 1))
                            (point (at4 verts 2)) x in
  let d2 := triToPtnDistSqr (point (at4 verts 0)) (point (at4 verts 3))
                            (point (at4 verts 2)) x in
  let distance := (getDist voxelSize (exDist s) (exIndex s) p
                           (closestPrimIndex s)).1 in
  let s' := ExpandNB_voxel exBandWidth inBandWidth voxelSize s p in
  ((forall n, (n < 18)%nat ->
      Tree.isValueOn (exDist s) (neighbour p n) = true ->
      (scan.1 <= Qabs (Tree.getValue (exDist s) (neighbour p n)))%Q)
   /\ ((exists n, (n < 18)%nat
          /\ Tree.isValueOn (exDist s) (neighbour p n) = true
          /\ (Qabs (Tree.getValue (exDist s) (neighbour p n)) < DBL_MAX)%Q) ->
       exists n, (n < 18)%nat
         /\ Tree.isValueOn (exDist s) (neighbour p n) = true
         /\ scan.1 = Qabs (Tree.getValue (exDist s) (neighbour p n))
         /\ scan.2 = Tree.getValue (exIndex s) (neighbour p n)
         /\ (forall m, (m < n)%nat ->
               Tree.isValueOn (exDist s) (neighbour p m) = true ->
               (scan.1 < Qabs (Tree.getValue (exDist s) (neighbour p m)))%Q))
   /\ (~ (exists n, (n < 18)%nat
            /\ Tree.isValueOn (exDist s) (neighbour p n) = true
            /\ (Qabs (Tree.getValue (exDist s) (neighbour p n)) < DBL_MAX)%Q) ->
       scan.2 = closestPrimIndex s))
  /\ ((at4 verts 3 = INVALID_IDX -> distance = (sqrt d1 * voxelSize)%Q)
      /\ (at4 verts 3 <> INVALID_IDX -> (d2 < d1)%Q ->
          distance = (sqrt d2 * voxelSize)%Q)
      /\ (at4 verts 3 <> INVALID_IDX -> ~ (d2 < d1)%Q ->
          distance = (sqrt d1 * voxelSize)%Q))
  /\ ((0 <= dp)%Q /\ (distance < exBandWidth)%Q ->
        Tree.voxel (exDist s') p = (distance, true)
        /\ Tree.voxel (exIndex s') p = (scan.2, true)
        /\ exMask s' = exMask s)
  /\ ((dp < 0)%Q /\ (distance < inBandWidth)%Q ->
        Tree.voxel (exDist s') p = ((- distance)%Q, true)
        /\ Tree.voxel (exIndex s') p = (scan.2, true)
        /\ exMask s' = exMask s)
  /\ (~ ((0 <= dp)%Q /\ (distance < exBandWidth)%Q) ->
      ~ ((dp < 0)%Q /\ (distance < inBandWidth)%Q) ->
        exDist s' = exDist s /\ exIndex s' = exIndex s
        /\ Tree.isValueOn (exMask s') p = false)
  /\ (Tree.isValueOn (exDist s') p = true <->
        ((0 <= dp)%Q /\ (distance < exBandWidth)%Q)
        \/ ((dp < 0)%Q /\ (distance < inBandWidth)%Q))
  /\ (forall c, c <> p ->
        Tree.voxel (exDist s') c = Tree.voxel (exDist s) c
        /\ Tree.voxel (exIndex s') c = Tree.voxel (exIndex s) c
        /\ Tree.voxel (exMask s') c = Tree.voxel (exMask s) c).
Proof.
  intros Hoff dp scan verts x d1 d2 distance s'.
  pose proof (getDist_scan_spec (exDist s) (exIndex s) p (seq 0 18)
                (DBL_MAX, closestPrimIndex s)) as Hscan.
  cbv zeta in Hscan. fold scan in Hscan. destruct Hscan as [G1 [G2 _]].
  pose proof (getDist_scan_first (exDist s) (exIndex s) p (seq 0 18)
                (DBL_MAX, closestPrimIndex s)) as G3.
  cbv zeta in G3. fold scan in G3.
  pose proof (getDist_snd voxelSize (exDist s) (exIndex s) p
                (closestPrimIndex s)) as Hg2.
  pose proof (getDist_fst voxelSize (exDist s) (exIndex s) p
                (closestPrimIndex s)) as Hg1.
  fold scan in Hg1, Hg2. fold distance in Hg1.
  assert (Hs' : s'
    = if negb (Qltb dp 0) && Qltb distance exBandWidth then
        mkExpand (Tree.setValue DIM (exDist s) p distance)
                 (Tree.setValue DIM (exIndex s) p scan.2) (exMask s) scan.2
      else if Qltb dp 0 && Qltb distance inBandWidth then
        mkExpand (Tree.setValue DIM (exDist s) p (- distance)%Q)
                 (Tree.setValue DIM (exIndex s) p scan.2) (exMask s) scan.2
      else
        mkExpand (exDist s) (exIndex s) (Tree.iterSetValueOff (exMask s) p)
                 scan.2).
  { subst s'. rewrite ExpandNB_voxel_unfold, Hoff. cbv zeta.
    fold distance. fold dp. by rewrite Hg2. }
  assert (Hother : forall c, c <> p ->
        Tree.voxel (exDist s') c = Tree.voxel (exDist s) c
        /\ Tree.voxel (exIndex s') c = Tree.voxel (exIndex s) c
        /\ Tree.voxel (exMask s') c = Tree.voxel (exMask s) c).
  { intros c Hc. by apply ExpandNB_voxel_other. }
  assert (Hdist : distance
                  = (sqrt (if negb (INVALID_IDX =? at4 verts 3)
                           then if Qltb d2 d1 then d2 else d1
                           else d1) * voxelSize)%Q).
  { rewrite Hg1. unfold getDistToPrim. cbv zeta. fold verts x d1 d2.
    by destruct (negb (INVALID_IDX =? at4 verts 3)). }
  clearbody s' distance scan dp.
  split; [split; [|split]|split; [split; [|split]|
          split; [|split; [|split; [|split]]]]].
  - intros n Hn. apply G2. apply in_seq. lia.
  - intros [n [Hn [Hon Hlt]]].
    destruct G3 as [G3|[i [m [Hi [Hm [Hv [Hx [_ Hfirst]]]]]]]].
    + exfalso. assert (In n (seq 0 18)) as Hin by (apply in_seq; lia).
      specialize (G2 n Hin Hon). rewrite G3 in G2. cbn [fst] in G2. lra.
    + apply lookup_seq in Hi as [-> Hi]. cbn [Nat.add] in *.
      exists i. split; [exact Hi|]. split; [exact Hm|].
      split; [exact Hv|]. split; [exact Hx|].
      intros j Hj Hon'. apply (Hfirst j j); [exact Hj| |exact Hon'].
      apply lookup_seq. split; [done|lia].
  - intros Hno.
    destruct G3 as [G3|[i [m [Hi [Hm [Hv [Hx [Hlt _]]]]]]]].
    + by rewrite G3.
    + exfalso. apply Hno. apply lookup_seq in Hi as [-> Hi].
      cbn [Nat.add] in *. exists i. split; [exact Hi|]. split; [exact Hm|].
      rewrite <- Hv. exact Hlt.
  - intros E. rewrite Hdist, E. by rewrite Z.eqb_refl.
  - intros E Hlt. rewrite Hdist.
    apply Z.eqb_neq in E. rewrite Z.eqb_sym in E. rewrite E. cbn [negb].
    apply Qltb_lt in Hlt. by rewrite Hlt.
  - intros E Hge. rewrite Hdist.
    apply Z.eqb_neq in E. rewrite Z.eqb_sym in E. rewrite E. cbn [negb].
    destruct (Qltb d2 d1) eqn:E2; [|done].
    apply Qltb_lt in E2. contradiction.
  - intros [Hd Hlt]. rewrite Hs'.
    apply Qltb_ge in Hd. rewrite Hd.
    apply Qltb_lt in Hlt. rewrite Hlt. cbn [negb andb exDist exIndex exMask].
    by rewrite !voxel_setValue_eq.
  - intros [Hd Hlt]. rewrite Hs'.
    apply Qltb_lt in Hd. rewrite Hd.
    apply Qltb_lt in Hlt. rewrite Hlt. cbn [negb andb exDist exIndex exMask].
    by rewrite !voxel_setValue_eq.
  - intros N1 N2. rewrite Hs'.
    destruct (Qltb dp 0) eqn:Ed; cbn [negb andb].
    + destruct (Qltb distance inBandWidth) eqn:Ei.
      * exfalso. apply N2. split; by apply Qltb_lt.
      * cbn [exDist exIndex exMask]. split; [done|]. split; [done|].
        by rewrite <- voxel_on, voxel_iterSetValueOff_eq.
    + destruct (Qltb distance exBandWidth) eqn:Ee.
      * exfalso. apply N1. split; [by apply Qltb_ge|by apply Qltb_lt].
      * cbn [exDist exIndex exMask]. split; [done|]. split; [done|].
        by rewrite <- voxel_on, voxel_iterSetValueOff_eq.
  - rewrite Hs'.
    destruct (Qltb dp 0) eqn:Ed; cbn [negb andb].
    + apply Qltb_lt in Ed.
      destruct (Qltb distance inBandWidth) eqn:Ei; cbn [exDist].
      * apply Qltb_lt in Ei. rewrite <- voxel_on, voxel_setValue_eq.
        cbn [snd]. split; [intros _; by right|done].
      * apply Qltb_ge in Ei. rewrite Hoff.
        split; [done|]. intros [[H _]|[_ H]]; lra.
    + apply Qltb_ge in Ed.
      destruct (Qltb distance exBandWidth) eqn:Ee; cbn [exDist].
      * apply Qltb_lt in Ee. rewrite <- voxel_on, voxel_setValue_eq.
        cbn [snd]. split; [intros _; by left|done].
      * apply Qltb_ge in Ee. rewrite Hoff.
        split; [done|]. intros [[_ H]|[H _]]; lra.
  - exact Hother.
Qed.

(** C6. One expansion step over the mask leaf at [origin], whose leaf
    exists in the distance tree and in the index tree.  The active
    voxels of the mask leaf are visited by increasing position; let [p]
    be one of them, reached in the state [sp] after the visits of the
    voxels before it, and let the distance tree be not active at [p].
    None of the earlier visits and none of the later ones touches [p].
    [distance] is the square root of the squared distance from [p] to
    the primitive [prim], and for a quad the smaller of the two
    triangle distances, times the voxel size; [prim] is the primitive
    recorded at the first of the 18 neighbours of [p], in table order,
    that is active in the distance tree with the smallest [|D|] among
    the active ones (inactive neighbours are skipped; with no active
    neighbour below the largest double, the index left by the previous
    visit).  Then [p] is activated with [+distance] and [prim] exactly
    when [D] at [p] is not negative and [distance < exBandWidth], with
    [-distance] and [prim] exactly when [D] at [p] is negative and
    [distance < inBandWidth], and otherwise [p] is cleared from the
    mask with both trees unchanged. *)
Theorem C6_expand_voxel (exBandWidth inBandWidth voxelSize : Q)
  (s : ExpandState) (origin p : Coord) (before after : list Coord) :
  Tree.probeLeaf DIM (exDist s) origin = true ->
  Tree.probeLeaf DIM (exIndex s) origin = true ->
  leafActiveVoxels (exMask s) origin = before ++ p :: after ->
  let visit := ExpandNB_voxel exBandWidth inBandWidth voxelSize in
  let sp := fold_left visit before s in
  Tree.isValueOn (exDist sp) p = false ->
  let dp := Tree.getValue (exDist sp) p in
  let scan := getDist_scan (exDist sp) (exIndex sp) p (seq 0 18)
                           (DBL_MAX, closestPrimIndex sp) in
  let prim := scan.2 in
  let verts := polygon prim in
  let x := Vec3d_of_Coord p in
  let d1 := triToPtnDistSqr (point (at4 verts 0)) (point (at4 verts 1))
                            (point (at4 verts 2)) x in
  let d2 := triToPtnDistSqr (point (at4 verts 0)) (point (at4 verts 3))
                            (point (at4 verts 2)) x in
  let distance := (getDist voxelSize (exDist sp) (exIndex sp) p
                           (closestPrimIndex sp)).1 in
  let s' := visit sp p in
  let final := ExpandNB_leaf exBandWidth inBandWidth voxelSize s origin in
  (final = fold_left visit after s'
   /\ Tree.voxel (exDist sp) p = Tree.voxel (exDist s) p
   /\ Tree.voxel (exIndex sp) p = Tree.voxel (exIndex s) p
   /\ Tree.voxel (exMask sp) p = Tree.voxel (exMask s) p
   /\ Tree.voxel (exDist final) p = Tree.voxel (exDist s') p
   /\ Tree.voxel (exIndex final) p = Tree.voxel (exIndex s') p
   /\ Tree.voxel (exMask final) p = Tree.voxel (exMask s') p)
  /\ ((forall n, (n < 18)%nat ->
         Tree.isValueOn (exDist sp) (neighbour p n) = true ->
         (scan.1 <= Qabs (Tree.getValue (exDist sp) (neighbour p n)))%Q)
      /\ ((exists n, (n < 18)%nat
             /\ Tree.isValueOn (exDist sp) (neighbour p n) = true
             /\ (Qabs (Tree.getValue (exDist sp) (neighbour p n))
                 < DBL_MAX)%Q) ->
          exists n, (n < 18)%nat
            /\ Tree.isValueOn (exDist sp) (neighbour p n) = true
            /\ scan.1 = Qabs (Tree.getValue (exDist sp) (neighbour p n))
            /\ prim = Tree.getValue (exIndex sp) (neighbour p n)
            /\ (forall m, (m < n)%nat ->
                  Tree.isValueOn (exDist sp) (neighbour p m) = true ->
                  (scan.1
                   < Qabs (Tree.getValue (exDist sp) (neighbour p m)))%Q))
      /\ (~ (exists n, (n < 18)%nat
               /\ Tree.isValueOn (exDist sp) (neighbour p n) = true
               /\ (Qabs (Tree.getValue (exDist sp) (neighbour p n))
                   < DBL_MAX)%Q) ->
          prim = closestPrimIndex sp))
  /\ ((at4 verts 3 = INVALID_IDX -> distance = (sqrt d1 * voxelSize)%Q)
      /\ (at4 verts 3 <> INVALID_IDX -> (d2 < d1)%Q ->
          distance = (sqrt d2 * voxelSize)%Q)
      /\ (at4 verts 3 <> INVALID_IDX -> ~ (d2 < d1)%Q ->
          distance = (sqrt d1 * voxelSize)%Q))
  /\ ((0 <= dp)%Q /\ (distance < exBandWidth)%Q ->
        Tree.voxel (exDist s') p = (distance, true)
        /\ Tree.voxel (exIndex s') p = (prim, true)
        /\ exMask s' = exMask sp)
  /\ ((dp < 0)%Q /\ (distance < inBandWidth)%Q ->
        Tree.voxel (exDist s') p = ((- distance)%Q, true)
        /\ Tree.voxel (exIndex s') p = (prim, true)
        /\ exMask s' = exMask sp)
  /\ (~ ((0 <= dp)%Q /\ (distance < exBandWidth)%Q) ->
      ~ ((dp < 0)%Q /\ (distance < inBandWidth)%Q) ->
        exDist s' = exDist sp /\ exIndex s' = exIndex sp
        /\ Tree.isValueOn (exMask s') p = false)
  /\ (Tree.isValueOn (exDist s') p = true <->
        ((0 <= dp)%Q /\ (distance < exBandWidth)%Q)
        \/ ((dp < 0)%Q /\ (distance < inBandWidth)%Q))
  /\ (forall c, c <> p ->
        Tree.voxel (exDist s') c = Tree.voxel (exDist sp) c
        /\ Tree.voxel (exIndex s') c = Tree.voxel (exIndex sp) c
        /\ Tree.voxel (exMask s') c = Tree.voxel (exMask sp) c).
Proof.
  intros HD HI Hl visit sp Hoff dp scan prim verts x d1 d2 distance s' final.
  pose proof (NoDup_leafActiveVoxels (exMask s) origin) as Hnd.
  rewrite Hl in Hnd. apply NoDup_app in Hnd as [_ [Hb Ha]].
  apply NoDup_cons in Ha as [Ha _].
  assert (Hpb : p ∉ before).
  { intros Hin. apply (Hb p Hin). left. }
  assert (Hfinal : final = fold_left visit after s').
  { unfold final, ExpandNB_leaf. rewrite HD, HI. cbn [andb].
    rewrite Hl, fold_left_app. reflexivity. }
  split.
  { split; [exact Hfinal|].
    destruct (ExpandNB_voxels_other exBandWidth inBandWidth voxelSize
                before s p Hpb) as [E1 [E2 E3]].
    split; [exact E1|]. split; [exact E2|]. split; [exact E3|].
    rewrite Hfinal.
    exact (ExpandNB_voxels_other exBandWidth inBandWidth voxelSize
             after s' p Ha). }
  exact (ExpandNB_voxel_spec exBandWidth inBandWidth voxelSize sp p Hoff).
Qed.

(** ** The contour tracer *)

(** The backtrace turns a negative value into its opposite and leaves
    any other value as it is. *)
Definition flipNegative (v : Q) : Q := if Qltb v 0 then (- v)%Q else v.

(** The voxels the backtrace from [k] down to [lastk] in row [(i, j)]
    gets to: those at or above [lastk] with no boundary voxel between
    them and [k], both included. *)
Definition walked (mask : Tree.t bool) (i j k lastk : Z) (c : Coord) : Prop :=
  exists k', c = (i, j, k') /\ lastk <= k' <= k
    /\ forall k'', k' <= k'' <= k -> Tree.isValueOn mask (i, j, k'') = false.

Lemma backtrace_spec (fuel : nat) (mask : Tree.t bool) (i j k lastk : Z)
  (dist : Tree.t Q) (c : Coord) :
  k - lastk + 1 <= Z.of_nat fuel ->
  (walked mask i j k lastk c ->
     Tree.voxel (backtrace fuel mask i j k lastk dist) c
     = (flipNegative (Tree.getValue dist c), Tree.isValueOn dist c))
  /\ (~ walked mask i j k lastk c ->
        Tree.voxel (backtrace fuel mask i j k lastk dist) c
        = Tree.voxel dist c).
Proof.
  revert k dist. induction fuel as [|fuel IH]; intros k dist Hfuel.
  { split; [|done]. intros [k' [_ [Hk _]]]. lia. }
  cbn [backtrace]. destruct (k >=? lastk) eqn:Ek.
  2: { split; [|done]. intros [k' [_ [Hk _]]]. lia. }
  destruct (Tree.isValueOn mask (i, j, k)) eqn:Em.
  { split; [|done]. intros [k' [_ [Hk Hm]]].
    rewrite (Hm k) in Em; [done|lia]. }
  set (dist' := if Qltb (Tree.getValue dist (i, j, k)) 0
                then Tree.setValueOnly dist (i, j, k)
                       (- Tree.getValue dist (i, j, k))%Q
                else dist).
  assert (Hd : forall x, Tree.voxel dist' x
                = if decide (x = (i, j, k))
                  then (flipNegative (Tree.getValue dist x), Tree.isValueOn dist x)
                  else Tree.voxel dist x).
  { intros x. subst dist'. unfold flipNegative.
    destruct (decide (x = (i, j, k))) as [->|Hx].
    - destruct (Qltb (Tree.getValue dist (i, j, k)) 0); [|done].
      rewrite voxel_setValueOnly. by rewrite decide_True.
    - destruct (Qltb (Tree.getValue dist (i, j, k)) 0); [|done].
      rewrite voxel_setValueOnly. by rewrite decide_False. }
  destruct (IH (k - 1) dist' ltac:(lia)) as [IH1 IH2].
  assert (Hw : walked mask i j k lastk c
               <-> c = (i, j, k) \/ walked mask i j (k - 1) lastk c).
  { split.
    - intros [k' [-> [Hk Hm]]]. destruct (decide (k' = k)) as [->|Hne].
      + by left.
      + right. exists k'. split; [done|]. split; [lia|].
        intros k'' Hk''. apply Hm. lia.
    - intros [->|[k' [-> [Hk Hm]]]].
      + exists k. split; [done|]. split; [lia|].
        intros k'' Hk''. by replace k'' with k by lia.
      + exists k'. split; [done|]. split; [lia|].
        intros k'' Hk''. destruct (decide (k'' = k)) as [->|Hne]; [done|].
        apply Hm. lia. }
  assert (Hnk : ~ walked mask i j (k - 1) lastk (i, j, k)).
  { intros [k' [Heq [Hk _]]]. injection Heq as ->. lia. }
  split.
  - intros [->|Hwalk]%Hw.
    + rewrite (IH2 Hnk), Hd. by rewrite decide_True.
    + rewrite (IH1 Hwalk).
      assert (c <> (i, j, k)) as Hne by (intros ->; done).
      pose proof (Hd c) as Hc. rewrite decide_False in Hc by done.
      apply (f_equal fst) in Hc as Hv. apply (f_equal snd) in Hc as Ho.
      rewrite voxel_value in Hv. rewrite voxel_on in Ho.
      by rewrite Hv, Ho.
  - intros Hn.
    assert (c <> (i, j, k) /\ ~ walked mask i j (k - 1) lastk c) as [Hne Hn'].
    { split; intros H; apply Hn, Hw; [by left|by right]. }
    rewrite (IH2 Hn'), Hd. by rewrite decide_False.
Qed.

(** C7 (amended). When the current voxel is active, not a boundary
    voxel, the last voxel was not outside, and the neighbour at table
    entry 3 or 5 is active with a positive value, the tracer sets
    [lastVoxelWasOut], flips the sign of the current voxel, and walks
    back from k-1 down to [last_k], stopping at the first boundary
    voxel: every voxel it passes that holds a negative value gets the
    opposite value, the others keep theirs; no active state changes, no
    other voxel changes, and [last_k] becomes the current k. *)
Theorem C7_contour_backtrace (mask : Tree.t bool) (ijk : Coord) (s : ScanState) :
  Tree.isValueOn (scDist s) ijk = true ->
  Tree.isValueOn mask ijk = false ->
  lastVoxelWasOut s = false ->
  (Tree.isValueOn (scDist s) (neighbour ijk 3) = true
   /\ (0 < Tree.getValue (scDist s) (neighbour ijk 3))%Q)
  \/ (Tree.isValueOn (scDist s) (neighbour ijk 5) = true
      /\ (0 < Tree.getValue (scDist s) (neighbour ijk 5))%Q) ->
  let s' := sparseScan_visit mask ijk s in
  let i := coord_i ijk in
  let j := coord_j ijk in
  let k := coord_k ijk in
  lastVoxelWasOut s' = true
  /\ last_k s' = k
  /\ Tree.voxel (scDist s') ijk = ((- Tree.getValue (scDist s) ijk)%Q, true)
  /\ (forall c, c <> ijk ->
        (walked mask i j (k - 1) (last_k s) c ->
           Tree.voxel (scDist s') c
           = (flipNegative (Tree.getValue (scDist s) c),
              Tree.isValueOn (scDist s) c))
        /\ (~ walked mask i j (k - 1) (last_k s) c ->
              Tree.voxel (scDist s') c = Tree.voxel (scDist s) c)).
Proof.
  intros Hon Hmask Hout Hprobe s' i j k.
  assert (Hp : probeOutside (scDist s) ijk = true).
  { unfold probeOutside, Tree.probeValue. cbn [existsb].
    destruct Hprobe as [[H1 H2]|[H1 H2]]; apply Qltb_lt in H2;
      rewrite H1, H2; cbn; by rewrite ?orb_true_r. }
  subst s'. unfold sparseScan_visit. rewrite Hon, Hmask, Hout, Hp.
  cbn [lastVoxelWasOut last_k scDist]. fold i j k.
  set (dist1 := Tree.setValueOnly (scDist s) ijk
                  (- Tree.getValue (scDist s) ijk)%Q).
  assert (Hijk : ijk = (i, j, k)) by by destruct ijk as [[? ?] ?].
  assert (Hnw : ~ walked mask i j (k - 1) (last_k s) ijk).
  { intros [k' [Heq [Hk _]]]. rewrite Hijk in Heq. injection Heq as ->. lia. }
  split; [done|]. split; [done|]. split.
  - destruct (backtrace_spec (Z.to_nat (k - last_k s)) mask i j (k - 1)
                (last_k s) dist1 ijk ltac:(lia)) as [_ H2].
    rewrite (H2 Hnw). subst dist1. rewrite voxel_setValueOnly.
    by rewrite decide_True, Hon.
  - intros c Hc.
    destruct (backtrace_spec (Z.to_nat (k - last_k s)) mask i j (k - 1)
                (last_k s) dist1 c ltac:(lia)) as [H1 H2].
    assert (Hv : Tree.voxel dist1 c = Tree.voxel (scDist s) c).
    { subst dist1. rewrite voxel_setValueOnly. by rewrite decide_False. }
    apply (f_equal fst) in Hv as Hv1. apply (f_equal snd) in Hv as Hv2.
    rewrite voxel_value in Hv1. rewrite voxel_on in Hv2.
    split.
    + intros Hw. rewrite (H1 Hw). by rewrite Hv1, Hv2.
    + intros Hw. by rewrite (H2 Hw).
Qed.

(** *** Unsigned mode before the trim block *)

(** Every active voxel holds a value that is not negative. *)
Definition nonnegActive (tr : Tree.t Q) : Prop :=
  forall c, Tree.isValueOn tr c = true -> (0 <= Tree.getValue tr c)%Q.

(** The contract of [std::sqrt] used here. *)
Definition sqrt_nonneg : Prop := forall x : Q, (0 <= sqrt x)%Q.

Lemma voxel_SqrtAndScaleOp (vs : Q) (uns : bool) (leaf : Tree.t Q)
  (c c' : Coord) :
  Tree.voxel (SqrtAndScaleOp vs uns leaf c) c'
  = if decide (c' = c)
    then (((if negb uns && Qltb (Tree.getValue leaf c) 0
            then - vs else vs) * sqrt (Qabs (Tree.getValue leaf c)))%Q,
          Tree.isValueOn leaf c)
    else Tree.voxel leaf c'.
Proof. unfold SqrtAndScaleOp. by rewrite voxel_setValueOnly. Qed.

(** In unsigned mode the square-root pass multiplies by [+voxelSize]. *)
Lemma voxel_sqrtAndScale_unsigned (vs : Q) (tr : Tree.t Q) (c : Coord) :
  Tree.voxel (transformValueOn (SqrtAndScaleOp vs true) tr) c
  = if Tree.isValueOn tr c
    then ((vs * sqrt (Qabs (Tree.getValue tr c)))%Q, true)
    else Tree.voxel tr c.
Proof.
  unfold transformValueOn.
  rewrite (fold_left_local Tree.voxel (SqrtAndScaleOp vs true)
             (fun _ vo => ((vs * sqrt (Qabs vo.1))%Q, vo.2))
             _ (NoDup_activeVoxels tr)).
  - destruct (decide (c ∈ Tree.activeVoxels tr)) as [Hin|Hin].
    + apply elem_of_activeVoxels in Hin. rewrite Hin.
      unfold Tree.voxel. cbn [fst snd]. by rewrite Hin.
    + destruct (Tree.isValueOn tr c) eqn:E; [|done].
      exfalso. apply Hin. by apply elem_of_activeVoxels.
  - intros s a a' Hne. rewrite voxel_SqrtAndScaleOp.
    by destruct (decide (a' = a)).
  - intros s a. rewrite voxel_SqrtAndScaleOp.
    by destruct (decide (a = a)).
Qed.

Lemma nonnegActive_sqrtAndScale_unsigned (vs : Q) (tr : Tree.t Q) :
  sqrt_nonneg -> (0 <= vs)%Q ->
  nonnegActive (transformValueOn (SqrtAndScaleOp vs true) tr).
Proof.
  intros Hs Hvs c Hon.
  pose proof (voxel_sqrtAndScale_unsigned vs tr c) as H.
  apply (f_equal fst) in H as Hv. apply (f_equal snd) in H as Ho.
  rewrite voxel_value in Hv. rewrite voxel_on in Ho.
  destruct (Tree.isValueOn tr c) eqn:E.
  - rewrite Hv. cbn [fst]. apply Qmult_le_0_compat; [done|apply Hs].
  - cbn [snd] in Ho. rewrite voxel_on in Ho. congruence.
Qed.

Lemma getDistToPrim_nonneg (vs : Q) (ijk : Coord) (polyIdx : Z) :
  sqrt_nonneg -> (0 <= vs)%Q -> (0 <= getDistToPrim vs ijk polyIdx)%Q.
Proof.
  intros Hs Hvs. unfold getDistToPrim. cbv zeta.
  apply Qmult_le_0_compat; [apply Hs|done].
Qed.

Lemma nonnegActive_setValue (tr : Tree.t Q) (c : Coord) (v : Q) :
  nonnegActive tr -> (0 <= v)%Q -> nonnegActive (Tree.setValue DIM tr c v).
Proof.
  intros H Hv c' Hon.
  pose proof (voxel_setValue tr c c' v) as E.
  apply (f_equal fst) in E as Ev. apply (f_equal snd) in E as Eo.
  rewrite voxel_value in Ev. rewrite voxel_on in Eo.
  destruct (decide (c' = c)).
  - by rewrite Ev.
  - rewrite Ev. cbn [fst snd] in *. rewrite voxel_value. apply H.
    rewrite voxel_on in Eo. congruence.
Qed.

Lemma nonnegActive_ExpandNB_voxel (ex vs : Q) (s : ExpandState) (p : Coord) :
  sqrt_nonneg -> (0 <= vs)%Q -> nonnegActive (exDist s) ->
  nonnegActive (exDist (ExpandNB_voxel ex 0 vs s p)).
Proof.
  intros Hs Hvs H. rewrite ExpandNB_voxel_unfold.
  destruct (Tree.isValueOn (exDist s) p); [done|]. cbv zeta.
  rewrite getDist_fst.
  match goal with
  | |- context [getDistToPrim vs p ?i] =>
      pose proof (getDistToPrim_nonneg vs p i Hs Hvs) as Hd;
      generalize dependent (getDistToPrim vs p i)
  end.
  intros d Hd.
  generalize ((getDist vs (exDist s) (exIndex s) p (closestPrimIndex s)).2).
  intros prim.
  destruct (negb (Qltb (Tree.getValue (exDist s) p) 0) && Qltb d ex).
  { cbn [exDist]. by apply nonnegActive_setValue. }
  assert (Qltb d 0 = false) as -> by by apply Qltb_ge.
  rewrite andb_false_r. done.
Qed.

Lemma nonnegActive_ExpandNB_leaf (ex vs : Q) (s : ExpandState)
  (origin : Coord) :
  sqrt_nonneg -> (0 <= vs)%Q -> nonnegActive (exDist s) ->
  nonnegActive (exDist (ExpandNB_leaf ex 0 vs s origin)).
Proof.
  intros Hs Hvs H. unfold ExpandNB_leaf.
  destruct (Tree.probeLeaf DIM (exDist s) origin
            && Tree.probeLeaf DIM (exIndex s) origin); [|done].
  generalize (leafActiveVoxels (exMask s) origin) as l.
  intros l. revert s H. induction l as [|p l IH]; intros s H; [done|].
  cbn [fold_left]. apply IH. by apply nonnegActive_ExpandNB_voxel.
Qed.

Lemma nonnegActive_ExpandNB_call (ex vs : Q) (dist : Tree.t Q)
  (index : Tree.t Z) (mask : Tree.t bool) :
  sqrt_nonneg -> (0 <= vs)%Q -> nonnegActive dist ->
  nonnegActive (ExpandNB_call ex 0 vs dist index mask).1.1.
Proof.
  intros Hs Hvs H. unfold ExpandNB_call. cbn [fst].
  assert (G : forall l s, nonnegActive (exDist s) ->
            nonnegActive (exDist (fold_left (ExpandNB_leaf ex 0 vs) l s))).
  { induction l as [|o l IH]; intros s Hs0; [done|].
    cbn [fold_left]. apply IH. by apply nonnegActive_ExpandNB_leaf. }
  by apply G.
Qed.

Lemma nonnegActive_expandLoop (fuel : nat) (ex vs : Q) (dist : Tree.t Q)
  (index : Tree.t Z) (mask : Tree.t bool) (log : list Stage) :
  sqrt_nonneg -> (0 <= vs)%Q -> nonnegActive dist ->
  nonnegActive (expandLoop fuel ex 0 vs dist index mask log).1.1.
Proof.
  intros Hs Hvs. revert dist index mask log.
  induction fuel as [|fuel IH]; intros dist index mask log H; [done|].
  rewrite expandLoop_S.
  destruct (0 <? Tree.activeVoxelCount mask)%nat; [|done].
  cbv zeta. apply IH. by apply nonnegActive_ExpandNB_call.
Qed.

Lemma preallocAround_voxels (i inLeafs exLeafs : Z)
  (st : Tree.t Q * list Coord) (origin : Coord) :
  Tree.voxels (preallocAround i inLeafs exLeafs st origin).1
  = Tree.voxels st.1
  /\ Tree.background (preallocAround i inLeafs exLeafs st origin).1
     = Tree.background st.1.
Proof.
  unfold preallocAround.
  destruct (Qltb (Tree.getValue st.1 origin) 0 && negb (i <? inLeafs));
    [done|].
  destruct (negb (Qltb (Tree.getValue st.1 origin) 0) && negb (i <? exLeafs));
    [done|].
  destruct origin as [[x y] z].
  match goal with
  | |- context [fold_left ?f ?l st] => generalize l as l0; intros l0
  end.
  revert st. induction l0 as [|a l0 IH]; intros st; [done|].
  cbn [fold_left].
  match goal with
  | |- context [fold_left ?f l0 ?st'] => destruct (IH st') as [-> ->]
  end.
  by destruct (Tree.probeLeaf DIM st.1 a).
Qed.

Lemma preallocLeafs_voxel (ex inb vs : Q) (dist : Tree.t Q) (c : Coord) :
  Tree.voxel (preallocLeafs ex inb vs dist) c = Tree.voxel dist c.
Proof.
  assert (G : forall todo i inL exL leafs d,
            Tree.voxels (preallocLoop todo i inL exL leafs d) = Tree.voxels d
            /\ Tree.background (preallocLoop todo i inL exL leafs d)
               = Tree.background d).
  { induction todo as [|todo IH]; intros i inL exL leafs d; [done|].
    cbn [preallocLoop].
    assert (F : forall l (st : Tree.t Q * list Coord),
              Tree.voxels (fold_left (preallocAround i inL exL) l st).1
              = Tree.voxels st.1
              /\ Tree.background (fold_left (preallocAround i inL exL) l st).1
                 = Tree.background st.1).
    { induction l as [|o l IHl]; intros st; [done|]. cbn [fold_left].
      destruct (IHl (preallocAround i inL exL st o)) as [-> ->].
      apply preallocAround_voxels. }
    specialize (F leafs (d, [])).
    destruct (fold_left (preallocAround i inL exL) leafs (d, []))
      as [d' new]. cbn [fst] in F. destruct F as [F1 F2].
    destruct new as [|n new]; [done|].
    destruct (IH (i + 1) inL exL (n :: new) d') as [-> ->]. done. }
  unfold preallocLeafs.
  destruct (preallocCounts ex inb vs) as [[inL exL] numL].
  destruct (G (Z.to_nat numL) 0 inL exL (elements (Tree.leafs dist)) dist)
    as [G1 G2].
  unfold Tree.voxel, Tree.getValue, Tree.isValueOn. by rewrite G1, G2.
Qed.

Lemma nonnegActive_dilationStage (fuel : nat) (ex : Q) (m : MeshToVolume) :
  sqrt_nonneg -> (0 <= mTransform_voxelSize m)%Q ->
  nonnegActive (mDistGrid m) ->
  nonnegActive (mDistGrid (dilationStage fuel ex 0 m)).
Proof.
  intros Hs Hvs H. unfold dilationStage. cbv zeta.
  destruct (Qltb (mTransform_voxelSize m * 2) 0
            || Qltb (mTransform_voxelSize m * 2) ex); [|done].
  match goal with
  | |- context [expandLoop ?f ?a ?b ?c ?d ?i ?k ?l] =>
      pose proof (nonnegActive_expandLoop f a c d i k l Hs Hvs) as HL;
      destruct (expandLoop f a b c d i k l) as [[d2 i2] l2]
  end.
  cbn [mDistGrid fst] in *. apply HL.
  intros c Hon. cbn [mDistGrid ran] in *.
  pose proof (preallocLeafs_voxel ex 0 (mTransform_voxelSize m)
                (mDistGrid m) c) as E.
  apply (f_equal fst) in E as Ev. apply (f_equal snd) in E as Eo.
  rewrite !voxel_value in Ev. rewrite !voxel_on in Eo.
  rewrite Ev. apply H. congruence.
Qed.

(** In unsigned mode, with a square root and a voxel size that are not
    negative, every active voxel of the distance grid holds a value
    that is not negative when the trim block is reached. *)
Lemma unsigned_upToTrim_nonnegative (fuel : nat) (ex : Q) (m2 : MeshToVolume) :
  sqrt_nonneg -> (0 <= mTransform_voxelSize m2)%Q ->
  nonnegActive (mDistGrid (doConvert_upToTrim fuel ex 0 true m2)).
Proof.
  intros Hs Hvs. unfold doConvert_upToTrim. cbv zeta. simpl negb. cbv iota.
  match goal with
  | |- context [dilationStage fuel ex 0 ?m3] =>
      pose proof (nonnegActive_dilationStage fuel ex m3 Hs Hvs) as HD;
      generalize dependent (dilationStage fuel ex 0 m3)
  end.
  intros m5 HD.
  assert (nonnegActive (mDistGrid m5)) as H5.
  { apply HD. cbn [mDistGrid ran].
    by apply nonnegActive_sqrtAndScale_unsigned. }
  by destruct (negb (negb (Z.land GENERATE_PRIM_INDEX_GRID
                                   (mConversionFlags m5) =? 0))).
Qed.

(** [internal::combine] applies the same test as [join], but it writes
    the distance through a reference: the index voxel is activated, the
    active state of the distance voxel stays as it was. *)
Lemma voxel2_combine (lhsDist : Tree.t Q) (lhsIndex : Tree.t Z)
  (rhsDist : Tree.t Q) (rhsIndex : Tree.t Z) (c : Coord) :
  voxel2 (combine lhsDist lhsIndex rhsDist rhsIndex) c
  = if Tree.isValueOn rhsDist c
       && Qltb (- Tree.getValue rhsDist c) (Qabs (Tree.getValue lhsDist c))
    then ((Tree.getValue rhsDist c, Tree.isValueOn lhsDist c),
          (Tree.getValue rhsIndex c, true))
    else voxel2 (lhsDist, lhsIndex) c.
Proof.
  unfold combine.
  rewrite (fold_left_local voxel2 (combine_voxel rhsDist rhsIndex)
             (fun a o => if Qltb (- Tree.getValue rhsDist a) (Qabs o.1.1)
                         then ((Tree.getValue rhsDist a, o.1.2),
                               (Tree.getValue rhsIndex a, true))
                         else o)
             _ (NoDup_activeVoxels rhsDist)).
  - destruct (decide (c ∈ Tree.activeVoxels rhsDist)) as [Hin|Hin].
    + apply elem_of_activeVoxels in Hin. by rewrite Hin.
    + destruct (Tree.isValueOn rhsDist c) eqn:E; [|done].
      exfalso. apply Hin. by apply elem_of_activeVoxels.
  - intros s a a' Hne. unfold combine_voxel, voxel2.
    destruct (Qltb _ _); [|done]. cbn [fst snd].
    rewrite voxel_setValueOnly, voxel_setValue.
    by destruct (decide (a' = a)).
  - intros s a. unfold combine_voxel, voxel2. cbn [fst snd].
    change (Tree.voxel s.1 a).1 with (Tree.getValue s.1 a).
    destruct (Qltb _ _); [|done]. cbn [fst snd].
    by rewrite voxel_setValueOnly_eq, voxel_setValue_eq.
Qed.

(** ** Passes that only change signs *)

Lemma Qopp_opp_eq (v : Q) : (- - v)%Q = v.
Proof.
  destruct v as [n d]. unfold Qopp. cbn [Qnum Qden].
  by rewrite Z.opp_involutive.
Qed.

Lemma getValue_setValueOnly {A : Type} (tr : Tree.t A) (c c' : Coord) (v : A) :
  Tree.getValue (Tree.setValueOnly tr c v) c'
  = if decide (c' = c) then v else Tree.getValue tr c'.
Proof.
  pose proof (voxel_setValueOnly tr c c' v) as H.
  apply (f_equal fst) in H. rewrite voxel_value in H. rewrite H.
  by case_decide.
Qed.

Lemma isValueOn_setValueOnly {A : Type} (tr : Tree.t A) (c c' : Coord) (v : A) :
  Tree.isValueOn (Tree.setValueOnly tr c v) c' = Tree.isValueOn tr c'.
Proof.
  pose proof (voxel_setValueOnly tr c c' v) as H.
  apply (f_equal snd) in H. rewrite voxel_on in H. rewrite H.
  case_decide; by subst.
Qed.

(** A loop keeps a reflexive and transitive relation between the state
    it starts from and the state it ends in when every iteration does. *)
Lemma fold_left_rel {S X : Type} (R : S -> S -> Prop) (body : S -> X -> S)
  (l : list X) :
  (forall s, R s s) ->
  (forall a b c, R a b -> R b c -> R a c) ->
  (forall s x, x ∈ l -> R s (body s x)) ->
  forall s, R s (fold_left body l s).
Proof.
  intros Hrefl Htrans. induction l as [|a l IH]; intros Hstep s; simpl.
  - apply Hrefl.
  - apply Htrans with (body s a).
    + apply Hstep. left.
    + apply IH. intros s' x Hx. apply Hstep. by right.
Qed.

(** [d'] is [d] with the values of some voxels outside the intersection
    mask negated: the leaves, the active states and the voxels of the
    mask are those of [d]. *)
Definition signsFlipped (mask : Tree.t bool) (d d' : Tree.t Q) : Prop :=
  Tree.leafs d' = Tree.leafs d
  /\ forall c, Tree.isValueOn d' c = Tree.isValueOn d c
       /\ (Tree.getValue d' c = Tree.getValue d c
           \/ (Tree.isValueOn mask c = false
               /\ Tree.getValue d' c = (- Tree.getValue d c)%Q)).

Lemma signsFlipped_refl (mask : Tree.t bool) (d : Tree.t Q) :
  signsFlipped mask d d.
Proof. split; [done|]. intros c. split; [done|by left]. Qed.

Lemma signsFlipped_trans (mask : Tree.t bool) (a b c : Tree.t Q) :
  signsFlipped mask a b -> signsFlipped mask b c -> signsFlipped mask a c.
Proof.
  intros [Hl1 H1] [Hl2 H2]. split; [congruence|]. intros x.
  destruct (H1 x) as [Ho1 Hv1], (H2 x) as [Ho2 Hv2].
  split; [congruence|].
  destruct Hv1 as [E1|[Hm E1]], Hv2 as [E2|[Hm2 E2]].
  - left. congruence.
  - right. split; [done|]. congruence.
  - right. split; [done|]. congruence.
  - left. rewrite E2, E1. apply Qopp_opp_eq.
Qed.

Lemma signsFlipped_flip (mask : Tree.t bool) (d : Tree.t Q) (c : Coord) :
  Tree.isValueOn mask c = false ->
  signsFlipped mask d (Tree.setValueOnly d c (- Tree.getValue d c)%Q).
Proof.
  intros Hm. split; [done|]. intros x.
  rewrite isValueOn_setValueOnly, getValue_setValueOnly. split; [done|].
  destruct (decide (x = c)) as [->|_]; [by right|by left].
Qed.

Lemma signsFlipped_backtrace (fuel : nat) (mask : Tree.t bool)
  (i j k lastk : Z) (dist : Tree.t Q) :
  signsFlipped mask dist (backtrace fuel mask i j k lastk dist).
Proof.
  revert k dist. induction fuel as [|fuel IH]; intros k dist;
    [apply signsFlipped_refl|].
  cbn [backtrace]. destruct (k >=? lastk); [|apply signsFlipped_refl].
  destruct (Tree.isValueOn mask (i, j, k)) eqn:Em; [apply signsFlipped_refl|].
  eapply signsFlipped_trans; [|apply IH].
  destruct (Qltb (Tree.getValue dist (i, j, k)) 0);
    [by apply signsFlipped_flip|apply signsFlipped_refl].
Qed.

Lemma signsFlipped_sparseScan_visit (mask : Tree.t bool) (ijk : Coord)
  (s : ScanState) :
  signsFlipped mask (scDist s) (scDist (sparseScan_visit mask ijk s)).
Proof.
  unfold sparseScan_visit.
  destruct (Tree.isValueOn (scDist s) ijk); [|apply signsFlipped_refl].
  destruct (Tree.isValueOn mask ijk) eqn:Em; [apply signsFlipped_refl|].
  destruct (lastVoxelWasOut s); cbn [scDist].
  { by apply signsFlipped_flip. }
  destruct (probeOutside (scDist s) ijk); cbn [scDist];
    [|apply signsFlipped_refl].
  eapply signsFlipped_trans; [|apply signsFlipped_backtrace].
  by apply signsFlipped_flip.
Qed.

Lemma signsFlipped_sparseScan_k (fuel : nat) (tr : ContourTracer)
  (mask : Tree.t bool) (slice j k : Z) (st : SliceState) :
  signsFlipped mask (scDist (slScan st))
    (scDist (slScan (sparseScan_k fuel tr mask slice j k st))).
Proof.
  revert k st. induction fuel as [|fuel IH]; intros k st;
    [apply signsFlipped_refl|].
  cbn [sparseScan_k]. destruct (k <=? coord_k (mBBox tr).2);
    [|apply signsFlipped_refl].
  eapply signsFlipped_trans; [|apply IH]. cbn [slScan].
  apply signsFlipped_sparseScan_visit.
Qed.

Lemma signsFlipped_sparseScan_j (fuel : nat) (tr : ContourTracer)
  (mask : Tree.t bool) (slice j : Z) (st : SliceState) :
  signsFlipped mask (scDist (slScan st))
    (scDist (slScan (sparseScan_j fuel tr mask slice j st))).
Proof.
  revert j st. induction fuel as [|fuel IH]; intros j st;
    [apply signsFlipped_refl|].
  cbn [sparseScan_j]. destruct (j <=? coord_j (mBBox tr).2);
    [|apply signsFlipped_refl].
  eapply signsFlipped_trans; [|apply IH].
  match goal with
  | |- context [sparseScan_k ?f ?t ?m ?s ?jj ?kk ?st1] =>
      apply (signsFlipped_sparseScan_k f t m s jj kk st1)
  end.
Qed.

Lemma signsFlipped_sparseScan (fuel : nat) (tr : ContourTracer)
  (mask : Tree.t bool) (slice : Z) (dist : Tree.t Q) :
  signsFlipped mask dist (sparseScan fuel tr mask slice dist).1.
Proof.
  unfold sparseScan. cbn [fst].
  match goal with
  | |- context [sparseScan_j ?f ?t ?m ?s ?jj ?st] =>
      apply (signsFlipped_sparseScan_j f t m s jj st)
  end.
Qed.

Lemma signsFlipped_ContourTracer_call (fuel : nat) (tr : ContourTracer)
  (mask : Tree.t bool) (n last : Z) (dist : Tree.t Q) :
  signsFlipped mask dist (ContourTracer_call fuel tr mask n last dist).
Proof.
  revert n dist. induction fuel as [|fuel IH]; intros n dist;
    [apply signsFlipped_refl|].
  cbn [ContourTracer_call]. destruct (n <? last); [|apply signsFlipped_refl].
  pose proof (signsFlipped_sparseScan (S fuel) tr mask n dist) as Hs.
  destruct (sparseScan (S fuel) tr mask n dist) as [dist' iStep].
  cbn [fst] in Hs. eapply signsFlipped_trans; [exact Hs|apply IH].
Qed.

(** X1. A run of the contour tracer over all slices allocates no leaf and
    changes no active state; it never changes a voxel of the
    intersection mask, and a voxel it changes holds the negation of its
    previous value. *)
Theorem X1_contour_tracer_flips_signs_only (fuel : nat) (tr : ContourTracer)
  (mask : Tree.t bool) (dist : Tree.t Q) (c : Coord) :
  let dist' := ContourTracer_run fuel tr mask dist in
  Tree.leafs dist' = Tree.leafs dist
  /\ Tree.isValueOn dist' c = Tree.isValueOn dist c
  /\ (Tree.getValue dist' c = Tree.getValue dist c
      \/ (Tree.isValueOn mask c = false
          /\ Tree.getValue dist' c = (- Tree.getValue dist c)%Q)).
Proof.
  intros dist'.
  destruct (signsFlipped_ContourTracer_call fuel tr mask
              (coord_i (mBBox tr).1) (Int32 (coord_i (mBBox tr).2 + 1)) dist)
    as [Hl Hc].
  split; [exact Hl|]. apply Hc.
Qed.

(** [d'] is [d] with some active negative voxels outside the
    intersection mask made positive. *)
Definition signsRaised (mask : Tree.t bool) (d d' : Tree.t Q) : Prop :=
  Tree.leafs d' = Tree.leafs d
  /\ forall c, Tree.isValueOn d' c = Tree.isValueOn d c
       /\ (Tree.getValue d' c = Tree.getValue d c
           \/ (Tree.isValueOn mask c = false
               /\ Tree.isValueOn d c = true
               /\ (Tree.getValue d c < 0)%Q
               /\ Tree.getValue d' c = (- Tree.getValue d c)%Q)).

Lemma signsRaised_refl (mask : Tree.t bool) (d : Tree.t Q) :
  signsRaised mask d d.
Proof. split; [done|]. intros c. split; [done|by left]. Qed.

Lemma signsRaised_trans (mask : Tree.t bool) (a b c : Tree.t Q) :
  signsRaised mask a b -> signsRaised mask b c -> signsRaised mask a c.
Proof.
  intros [Hl1 H1] [Hl2 H2]. split; [congruence|]. intros x.
  destruct (H1 x) as [Ho1 Hv1], (H2 x) as [Ho2 Hv2].
  split; [congruence|].
  destruct Hv1 as [E1|[Hm [Hon [Hneg E1]]]], Hv2 as [E2|[Hm2 [Hon2 [Hneg2 E2]]]].
  - left. congruence.
  - right. rewrite <- E1, <- Ho1. repeat split; done.
  - right. repeat split; try done. congruence.
  - exfalso. rewrite E1 in Hneg2. lra.
Qed.

Lemma signsRaised_flip (mask : Tree.t bool) (d : Tree.t Q) (c : Coord) :
  Tree.isValueOn mask c = false ->
  Tree.isValueOn d c = true ->
  (Tree.getValue d c < 0)%Q ->
  signsRaised mask d (Tree.setValueOnly d c (- Tree.getValue d c)%Q).
Proof.
  intros Hm Hon Hneg. split; [done|]. intros x.
  rewrite isValueOn_setValueOnly, getValue_setValueOnly. split; [done|].
  destruct (decide (x = c)) as [->|_]; [by right|by left].
Qed.

Lemma signsRaised_surfaceTracer (fuel : nat) (coordList : list Coord)
  (dist : Tree.t Q) (mask : Tree.t bool) :
  (forall c, c ∈ coordList -> Tree.isValueOn mask c = false) ->
  signsRaised mask dist (surfaceTracer fuel coordList dist mask).
Proof.
  revert coordList dist. induction fuel as [|fuel IH]; intros coordList dist Hl;
    [apply signsRaised_refl|].
  cbn [surfaceTracer]. destruct coordList as [|ijk rest];
    [apply signsRaised_refl|].
  assert (Hrest : forall c, c ∈ rest -> Tree.isValueOn mask c = false).
  { intros c Hc. apply Hl. by right. }
  destruct (Tree.isValueOn dist ijk) eqn:Eon; cbn [negb]; [|by apply IH].
  destruct (Qltb (Tree.getValue dist ijk) 0) eqn:Eneg; cbn [negb];
    [|by apply IH].
  eapply signsRaised_trans.
  - apply signsRaised_flip; [apply Hl; left|exact Eon|by apply Qltb_lt].
  - apply IH. intros c [Hc|Hc]%elem_of_app; [|by apply Hrest].
    apply list_elem_of_In, in_rev, list_elem_of_In in Hc.
    apply list_elem_of_filter in Hc as [Hc _].
    destruct (Tree.isValueOn mask c); [done|done].
Qed.

Lemma signsRaised_propagateSign_voxel (fuel : nat) (mask : Tree.t bool)
  (dist : Tree.t Q) (ijk : Coord) :
  signsRaised mask dist (propagateSign_voxel fuel mask dist ijk).
Proof.
  unfold propagateSign_voxel.
  destruct (Tree.isValueOn mask ijk) eqn:Em; [apply signsRaised_refl|].
  destruct (Qltb (Tree.getValue dist ijk) 0); [|apply signsRaised_refl].
  destruct (existsb _ _); [|apply signsRaised_refl].
  apply signsRaised_surfaceTracer.
  intros c Hc. apply list_elem_of_singleton in Hc. by subst.
Qed.

(** X2. Sign propagation allocates no leaf and changes no active state;
    a voxel it changes was active with a negative value, lies outside
    the intersection mask, and holds the negation of its previous value
    afterwards: no value is ever made negative. *)
Theorem X2_propagateSign_raises_negatives (fuel : nat) (dist : Tree.t Q)
  (mask : Tree.t bool) (c : Coord) :
  let dist' := propagateSign fuel dist mask in
  Tree.leafs dist' = Tree.leafs dist
  /\ Tree.isValueOn dist' c = Tree.isValueOn dist c
  /\ (Tree.getValue dist' c = Tree.getValue dist c
      \/ (Tree.isValueOn mask c = false
          /\ Tree.isValueOn dist c = true
          /\ (Tree.getValue dist c < 0)%Q
          /\ Tree.getValue dist' c = (- Tree.getValue dist c)%Q)).
Proof.
  intros dist'.
  assert (H : signsRaised mask dist dist').
  { unfold dist', propagateSign.
    apply (fold_left_rel (signsRaised mask)).
    - apply signsRaised_refl.
    - apply signsRaised_trans.
    - intros s x _. apply signsRaised_propagateSign_voxel. }
  destruct H as [Hl Hc]. split; [exact Hl|]. apply Hc.
Qed.

(** ** The sign of the intersecting voxels *)

(** The test of [IntersectingVoxelSign::evalVoxel] at [ijk]: the value
    is negative and some neighbour outside the mask is active with a
    non-negative value and a closest-point direction that agrees. *)
Definition flipsIntersecting (index : Tree.t Z) (mask : Tree.t bool)
  (dist : Tree.t Q) (ijk : Coord) : bool :=
  Qltb (Tree.getValue dist ijk) 0
  && existsb
       (fun n =>
          let n_ijk := neighbour ijk n in
          let '(on, n_val) := Tree.probeValue dist n_ijk in
          negb (Tree.isValueOn mask n_ijk) && on && negb (Qltb n_val 0)
          && Qltb 0 (vdot (getClosestPointDir index n_ijk)
                          (getClosestPointDir index ijk)))
       (seq 0 26).

Lemma IntersectingVoxelSign_evalVoxel_unfold (index : Tree.t Z)
  (mask : Tree.t bool) (dist : Tree.t Q) (ijk : Coord) :
  IntersectingVoxelSign_evalVoxel index mask dist ijk
  = if flipsIntersecting index mask dist ijk
    then Tree.setValue DIM dist ijk (- Tree.getValue dist ijk)%Q
    else dist.
Proof.
  unfold IntersectingVoxelSign_evalVoxel, flipsIntersecting.
  by destruct (Qltb (Tree.getValue dist ijk) 0).
Qed.

(** The test reads the voxel itself and voxels outside the mask only. *)
Lemma flipsIntersecting_ext (index : Tree.t Z) (mask : Tree.t bool)
  (d d' : Tree.t Q) (ijk : Coord) :
  (forall x, x = ijk \/ Tree.isValueOn mask x = false ->
             Tree.voxel d' x = Tree.voxel d x) ->
  flipsIntersecting index mask d' ijk = flipsIntersecting index mask d ijk.
Proof.
  intros H. unfold flipsIntersecting.
  assert (Hv : Tree.getValue d' ijk = Tree.getValue d ijk).
  { specialize (H ijk (or_introl eq_refl)). by apply (f_equal fst) in H. }
  rewrite Hv. f_equal.
  induction (seq 0 26) as [|n ns IH]; [done|]. cbn [existsb].
  rewrite IH. f_equal. unfold Tree.probeValue.
  destruct (Tree.isValueOn mask (neighbour ijk n)) eqn:Em; [done|].
  specialize (H (neighbour ijk n) (or_intror Em)).
  apply (f_equal fst) in H as H1. apply (f_equal snd) in H as H2.
  rewrite voxel_value in H1. rewrite voxel_on in H2. by rewrite H1, H2.
Qed.

Lemma voxel_IntersectingVoxelSign_evalVoxel (index : Tree.t Z)
  (mask : Tree.t bool) (dist : Tree.t Q) (ijk c : Coord) :
  Tree.voxel (IntersectingVoxelSign_evalVoxel index mask dist ijk) c
  = if decide (c = ijk)
    then if flipsIntersecting index mask dist ijk
         then ((- Tree.getValue dist ijk)%Q, true) else Tree.voxel dist ijk
    else Tree.voxel dist c.
Proof.
  rewrite IntersectingVoxelSign_evalVoxel_unfold.
  destruct (flipsIntersecting index mask dist ijk).
  - apply voxel_setValue.
  - case_decide; by subst.
Qed.

Lemma voxel_IntersectingVoxelSign_fold (index : Tree.t Z) (mask : Tree.t bool)
  (l : list Coord) (dist : Tree.t Q) (c : Coord) :
  NoDup l ->
  (forall x, x ∈ l -> Tree.isValueOn mask x = true) ->
  Tree.voxel (fold_left (IntersectingVoxelSign_evalVoxel index mask) l dist) c
  = if decide (c ∈ l)
    then if flipsIntersecting index mask dist c
         then ((- Tree.getValue dist c)%Q, true) else Tree.voxel dist c
    else Tree.voxel dist c.
Proof.
  revert dist. induction l as [|a l IH]; intros dist Hnd Hmask.
  { cbn [fold_left]. destruct (decide (c ∈ [])) as [E|_]; [|done].
    by apply elem_of_nil in E. }
  apply NoDup_cons in Hnd as [Ha Hnd]. cbn [fold_left].
  rewrite IH; [|done|intros x Hx; apply Hmask; by right].
  set (d1 := IntersectingVoxelSign_evalVoxel index mask dist a).
  assert (Hd1 : forall x, x <> a -> Tree.voxel d1 x = Tree.voxel dist x).
  { intros x Hx. unfold d1. rewrite voxel_IntersectingVoxelSign_evalVoxel.
    by rewrite decide_False. }
  destruct (decide (c = a)) as [->|Hca].
  - destruct (decide (a ∈ l)) as [?|_]; [done|].
    destruct (decide (a ∈ a :: l)) as [_|E]; [|exfalso; apply E; left].
    unfold d1. rewrite voxel_IntersectingVoxelSign_evalVoxel.
    by rewrite decide_True.
  - assert (Hc : Tree.voxel d1 c = Tree.voxel dist c) by by apply Hd1.
    assert (Hf : flipsIntersecting index mask d1 c
                 = flipsIntersecting index mask dist c).
    { apply flipsIntersecting_ext. intros x [->|Hx]; [done|].
      apply Hd1. intros ->. rewrite Hmask in Hx; [done|left]. }
    assert (Hv : Tree.getValue d1 c = Tree.getValue dist c)
      by by apply (f_equal fst) in Hc.
    rewrite Hf, Hv, Hc.
    destruct (decide (c ∈ l)) as [Hin|Hin].
    + rewrite decide_True; [done|by right].
    + rewrite decide_False; [done|].
      intros [?|?]%elem_of_cons; done.
Qed.

(** X3. The sign pass over the intersecting voxels acts on each voxel
    on its own, whatever the order of the visits: a voxel changes only
    when it is in the mask, holds a negative value and has, among its
    26 neighbours, one outside the mask that was active with a
    non-negative value before the pass and whose closest-point
    direction makes a positive dot product with its own; it then holds
    the negation of its value and is active. *)
Theorem X3_intersecting_voxel_sign_pass (index : Tree.t Z) (mask : Tree.t bool)
  (dist : Tree.t Q) (c : Coord) :
  Tree.voxel (IntersectingVoxelSign_call index mask dist) c
  = if Tree.isValueOn mask c && flipsIntersecting index mask dist c
    then ((- Tree.getValue dist c)%Q, true)
    else Tree.voxel dist c.
Proof.
  unfold IntersectingVoxelSign_call.
  rewrite voxel_IntersectingVoxelSign_fold;
    [|apply NoDup_activeVoxels|intros x Hx; by apply elem_of_activeVoxels].
  destruct (decide (c ∈ Tree.activeVoxels mask)) as [Hin|Hin].
  - apply elem_of_activeVoxels in Hin. by rewrite Hin.
  - destruct (Tree.isValueOn mask c) eqn:E; [|done].
    exfalso. apply Hin. by apply elem_of_activeVoxels.
Qed.

(** ** The cleaner of the intersection mask *)

(** Is some neighbour among the 26 active with a positive value? *)
Definition hasOutsideNeighbour (dist : Tree.t Q) (ijk : Coord) : bool :=
  existsb (fun m => let '(on, value) := Tree.probeValue dist (neighbour ijk m) in
                    on && Qltb 0 value) (seq 0 26).

Lemma isValueOn_setValueOff {A : Type} (tr : Tree.t A) (c c' : Coord) (v : A) :
  Tree.isValueOn (Tree.setValueOff DIM tr c v) c'
  = if decide (c' = c) then false else Tree.isValueOn tr c'.
Proof.
  pose proof (voxel_setValueOff tr c c' v) as H.
  apply (f_equal snd) in H. rewrite voxel_on in H. rewrite H.
  by case_decide.
Qed.

(** X4. After the cleaner of the intersection mask a voxel is in the
    mask exactly when it was in the mask and one of its 26 neighbours is
    active in the distance tree with a positive value: the pass only
    removes voxels from the mask. *)
Theorem X4_intersecting_voxel_cleaner_pass (dist : Tree.t Q)
  (mask : Tree.t bool) (c : Coord) :
  Tree.isValueOn (IntersectingVoxelCleaner_call dist mask) c
  = Tree.isValueOn mask c && hasOutsideNeighbour dist c.
Proof.
  unfold IntersectingVoxelCleaner_call.
  rewrite (fold_left_local (fun m x => Tree.isValueOn m x) _
             (fun x on => on && hasOutsideNeighbour dist x)
             _ (NoDup_activeVoxels mask)).
  - destruct (decide (c ∈ Tree.activeVoxels mask)) as [Hin|Hin]; [done|].
    destruct (Tree.isValueOn mask c) eqn:E; [|done].
    exfalso. apply Hin. by apply elem_of_activeVoxels.
  - intros s a a' Hne. unfold IntersectingVoxelCleaner_voxel.
    destruct (negb _); [|done].
    rewrite isValueOn_setValueOff. by rewrite decide_False.
  - intros s a. unfold IntersectingVoxelCleaner_voxel.
    fold (hasOutsideNeighbour dist a).
    destruct (hasOutsideNeighbour dist a); cbn [negb].
    + by rewrite andb_true_r.
    + rewrite isValueOn_setValueOff. rewrite decide_True by done.
      by rewrite andb_false_r.
Qed.

(** ** 32-bit integers *)


Lemma Int32_small (z : Z) : - 2 ^ 31 <= z < 2 ^ 31 -> Int32 z = z.
Proof. intros H. unfold Int32. rewrite Z.mod_small; lia. Qed.

Lemma Int32_eq (z : Z) : exists k, Int32 z = z + k * 2 ^ 32.
Proof.
  exists (- ((z + 2 ^ 31) / 2 ^ 32)). unfold Int32.
  pose proof (Z.div_mod (z + 2 ^ 31) (2 ^ 32) ltac:(lia)). lia.
Qed.

(** A value in the 32-bit range that differs from [z] by a multiple of
    2^32 is what [z] is reduced to. *)
Lemma Int32_unique (z v : Z) :
  - 2 ^ 31 <= v < 2 ^ 31 -> (exists k, v = z + k * 2 ^ 32) -> Int32 z = v.
Proof.
  intros Hv [k Hk]. unfold Int32.
  replace (z + 2 ^ 31) with (v + 2 ^ 31 + (- k) * 2 ^ 32) by lia.
  rewrite Z_mod_plus_full. rewrite Z.mod_small; lia.
Qed.

(** ** The bounding box and the step table of the contour tracer *)

Lemma Qceiling_div (a t : Z) :
  0 < t -> Qceiling (inject_Z a / inject_Z t) = - ((- a) / t).
Proof.
  intros Ht. unfold Qceiling. f_equal. rewrite Zdiv_Qdiv.
  apply Qfloor_comp. rewrite inject_Z_opp. field.
  intros H. apply (inject_Z_injective t 0) in H. lia.
Qed.

(** The ends of the aligned interval as integers without a bound. *)
Definition alignedLo (t lo : Z) : Z :=
  if lo <=? t then ((- Z.abs lo) / t) * t else (Z.abs lo / t) * t.

Definition alignedHi (t lo hi : Z) : Z :=
  alignedLo t lo + (- ((- Z.abs (hi - alignedLo t lo)) / t)) * t.

(** When the aligned ends and the difference taken on the way fit in 32
    bits, the constructor computes them. *)
Lemma alignAxis_eq (t lo hi : Z) :
  0 < t ->
  - 2 ^ 31 <= alignedLo t lo < 2 ^ 31 ->
  - 2 ^ 31 <= hi - alignedLo t lo < 2 ^ 31 ->
  - 2 ^ 31 <= alignedHi t lo hi < 2 ^ 31 ->
  alignAxis t lo hi = (alignedLo t lo, alignedHi t lo hi).
Proof.
  intros Ht HL HD HH. unfold alignAxis.
  change (Qabs (inject_Z lo)) with (inject_Z (Z.abs lo)).
  rewrite (Qceiling_div (Z.abs lo) t Ht), <- Zdiv_Qdiv.
  assert (EL : (if lo <=? t
                then Int32 (Int32 (- Int32 (- (- Z.abs lo / t))) * t)
                else Int32 (Int32 (Z.abs lo / t) * t))
               = alignedLo t lo).
  { unfold alignedLo in *. destruct (lo <=? t).
    - apply Int32_unique; [exact HL|].
      destruct (Int32_eq (- (- Z.abs lo / t))) as [k0 E0].
      destruct (Int32_eq (- Int32 (- (- Z.abs lo / t)))) as [k1 E1].
      exists (- (k1 - k0) * t). rewrite E1, E0. ring.
    - apply Int32_unique; [exact HL|].
      destruct (Int32_eq (Z.abs lo / t)) as [k0 E0].
      exists (- k0 * t). rewrite E0. ring. }
  cbv zeta. rewrite EL. rewrite (Int32_small _ HD).
  change (Qabs (inject_Z (hi - alignedLo t lo)))
    with (inject_Z (Z.abs (hi - alignedLo t lo))).
  rewrite (Qceiling_div (Z.abs (hi - alignedLo t lo)) t Ht).
  f_equal. apply Int32_unique; [exact HH|].
  set (n := - (- Z.abs (hi - alignedLo t lo) / t)).
  destruct (Int32_eq n) as [k0 E0].
  destruct (Int32_eq (Int32 n * t)) as [k1 E1].
  exists (- (k1 + k0 * t)). rewrite E1, E0. unfold alignedHi. fold n. ring.
Qed.

(** An interval aligned to tiles of side [t] around [[lo, hi]]: both
    ends are multiples of [t], the interval contains [[lo, hi]], the
    upper end is moved by less than a tile and the lower end by at most
    two tiles. *)
Definition tileAligned (t lo hi lo' hi' : Z) : Prop :=
  (t | lo') /\ (t | hi') /\ lo' <= lo /\ hi <= hi'
  /\ hi' - hi < t /\ lo - lo' <= 2 * t.

Lemma aligned_spec (t lo hi : Z) :
  0 < t -> lo <= hi ->
  tileAligned t lo hi (alignedLo t lo) (alignedHi t lo hi).
Proof.
  intros Ht Hle. unfold alignedHi.
  set (lo' := alignedLo t lo).
  assert (Hdiv : (t | lo')).
  { unfold lo', alignedLo. destruct (lo <=? t); apply Z.divide_factor_r. }
  assert (Hlo : lo' <= lo /\ lo - lo' <= 2 * t).
  { unfold lo', alignedLo. destruct (lo <=? t) eqn:E.
    - apply Z.leb_le in E.
      pose proof (Z.mul_div_le (- Z.abs lo) t Ht) as H1.
      pose proof (Z.mul_succ_div_gt (- Z.abs lo) t Ht) as H2.
      destruct (Z.le_gt_cases lo 0) as [Hneg|Hpos].
      + set (q := (- Z.abs lo) / t) in *. nia.
      + assert (Hq : -1 <= (- Z.abs lo) / t)
          by (apply Z.div_le_lower_bound; lia).
        set (q := (- Z.abs lo) / t) in *. nia.
    - apply Z.leb_gt in E.
      pose proof (Z.mul_div_le (Z.abs lo) t Ht) as H1.
      pose proof (Z.mul_succ_div_gt (Z.abs lo) t Ht) as H2.
      set (q := Z.abs lo / t) in *. nia. }
  destruct Hlo as [Hlo1 Hlo2].
  pose proof (Z.mul_div_le (- Z.abs (hi - lo')) t Ht) as H1.
  pose proof (Z.mul_succ_div_gt (- Z.abs (hi - lo')) t Ht) as H2.
  unfold tileAligned.
  split; [exact Hdiv|].
  split; [apply Z.divide_add_r; [done|apply Z.divide_factor_r]|].
  split; [exact Hlo1|].
  set (q := (- Z.abs (hi - lo')) / t) in *.
  repeat split; nia.
Qed.

(** The interval [[lo, hi]] is not empty and leaves room for tiles of
    side [t] in the 32-bit range: two tiles below, one tile above, and
    its length with two more tiles is below 2^31. *)
Definition axisFits (t lo hi : Z) : Prop :=
  lo <= hi /\ - 2 ^ 31 <= lo - 2 * t /\ hi + t <= 2 ^ 31
  /\ hi - lo + 2 * t < 2 ^ 31.

Lemma alignAxis_spec (t lo hi : Z) :
  0 < t -> axisFits t lo hi ->
  tileAligned t lo hi (alignAxis t lo hi).1 (alignAxis t lo hi).2.
Proof.
  intros Ht [Hle [F1 [F2 F3]]].
  pose proof (aligned_spec t lo hi Ht Hle) as Hs.
  rewrite (alignAxis_eq t lo hi Ht); [exact Hs| | |];
    destruct Hs as [_ [_ [A1 [A2 [A3 A4]]]]]; lia.
Qed.

Lemma sum_skipn_bounds (dims : list Z) (n : nat) :
  Forall (fun d => 0 <= d) dims ->
  0 <= fold_right Z.add 0 (skipn n dims) <= fold_right Z.add 0 dims.
Proof.
  intros H. revert n. induction H as [|d dims Hd H IH]; intros n.
  - destruct n; simpl; lia.
  - destruct n as [|n]; cbn [skipn fold_right].
    + specialize (IH 0%nat). rewrite skipn_O in IH. lia.
    + specialize (IH n). lia.
Qed.

(** With non-negative exponents every entry of the step table is at
    least one and at most the first entry, the side of a top-level
    tile. *)
Lemma buildStepSize_bounds (dims : list Z) (n : nat) :
  Forall (fun d => 0 <= d) dims ->
  1 <= nth n (buildStepSize dims) 1 <= nth 0 (buildStepSize dims) 1.
Proof.
  intros H.
  assert (Hn : forall m,
             nth m (buildStepSize dims) 1
             = if (m <? length dims)%nat
               then 2 ^ fold_right Z.add 0 (skipn m dims) else 1).
  { intros m. unfold buildStepSize. destruct (m <? length dims)%nat eqn:E.
    - apply Nat.ltb_lt in E.
      rewrite app_nth1 by (rewrite length_map, length_seq; lia).
      rewrite (nth_indep _ 1 (Z.shiftl 1 (fold_right Z.add 0 (skipn 0 dims))))
        by (rewrite length_map, length_seq; lia).
      rewrite (map_nth (fun idx => Z.shiftl 1 (fold_right Z.add 0 (skipn idx dims)))
                 (seq 0 (length dims)) 0%nat m).
      rewrite seq_nth by lia. cbn [Nat.add].
      apply Z.shiftl_1_l.
    - apply Nat.ltb_ge in E.
      rewrite app_nth2 by (rewrite length_map, length_seq; lia).
      rewrite length_map, length_seq.
      destruct (m - length dims)%nat as [|[|k]]; done. }
  rewrite !Hn.
  pose proof (sum_skipn_bounds dims n H) as [Hs1 Hs2].
  pose proof (sum_skipn_bounds dims 0 H) as [Hs3 _].
  assert (H2 : forall a, 0 <= a -> 1 <= 2 ^ a).
  { intros a Ha. pose proof (Z.pow_pos_nonneg 2 a ltac:(lia) Ha). lia. }
  destruct (n <? length dims)%nat eqn:En, (0 <? length dims)%nat eqn:E0.
  - split; [by apply H2|]. rewrite skipn_O.
    apply Z.pow_le_mono_r; lia.
  - apply Nat.ltb_lt in En. apply Nat.ltb_ge in E0. lia.
  - split; [lia|]. by apply H2.
  - lia.
Qed.

(** X5. With non-negative node exponents and a leaf bounding box that
    on every axis is not empty and leaves room for the top-level tiles
    in the 32-bit range ([axisFits]), the constructor of the contour
    tracer aligns the box to the top-level tiles on every axis: both
    corners become multiples of the tile side [mStepSize[0]], the box
    still contains the leaf bounding box, its maximum moves by less than
    a tile and its minimum by at most two tiles. *)
Theorem X5_contour_tracer_bbox_aligned (dist : Tree.t Q) :
  Forall (fun d => 0 <= d) getNodeLog2Dims ->
  let lo := (evalLeafBoundingBox dist).1 in
  let hi := (evalLeafBoundingBox dist).2 in
  let tr := ContourTracer_new dist in
  let tileDim := nth 0 (mStepSize tr) 1 in
  axisFits tileDim (coord_i lo) (coord_i hi) ->
  axisFits tileDim (coord_j lo) (coord_j hi) ->
  axisFits tileDim (coord_k lo) (coord_k hi) ->
  0 < tileDim
  /\ tileAligned tileDim (coord_i lo) (coord_i hi)
       (coord_i (mBBox tr).1) (coord_i (mBBox tr).2)
  /\ tileAligned tileDim (coord_j lo) (coord_j hi)
       (coord_j (mBBox tr).1) (coord_j (mBBox tr).2)
  /\ tileAligned tileDim (coord_k lo) (coord_k hi)
       (coord_k (mBBox tr).1) (coord_k (mBBox tr).2).
Proof.
  intros Hdims lo hi tr tileDim Hi Hj Hk.
  assert (Htr : mStepSize tr = buildStepSize getNodeLog2Dims
                /\ mBBox tr
                   = (((alignAxis tileDim (coord_i lo) (coord_i hi)).1,
                       (alignAxis tileDim (coord_j lo) (coord_j hi)).1,
                       (alignAxis tileDim (coord_k lo) (coord_k hi)).1),
                      ((alignAxis tileDim (coord_i lo) (coord_i hi)).2,
                       (alignAxis tileDim (coord_j lo) (coord_j hi)).2,
                       (alignAxis tileDim (coord_k lo) (coord_k hi)).2))).
  { unfold tileDim, tr, lo, hi, ContourTracer_new.
    destruct (evalLeafBoundingBox dist) as [l h]. by cbn. }
  destruct Htr as [Hs Hb].
  assert (Ht : 0 < tileDim).
  { unfold tileDim. rewrite Hs.
    pose proof (buildStepSize_bounds getNodeLog2Dims 0 Hdims). lia. }
  split; [exact Ht|]. rewrite Hb. cbn [fst snd coord_i coord_j coord_k].
  repeat split; by apply alignAxis_spec.
Qed.

(** The steps kept by a slice scan stay within [[1, T]] when every
    entry of the step table does. *)
Definition stepsWithin (T : Z) (st : SliceState) : Prop :=
  1 <= step0 st <= T /\ 1 <= step1 st /\ 1 <= step2 st.

Lemma stepsWithin_sparseScan_k (T : Z) (fuel : nat) (tr : ContourTracer)
  (mask : Tree.t bool) (slice j k : Z) (st : SliceState) :
  (forall n, 1 <= nth n (mStepSize tr) 1 <= T) ->
  stepsWithin T st ->
  stepsWithin T (sparseScan_k fuel tr mask slice j k st).
Proof.
  intros Htab. revert k st. induction fuel as [|fuel IH]; intros k st Hst;
    [exact Hst|].
  cbn [sparseScan_k]. destruct (k <=? coord_k (mBBox tr).2); [|exact Hst].
  apply IH. destruct Hst as [H0 [H1 H2]].
  unfold stepsWithin, stepAt. cbn [step0 step1 step2].
  match goal with
  | |- context [nth ?n (mStepSize tr) 1] => pose proof (Htab n)
  end.
  lia.
Qed.

Lemma stepsWithin_sparseScan_j (T : Z) (fuel : nat) (tr : ContourTracer)
  (mask : Tree.t bool) (slice j : Z) (st : SliceState) :
  (forall n, 1 <= nth n (mStepSize tr) 1 <= T) ->
  stepsWithin T st ->
  stepsWithin T (sparseScan_j fuel tr mask slice j st).
Proof.
  intros Htab. revert j st. induction fuel as [|fuel IH]; intros j st Hst;
    [exact Hst|].
  cbn [sparseScan_j]. destruct (j <=? coord_j (mBBox tr).2); [|exact Hst].
  apply IH. apply stepsWithin_sparseScan_k; [exact Htab|].
  destruct Hst as [H0 [H1 H2]].
  unfold stepsWithin, stepAt. cbn [step0 step1 step2].
  match goal with
  | |- context [nth ?n (mStepSize tr) 1] => pose proof (Htab n)
  end.
  lia.
Qed.

(** X6. With non-negative node exponents the scan of a slice returns a
    step of at least one and at most the side of a top-level tile, so
    the loop over the slices always advances. *)
Theorem X6_sparseScan_step_bounds (fuel : nat) (dist0 dist : Tree.t Q)
  (mask : Tree.t bool) (slice : Z) :
  Forall (fun d => 0 <= d) getNodeLog2Dims ->
  let tr := ContourTracer_new dist0 in
  1 <= (sparseScan fuel tr mask slice dist).2 <= nth 0 (mStepSize tr) 1.
Proof.
  intros Hdims tr.
  assert (Hs : mStepSize tr = buildStepSize getNodeLog2Dims).
  { unfold tr, ContourTracer_new.
    destruct (evalLeafBoundingBox dist0) as [l h]. by cbn. }
  assert (Htab : forall n, 1 <= nth n (mStepSize tr) 1
                           <= nth 0 (mStepSize tr) 1).
  { intros n. rewrite Hs. by apply buildStepSize_bounds. }
  unfold sparseScan. cbn [snd].
  match goal with
  | |- context [sparseScan_j ?f ?t ?m ?s ?jj ?st] =>
      pose proof (stepsWithin_sparseScan_j (nth 0 (mStepSize tr) 1)
                    f t m s jj st Htab) as H
  end.
  apply H. unfold stepsWithin, stepAt. cbn [step0 step1 step2].
  match goal with
  | |- context [nth ?n (mStepSize tr) 1] => pose proof (Htab n)
  end.
  lia.
Qed.

(** ** Invariants of the voxelizer *)

Section VoxelizerInvariant.

(** A property of a voxelizer that depends on its distance and index
    trees only and that [evalVoxel] keeps. *)
Variable P : MeshVoxelizer -> Prop.
Hypothesis P_ext : forall vz vz',
  mSqrDistTree vz' = mSqrDistTree vz ->
  mPrimIndexTree vz' = mPrimIndexTree vz -> P vz -> P vz'.
Hypothesis P_evalVoxel : forall vz ijk polyIdx,
  P vz -> P (evalVoxel vz ijk polyIdx).2.

Lemma kept_evalNeighbours (primIdx : Z) (ijk : Coord) (ns : list nat)
  (vz : MeshVoxelizer) :
  P vz -> P (evalNeighbours primIdx ijk ns vz).2.
Proof using P_ext P_evalVoxel.
  revert vz. induction ns as [|n ns IH]; intros vz Hvz; [done|].
  cbn [evalNeighbours].
  destruct (negb (primIdx =? Tree.getValue (mLastPrimTree vz) (neighbour ijk n)));
    [|by apply IH].
  match goal with
  | |- context [evalVoxel ?v ?c ?p] =>
      pose proof (P_evalVoxel v c p) as He;
      destruct (evalVoxel v c p) as [hit vz2]
  end.
  cbn [snd] in He.
  specialize (IH vz2).
  destruct (evalNeighbours primIdx ijk ns vz2) as [found vz3].
  cbn [snd] in *. apply IH, He.
  by eapply P_ext; [| |exact Hvz].
Qed.

Lemma kept_shortEdgeFlood (fuel : nat) (primIdx : Z)
  (coordList : list Coord) (vz : MeshVoxelizer) :
  P vz -> P (shortEdgeFlood fuel primIdx coordList vz).
Proof using P_ext P_evalVoxel.
  revert coordList vz.
  induction fuel as [|fuel IH]; intros coordList vz Hvz; [done|].
  cbn [shortEdgeFlood]. destruct coordList as [|ijk rest]; [done|].
  pose proof (kept_evalNeighbours primIdx ijk (seq 0 26)
                (markIntersection vz ijk)) as He.
  destruct (evalNeighbours primIdx ijk (seq 0 26) (markIntersection vz ijk))
    as [found vz2].
  apply IH, He. by eapply P_ext; [| |exact Hvz].
Qed.

Lemma kept_longEdgeSweep (primIdx : Z) (todo : list Coord)
  (aux : Tree.t bool) (vz : MeshVoxelizer) :
  P vz -> P (longEdgeSweep primIdx todo aux vz).2.
Proof using P_ext P_evalVoxel.
  revert aux vz.
  induction todo as [|ijk todo IH]; intros aux vz Hvz; [done|].
  cbn [longEdgeSweep].
  pose proof (kept_evalNeighbours primIdx ijk (seq 0 26)
                (markIntersection vz ijk)) as He.
  destruct (evalNeighbours primIdx ijk (seq 0 26) (markIntersection vz ijk))
    as [found vz2].
  apply IH, He. by eapply P_ext; [| |exact Hvz].
Qed.

Lemma kept_longEdgeFlood (fuel : nat) (primIdx : Z)
  (aux : Tree.t bool) (vz : MeshVoxelizer) :
  P vz -> P (longEdgeFlood fuel primIdx aux vz).
Proof using P_ext P_evalVoxel.
  revert aux vz.
  induction fuel as [|fuel IH]; intros aux vz Hvz; [done|].
  cbn [longEdgeFlood]. destruct (Tree.activeVoxels aux) as [|x todo]; [done|].
  pose proof (kept_longEdgeSweep primIdx (x :: todo) aux vz Hvz) as Hs.
  destruct (longEdgeSweep primIdx (x :: todo) aux vz) as [aux' vz'].
  by apply IH.
Qed.

Lemma kept_voxelizePrimitive (fuel n : nat) (vz : MeshVoxelizer) :
  P vz -> P (voxelizePrimitive fuel n vz).
Proof using P_ext P_evalVoxel.
  intros Hvz. unfold voxelizePrimitive.
  destruct (shortEdge _ _ _).
  - unfold shortEdgeFill. apply kept_shortEdgeFlood.
    destruct (negb (INVALID_IDX =? at4 (polygon (Z.of_nat n)) 3));
      cbn [fst snd]; repeat apply P_evalVoxel; done.
  - unfold longEdgeFill. apply kept_longEdgeFlood.
    eapply P_ext; [| |apply P_evalVoxel; exact Hvz]; done.
Qed.

Lemma kept_MeshVoxelizer_call (fuel first last : nat) (vz : MeshVoxelizer) :
  P vz -> P (MeshVoxelizer_call fuel first last vz).
Proof using P_ext P_evalVoxel.
  unfold MeshVoxelizer_call.
  generalize (seq first (last - first)) as ns. intros ns. revert vz.
  induction ns as [|n ns IH]; intros vz Hvz; [done|].
  cbn [fold_left]. apply IH. by apply kept_voxelizePrimitive.
Qed.

End VoxelizerInvariant.

(** The index tree names, at every active voxel of the distance tree,
    the primitive whose squared distance is stored there. *)
Definition indexed (o : (Q * bool) * (Z * bool)) (c : Coord) : Prop :=
  o.1.2 = true ->
  o.2.2 = true /\ o.1.1 = (- evalVoxel_dist c o.2.1)%Q.

Lemma indexed_evalVoxel (vz : MeshVoxelizer) (ijk : Coord) (polyIdx : Z) :
  (forall c, indexed (vobs vz c) c) ->
  forall c, indexed (vobs (evalVoxel vz ijk polyIdx).2 c) c.
Proof.
  intros Hvz c. unfold evalVoxel. cbn [snd].
  destruct (Qltb (evalVoxel_dist ijk polyIdx)
                 (Qabs (Tree.getValue (mSqrDistTree vz) ijk))); [|apply Hvz].
  unfold vobs, voxel2. cbn [fst snd mSqrDistTree mPrimIndexTree].
  rewrite !voxel_setValue.
  destruct (decide (c = ijk)) as [->|Hne]; [|apply Hvz].
  intros _. by cbn [fst snd].
Qed.

Lemma indexed_join (lhs rhs : MeshVoxelizer) :
  (forall c, indexed (vobs lhs c) c) ->
  (forall c, indexed (vobs rhs c) c) ->
  forall c, indexed (vobs (join lhs rhs) c) c.
Proof.
  intros Hl Hr c. rewrite vobs_join.
  destruct (Tree.isValueOn (mSqrDistTree rhs) c) eqn:E; [|apply Hl].
  unfold joined. destruct (Qltb _ _); [|apply Hl].
  intros _. cbn [fst snd]. split; [done|].
  by destruct (Hr c E) as [_ Hv].
Qed.

Lemma indexed_parallel_reduce (fuel : nat) (p : Partition)
  (body : MeshVoxelizer) :
  (forall c, indexed (vobs body c) c) ->
  forall c, indexed (vobs (parallel_reduce fuel p body) c) c.
Proof.
  revert body. induction p as [first last|l IHl r IHr]; intros body Hb;
    cbn [parallel_reduce].
  - apply (kept_MeshVoxelizer_call (fun vz => forall c, indexed (vobs vz c) c));
      [|intros vz ijk polyIdx; apply indexed_evalVoxel|exact Hb].
    intros vz vz' H1 H2 H c. unfold vobs. rewrite H1, H2. apply H.
  - apply indexed_join; [by apply IHl|]. apply IHr.
    intros c. unfold vobs, voxel2, MeshVoxelizer_new, indexed.
    cbn [fst snd mSqrDistTree mPrimIndexTree]. by rewrite !voxel_create.
Qed.

(** X7. Whatever cut of the primitive range the scheduler chooses, in
    the reduced voxelizer every active voxel of the squared-distance
    tree is active in the primitive-index tree, and its value is the
    negated squared distance from the voxel centre to the primitive
    that the index tree names there. *)
Theorem X7_voxelizer_index_names_stored_distance (fuel : nat) (p : Partition)
  (c : Coord) :
  let vz := parallel_reduce fuel p MeshVoxelizer_new in
  Tree.isValueOn (mSqrDistTree vz) c = true ->
  Tree.isValueOn (mPrimIndexTree vz) c = true
  /\ Tree.getValue (mSqrDistTree vz) c
     = (- evalVoxel_dist c (Tree.getValue (mPrimIndexTree vz) c))%Q.
Proof.
  intros vz Hon.
  apply (indexed_parallel_reduce fuel p MeshVoxelizer_new); [|exact Hon].
  intros x. unfold vobs, voxel2, MeshVoxelizer_new, indexed.
  cbn [fst snd mSqrDistTree mPrimIndexTree]. by rewrite !voxel_create.
Qed.

(** X8. Voxelizing a range of primitives never moves a stored distance
    away from the surface: with non-negative squared distances, the
    magnitude stored at a voxel after [operator()] is at most the
    magnitude stored there before. *)
Theorem X8_voxelizer_never_increases_magnitude (fuel first last : nat)
  (vz : MeshVoxelizer) (c : Coord) :
  distSqr_nonneg ->
  (Qabs (Tree.getValue (mSqrDistTree (MeshVoxelizer_call fuel first last vz)) c)
   <= Qabs (Tree.getValue (mSqrDistTree vz) c))%Q.
Proof.
  intros Hd. revert c.
  apply (kept_MeshVoxelizer_call
           (fun v => forall c,
              (Qabs (Tree.getValue (mSqrDistTree v) c)
               <= Qabs (Tree.getValue (mSqrDistTree vz) c))%Q)).
  - intros v v' H1 _ H c. rewrite H1. apply H.
  - intros v ijk polyIdx H c. unfold evalVoxel. cbn [snd].
    pose proof (evalVoxel_dist_nonneg ijk polyIdx Hd) as H0.
    destruct (Qltb (evalVoxel_dist ijk polyIdx)
                   (Qabs (Tree.getValue (mSqrDistTree v) ijk))) eqn:E;
      [|apply H].
    apply Qltb_lt in E. cbn [mSqrDistTree].
    pose proof (voxel_setValue (mSqrDistTree v) ijk c
                  (- evalVoxel_dist ijk polyIdx)%Q) as Hv.
    apply (f_equal fst) in Hv. rewrite voxel_value in Hv. rewrite Hv.
    destruct (decide (c = ijk)) as [->|Hne]; cbn [fst]; [|apply H].
    rewrite Qabs_opp, (Qabs_pos _ H0).
    specialize (H ijk). lra.
  - intros x. apply Qle_refl.
Qed.

Lemma setValue_setValue {A : Type} (tr : Tree.t A) (c : Coord) (v w : A) :
  Tree.setValue DIM (Tree.setValue DIM tr c w) c v = Tree.setValue DIM tr c v.
Proof.
  unfold Tree.setValue. cbn [Tree.background Tree.leafs Tree.voxels].
  f_equal; [|apply insert_insert_eq].
  by rewrite (assoc_L (∪)), (idemp_L (∪)).
Qed.

(** X9. Evaluating a voxel against a primitive a second time returns
    the same flag and leaves the voxelizer as the first evaluation left
    it: the cache of last primitives only saves work. *)
Theorem X9_evalVoxel_idempotent (vz : MeshVoxelizer) (ijk : Coord)
  (polyIdx : Z) :
  evalVoxel (evalVoxel vz ijk polyIdx).2 ijk polyIdx = evalVoxel vz ijk polyIdx.
Proof.
  unfold evalVoxel at 2 3. cbn [snd].
  destruct (Qltb (evalVoxel_dist ijk polyIdx)
                 (Qabs (Tree.getValue (mSqrDistTree vz) ijk))) eqn:E.
  - unfold evalVoxel. cbn [mSqrDistTree mPrimIndexTree mIntersectionTree
                            mLastPrimTree].
    match goal with
    | |- context [if ?b then _ else _] => destruct b
    end; [|done].
    by rewrite !setValue_setValue.
  - unfold evalVoxel. by rewrite E.
Qed.

(** ** What a pass of the expander may change *)

Lemma fold_left_inv {S X : Type} (I : S -> Prop) (body : S -> X -> S)
  (l : list X) :
  (forall s x, x ∈ l -> I s -> I (body s x)) ->
  forall s, I s -> I (fold_left body l s).
Proof.
  induction l as [|a l IH]; intros Hstep s Hs; [done|].
  cbn [fold_left]. apply IH.
  - intros s' x Hx. apply Hstep. by right.
  - apply Hstep; [left|done].
Qed.

Lemma isValueOn_leafSetValuesOff {A : Type} (tr : Tree.t A) (origin c : Coord) :
  Tree.isValueOn (Tree.leafSetValuesOff DIM tr origin) c
  = if bool_decide (Tree.leafOrigin DIM c = Tree.leafOrigin DIM origin)
    then false else Tree.isValueOn tr c.
Proof.
  unfold Tree.isValueOn, Tree.leafSetValuesOff. cbn [Tree.voxels].
  rewrite map_lookup_imap.
  destruct (Tree.voxels tr !! c) as [[v on]|]; cbn; case_bool_decide; done.
Qed.

Lemma isValueOn_iterSetValueOff {A : Type} (tr : Tree.t A) (c c' : Coord) :
  Tree.isValueOn (Tree.iterSetValueOff tr c) c'
  = if decide (c' = c) then false else Tree.isValueOn tr c'.
Proof.
  pose proof (voxel_iterSetValueOff tr c c') as H.
  apply (f_equal snd) in H. rewrite voxel_on in H. rewrite H.
  by case_decide.
Qed.

(** The band test that a voxel added by the expander has passed: on
    the exterior side (the voxel did not hold a negative value) the new
    value is below the exterior width, on the interior side it is above
    the negated interior width. *)
Definition inBand (ex inb : Q) (old new : Q) : Prop :=
  if Qltb old 0 then (- inb < new)%Q else (new < ex)%Q.

(** What holds of the trees of the expander during a pass that started
    from [dist], [index] and [mask]: the mask only lost voxels, and a
    voxel of the distance and index trees is either as it was or was
    inactive in the distance tree, active in the mask, and is now
    active in both trees with a value inside the band. *)
Definition expanded (ex inb : Q) (dist : Tree.t Q) (index : Tree.t Z)
  (mask : Tree.t bool) (s : ExpandState) : Prop :=
  forall c,
    (Tree.isValueOn (exMask s) c = true -> Tree.isValueOn mask c = true)
    /\ ((Tree.voxel (exDist s) c = Tree.voxel dist c
         /\ Tree.voxel (exIndex s) c = Tree.voxel index c)
        \/ (Tree.isValueOn dist c = false
            /\ Tree.isValueOn mask c = true
            /\ Tree.isValueOn (exDist s) c = true
            /\ Tree.isValueOn (exIndex s) c = true
            /\ inBand ex inb (Tree.getValue dist c)
                 (Tree.getValue (exDist s) c))).

Lemma expanded_ExpandNB_voxel (ex inb vs : Q) (dist : Tree.t Q)
  (index : Tree.t Z) (mask : Tree.t bool) (s : ExpandState) (p : Coord) :
  Tree.isValueOn mask p = true ->
  expanded ex inb dist index mask s ->
  expanded ex inb dist index mask (ExpandNB_voxel ex inb vs s p).
Proof.
  intros Hp H c. destruct (decide (c = p)) as [->|Hne].
  2: { destruct (ExpandNB_voxel_other ex inb vs s p c Hne) as [E1 [E2 E3]].
       apply (f_equal snd) in E3 as E3o. rewrite !voxel_on in E3o.
       apply (f_equal fst) in E1 as E1v. apply (f_equal snd) in E1 as E1o.
       apply (f_equal snd) in E2 as E2o.
       rewrite !voxel_value in E1v. rewrite !voxel_on in E1o.
       rewrite !voxel_on in E2o.
       rewrite E1, E2, E3o, E1v, E1o, E2o. apply H. }
  rewrite ExpandNB_voxel_unfold.
  destruct (Tree.isValueOn (exDist s) p) eqn:Eon.
  { destruct (H p) as [Hm Hd].
    cbn [exDist exIndex exMask]. split; [|exact Hd].
    rewrite isValueOn_iterSetValueOff. by rewrite decide_True. }
  destruct (H p) as [Hm Hd].
  assert (Hold : Tree.isValueOn dist p = false
                 /\ Tree.getValue (exDist s) p = Tree.getValue dist p).
  { destruct Hd as [[E _]|[_ [_ [E _]]]]; [|congruence].
    apply (f_equal fst) in E as Ev. apply (f_equal snd) in E as Eo.
    rewrite !voxel_value in Ev. rewrite !voxel_on in Eo.
    split; congruence. }
  destruct Hold as [Hoff Hval].
  cbv zeta.
  generalize (getDist vs (exDist s) (exIndex s) p (closestPrimIndex s)).
  intros gd. rewrite Hval.
  destruct (Qltb (Tree.getValue dist p) 0) eqn:Ein; cbn [negb andb].
  - destruct (Qltb gd.1 inb) eqn:Eb; cbn [exDist exIndex exMask].
    + split; [exact Hm|]. right.
      pose proof (voxel_setValue_eq (exDist s) p (- gd.1)%Q) as V1.
      pose proof (voxel_setValue_eq (exIndex s) p gd.2) as V2.
      apply (f_equal fst) in V1 as V1v. apply (f_equal snd) in V1 as V1o.
      apply (f_equal snd) in V2 as V2o.
      rewrite voxel_value in V1v. rewrite voxel_on in V1o.
      rewrite voxel_on in V2o.
      repeat split; try done.
      unfold inBand. rewrite Ein, V1v. apply Qltb_lt in Eb.
      cbn [fst]. lra.
    + split; [|exact Hd].
      rewrite isValueOn_iterSetValueOff. by rewrite decide_True.
  - destruct (Qltb gd.1 ex) eqn:Eb; cbn [exDist exIndex exMask].
    + split; [exact Hm|]. right.
      pose proof (voxel_setValue_eq (exDist s) p gd.1) as V1.
      pose proof (voxel_setValue_eq (exIndex s) p gd.2) as V2.
      apply (f_equal fst) in V1 as V1v. apply (f_equal snd) in V1 as V1o.
      apply (f_equal snd) in V2 as V2o.
      rewrite voxel_value in V1v. rewrite voxel_on in V1o.
      rewrite voxel_on in V2o.
      repeat split; try done.
      unfold inBand. rewrite Ein, V1v. apply Qltb_lt in Eb. exact Eb.
    + split; [|exact Hd].
      rewrite isValueOn_iterSetValueOff. by rewrite decide_True.
Qed.

Lemma elem_of_leafActiveVoxels {A : Type} (tr : Tree.t A) (origin c : Coord) :
  c ∈ leafActiveVoxels tr origin
  <-> Tree.leafOrigin DIM c = Tree.leafOrigin DIM origin
      /\ Tree.isValueOn tr c = true.
Proof.
  unfold leafActiveVoxels.
  rewrite merge_sort_Permutation, list_elem_of_filter.
  by rewrite elem_of_activeVoxels.
Qed.


Lemma expanded_ExpandNB_leaf (ex inb vs : Q) (dist : Tree.t Q)
  (index : Tree.t Z) (mask : Tree.t bool) (s : ExpandState) (origin : Coord) :
  expanded ex inb dist index mask s ->
  expanded ex inb dist index mask (ExpandNB_leaf ex inb vs s origin).
Proof.
  intros H. unfold ExpandNB_leaf.
  destruct (Tree.probeLeaf DIM (exDist s) origin
            && Tree.probeLeaf DIM (exIndex s) origin).
  - assert (Hl : forall x, x ∈ leafActiveVoxels (exMask s) origin ->
                           Tree.isValueOn mask x = true).
    { intros x [_ Hx]%elem_of_leafActiveVoxels. by apply (H x). }
    revert Hl. generalize (leafActiveVoxels (exMask s) origin) as l.
    intros l Hl.
    apply (fold_left_inv (expanded ex inb dist index mask)); [|exact H].
    intros s' x Hx Hs'. apply expanded_ExpandNB_voxel; [by apply Hl|done].
  - intros c. cbn [exDist exIndex exMask]. destruct (H c) as [Hm Hd].
    split; [|exact Hd]. rewrite isValueOn_leafSetValuesOff.
    by case_bool_decide.
Qed.

Lemma expanded_ExpandNB_call (ex inb vs : Q) (dist : Tree.t Q)
  (index : Tree.t Z) (mask : Tree.t bool) :
  expanded ex inb dist index mask
    (fold_left (ExpandNB_leaf ex inb vs) (elements (Tree.leafs mask))
               (mkExpand dist index mask 0)).
Proof.
  apply (fold_left_inv (expanded ex inb dist index mask)).
  - intros s x _. apply expanded_ExpandNB_leaf.
  - intros c. cbn [exDist exIndex exMask]. split; [done|by left].
Qed.

(** X10. A pass of the narrow-band expander only adds voxels: a voxel
    that is active in the distance tree keeps its value and its index
    entry; a voxel that the pass activates was in the mask, is activated
    in the index tree as well, and holds a value inside the band; and
    the mask only loses voxels. *)
Theorem X10_ExpandNB_only_adds (exBandWidth inBandWidth voxelSize : Q)
  (dist : Tree.t Q) (index : Tree.t Z) (mask : Tree.t bool) (c : Coord) :
  let r := ExpandNB_call exBandWidth inBandWidth voxelSize dist index mask in
  (Tree.isValueOn dist c = true ->
     Tree.voxel r.1.1 c = Tree.voxel dist c
     /\ Tree.voxel r.1.2 c = Tree.voxel index c)
  /\ (Tree.isValueOn dist c = false -> Tree.isValueOn r.1.1 c = true ->
        Tree.isValueOn mask c = true
        /\ Tree.isValueOn r.1.2 c = true
        /\ inBand exBandWidth inBandWidth (Tree.getValue dist c)
             (Tree.getValue r.1.1 c))
  /\ (Tree.isValueOn r.2 c = true -> Tree.isValueOn mask c = true).
Proof.
  intros r.
  destruct (expanded_ExpandNB_call exBandWidth inBandWidth voxelSize
              dist index mask c) as [Hm Hd].
  unfold r, ExpandNB_call. cbn [fst snd].
  split; [|split; [|exact Hm]].
  - intros Hon. destruct Hd as [Hd|[Hoff _]]; [exact Hd|congruence].
  - intros Hoff Hon'. destruct Hd as [[E _]|[_ [Hmo [_ [Hio Hb]]]]]; [|done].
    apply (f_equal snd) in E. rewrite !voxel_on in E. congruence.
Qed.

(** ** The mask that a pass of the expander leaves *)








(** ** The dilation loop *)

(** [d'] is [d] with voxels added inside the band: a voxel is as it was,
    or it was inactive and is active now with a value that passed the
    band test against its previous value. *)
Definition grown (ex inb : Q) (d d' : Tree.t Q) : Prop :=
  forall c, Tree.voxel d' c = Tree.voxel d c
            \/ (Tree.isValueOn d c = false
                /\ Tree.isValueOn d' c = true
                /\ inBand ex inb (Tree.getValue d c) (Tree.getValue d' c)).

Lemma grown_trans (ex inb : Q) (a b c : Tree.t Q) :
  grown ex inb a b -> grown ex inb b c -> grown ex inb a c.
Proof.
  intros H1 H2 x. destruct (H1 x) as [E1|[A1 [B1 I1]]],
                           (H2 x) as [E2|[A2 [B2 I2]]].
  - left. congruence.
  - right. apply (f_equal fst) in E1 as Ev. apply (f_equal snd) in E1 as Eo.
    rewrite !voxel_value in Ev. rewrite !voxel_on in Eo.
    rewrite <- Ev, <- Eo. done.
  - right. apply (f_equal fst) in E2 as Ev. apply (f_equal snd) in E2 as Eo.
    rewrite !voxel_value in Ev. rewrite !voxel_on in Eo.
    rewrite Ev, Eo. done.
  - congruence.
Qed.

Lemma grown_ExpandNB_call (ex inb vs : Q) (dist : Tree.t Q)
  (index : Tree.t Z) (mask : Tree.t bool) :
  grown ex inb dist (ExpandNB_call ex inb vs dist index mask).1.1.
Proof.
  intros c. unfold ExpandNB_call. cbn [fst].
  destruct (expanded_ExpandNB_call ex inb vs dist index mask c)
    as [_ [[E _]|[H1 [_ [H2 [_ H3]]]]]]; [by left|by right].
Qed.

Lemma grown_expandLoop (fuel : nat) (ex inb vs : Q) (dist : Tree.t Q)
  (index : Tree.t Z) (mask : Tree.t bool) (log : list Stage) :
  grown ex inb dist (expandLoop fuel ex inb vs dist index mask log).1.1.
Proof.
  revert dist index mask log.
  induction fuel as [|fuel IH]; intros dist index mask log;
    [intros c; by left|].
  rewrite expandLoop_S.
  destruct (0 <? Tree.activeVoxelCount mask)%nat; [|intros c; by left].
  cbv zeta.
  eapply grown_trans; [|apply IH].
  apply grown_ExpandNB_call.
Qed.

(** X12. The narrow-band dilation block only adds voxels to the
    distance grid: every voxel is as it was before the block, or it was
    inactive and is active afterwards with a value that passed the band
    test (below the exterior width on the exterior side, above the
    negated interior width on the interior side). *)
Theorem X12_dilation_only_adds (fuel : nat) (exBandWidth inBandWidth : Q)
  (m : MeshToVolume) (c : Coord) :
  let d := mDistGrid m in
  let d' := mDistGrid (dilationStage fuel exBandWidth inBandWidth m) in
  Tree.voxel d' c = Tree.voxel d c
  \/ (Tree.isValueOn d c = false
      /\ Tree.isValueOn d' c = true
      /\ inBand exBandWidth inBandWidth (Tree.getValue d c)
           (Tree.getValue d' c)).
Proof.
  intros d d'. unfold d', dilationStage. cbv zeta.
  destruct (Qltb (mTransform_voxelSize m * 2) inBandWidth
            || Qltb (mTransform_voxelSize m * 2) exBandWidth); [|by left].
  match goal with
  | |- context [expandLoop ?f ?a ?b ?v ?d1 ?i ?k ?l] =>
      pose proof (grown_expandLoop f a b v d1 i k l c) as HL;
      destruct (expandLoop f a b v d1 i k l) as [[d2 i2] l2]
  end.
  cbn [mDistGrid fst ran] in *.
  pose proof (preallocLeafs_voxel exBandWidth inBandWidth
                (mTransform_voxelSize m) (mDistGrid m) c) as E.
  apply (f_equal fst) in E as Ev. apply (f_equal snd) in E as Eo.
  rewrite !voxel_value in Ev. rewrite !voxel_on in Eo.
  unfold d.
  destruct HL as [HL|HL]; [left; by rewrite HL|right].
  by rewrite Ev, Eo in HL.
Qed.

(** ** The stages of a conversion *)

Lemma occurrences_single_ne (e x : Stage) : e <> x -> occurrences e [x] = 0%nat.
Proof.
  intros Hx. unfold occurrences. cbn [filter list_filter].
  destruct (decide (x = e)) as [->|_]; done.
Qed.

(** In unsigned mode a stage that is neither the voxelization, the
    square root, a stage of the dilation block, the drop of the index
    grid, the trim nor the prune is not run. *)
Lemma unsigned_stage_not_run (fuel : nat) (ex inb : Q) (m : MeshToVolume)
  (e : Stage) :
  e = StContourTrace \/ e = StPropagateSign \/ e = StIntersectingVoxelSign
  \/ e = StIntersectingVoxelCleaner \/ e = StShellVoxelCleaner
  \/ e = StSignedFloodFill \/ e = StBackground \/ e = StRenormalize ->
  occurrences e (mLog (doConvert fuel ex inb true m))
  = occurrences e (mLog m).
Proof.
  intros He.
  assert (Hne : e <> StVoxelize /\ e <> StSqrtAndScale /\ e <> StMaskInit
                /\ e <> StPreallocLeafs /\ e <> StDilate /\ e <> StExpandNB
                /\ e <> StClearIndex /\ e <> StTrim /\ e <> StPrune).
  { repeat destruct He as [He|He]; subst e; repeat split; discriminate. }
  destruct Hne as [N1 [N2 [N3 [N4 [N5 [N6 [N7 [N8 N9]]]]]]]].
  unfold doConvert. simpl negb. cbv iota zeta.
  assert (Hv : occurrences e (mLog (voxelizeStage fuel m))
               = occurrences e (mLog m)).
  { unfold voxelizeStage.
    rewrite mLog_ran, occurrences_app, occurrences_single_ne by done. lia. }
  destruct (Tree.activeVoxelCount (mDistGrid (voxelizeStage fuel m)) =? 0)%nat;
    [done|].
  rewrite mLog_ran, occurrences_app, occurrences_single_ne by done.
  unfold trimStage.
  match goal with
  | |- context [if ?b then ran StTrim ?a ?d ?i ?k else ?a'] =>
      assert (Ht : occurrences e (mLog (if b then ran StTrim a d i k else a'))
                   = occurrences e (mLog a'))
        by (destruct b;
            [rewrite mLog_ran, occurrences_app, occurrences_single_ne by done;
             lia|done]);
      rewrite Ht; clear Ht
  end.
  unfold doConvert_upToTrim. simpl negb. cbv iota zeta.
  match goal with
  | |- context [if ?b then ran StClearIndex ?a ?d ?i ?k else ?a'] =>
      assert (Ht : occurrences e
                     (mLog (if b then ran StClearIndex a d i k else a'))
                   = occurrences e (mLog a'))
        by (destruct b;
            [rewrite mLog_ran, occurrences_app, occurrences_single_ne by done;
             lia|done]);
      rewrite Ht; clear Ht
  end.
  rewrite dilationStage_log by done.
  rewrite mLog_ran, occurrences_app, occurrences_single_ne, Hv by done. lia.
Qed.

(** X13. A conversion to an unsigned distance field runs none of the
    sign stages (contour tracing, sign propagation, the sign of the
    intersecting voxels, the two cleaners), no signed flood fill, no
    rewrite of the background values and no renormalization. *)
Theorem X13_unsigned_skips_sign_stages (fuel : nat) (exBandWidth inBandWidth : Q)
  (m : MeshToVolume) :
  Forall (fun e => occurrences e (mLog (doConvert fuel exBandWidth inBandWidth
                                          true m))
                   = occurrences e (mLog m))
         [StContourTrace; StPropagateSign; StIntersectingVoxelSign;
          StIntersectingVoxelCleaner; StShellVoxelCleaner;
          StSignedFloodFill; StBackground; StRenormalize].
Proof.
  repeat (apply Forall_cons; split;
          [apply unsigned_stage_not_run; auto 10|]).
  apply Forall_nil_2.
Qed.

Lemma mConversionFlags_signSweepLoop (fuel : nat) (m : MeshToVolume) :
  mConversionFlags (signSweepLoop fuel m) = mConversionFlags m.
Proof.
  unfold signSweepLoop.
  apply (fold_left_inv (fun a => mConversionFlags a = mConversionFlags m));
    [|done].
  intros s x _ Hs. exact Hs.
Qed.

Lemma mConversionFlags_dilationStage (fuel : nat) (ex inb : Q)
  (m : MeshToVolume) :
  mConversionFlags (dilationStage fuel ex inb m) = mConversionFlags m.
Proof.
  unfold dilationStage. cbv zeta.
  destruct (Qltb (mTransform_voxelSize m * 2) inb
            || Qltb (mTransform_voxelSize m * 2) ex); [|done].
  by destruct (expandLoop _ _ _ _ _ _ _ _) as [[d2 i2] l2].
Qed.

Lemma index_dropped_before_prune (fuel : nat) (ex inb : Q) (uns : bool)
  (m m2 : MeshToVolume) :
  Z.land GENERATE_PRIM_INDEX_GRID (mConversionFlags m) = 0 ->
  mConversionFlags m2 = mConversionFlags m ->
  Tree.leafs (mIndexGrid (trimStage ex inb
                            (doConvert_upToTrim fuel ex inb uns m2))) = ∅
  /\ Tree.voxels (mIndexGrid (trimStage ex inb
                                (doConvert_upToTrim fuel ex inb uns m2))) = ∅.
Proof.
  intros Hflag H2.
  assert (H6 : Tree.leafs (mIndexGrid (doConvert_upToTrim fuel ex inb uns m2))
               = ∅
               /\ Tree.voxels (mIndexGrid (doConvert_upToTrim fuel ex inb
                                             uns m2)) = ∅).
  { unfold doConvert_upToTrim. cbv zeta.
    match goal with
    | |- context [dilationStage fuel ex inb ?m4] =>
        assert (H5 : mConversionFlags (dilationStage fuel ex inb m4)
                     = mConversionFlags m);
        [rewrite mConversionFlags_dilationStage;
         destruct uns; cbn [negb]; exact H2|];
        generalize dependent (dilationStage fuel ex inb m4)
    end.
    intros m5 H5. rewrite H5, Hflag. by cbn. }
  unfold trimStage. by destruct (_ || _).
Qed.

(** X14. Without the flag [GENERATE_PRIM_INDEX_GRID], a conversion that
    returns a distance grid with active voxels returns an empty
    primitive-index grid: no leaf and no voxel. *)
Theorem X14_index_grid_dropped_without_flag (fuel : nat)
  (exBandWidth inBandWidth : Q) (unsignedDistField : bool) (m : MeshToVolume) :
  Z.land GENERATE_PRIM_INDEX_GRID (mConversionFlags m) = 0 ->
  let r := doConvert fuel exBandWidth inBandWidth unsignedDistField m in
  Tree.activeVoxelCount (mDistGrid r) <> 0%nat ->
  Tree.leafs (mIndexGrid r) = ∅ /\ Tree.voxels (mIndexGrid r) = ∅.
Proof.
  intros Hflag. cbv zeta. unfold doConvert. cbv zeta.
  match goal with
  | |- context [(Tree.activeVoxelCount (mDistGrid ?m2) =? 0)%nat] =>
      assert (H2 : mConversionFlags m2 = mConversionFlags m);
      [|generalize dependent m2]
  end.
  { destruct unsignedDistField; cbn [negb]; [done|].
    unfold cleanStage. cbn [mConversionFlags ran].
    by rewrite mConversionFlags_signSweepLoop. }
  intros m2 H2.
  destruct (Tree.activeVoxelCount (mDistGrid m2) =? 0)%nat eqn:E.
  { apply Nat.eqb_eq in E. done. }
  intros _. cbn [mIndexGrid ran].
  by apply (index_dropped_before_prune fuel _ _ _ m m2).
Qed.

(** ** The conversion of an empty mesh *)

(** The contract of [tbb::parallel_reduce]: the chunks tile the range
    [[a, b)] in order. *)
Fixpoint tiles (p : Partition) (a b : nat) : Prop :=
  match p with
  | Chunk first last => first = a /\ last = b
  | Split l r => exists mid, (a <= mid <= b)%nat /\ tiles l a mid /\ tiles r mid b
  end.

Lemma parallel_reduce_empty_range (fuel : nat) (p : Partition) (a : nat)
  (body : MeshVoxelizer) (c : Coord) :
  tiles p a a ->
  vobs (parallel_reduce fuel p body) c = vobs body c
  /\ Tree.isValueOn (mIntersectionTree (parallel_reduce fuel p body)) c
     = Tree.isValueOn (mIntersectionTree body) c.
Proof.
  revert a body. induction p as [first last|l IHl r IHr]; intros a body Ht;
    cbn [parallel_reduce tiles] in *.
  - destruct Ht as [-> ->]. unfold MeshVoxelizer_call.
    by rewrite Nat.sub_diag.
  - destruct Ht as [mid [Hmid [Hl Hr]]].
    assert (mid = a) as -> by lia.
    destruct (IHl a body Hl) as [L1 L2].
    destruct (IHr a MeshVoxelizer_new Hr) as [R1 R2].
    rewrite vobs_join, isValueOn_join_mask, L2, R2.
    assert (Hoff : Tree.isValueOn
                     (mSqrDistTree (parallel_reduce fuel r MeshVoxelizer_new)) c
                   = false).
    { apply (f_equal (fun o => o.1.2)) in R1. unfold vobs, voxel2 in R1.
      cbn [fst snd] in R1. rewrite !voxel_on in R1. rewrite R1.
      unfold MeshVoxelizer_new, Tree.isValueOn, Tree.create.
      cbn [mSqrDistTree Tree.voxels]. by rewrite lookup_empty. }
    rewrite Hoff. split; [exact L1|].
    unfold MeshVoxelizer_new, Tree.isValueOn, Tree.create.
    cbn [mIntersectionTree Tree.voxels]. rewrite lookup_empty.
    by rewrite orb_false_r.
Qed.

Lemma activeVoxels_nil {A : Type} (tr : Tree.t A) :
  (forall c, Tree.isValueOn tr c = false) -> Tree.activeVoxels tr = [].
Proof.
  intros H. destruct (Tree.activeVoxels tr) as [|x l] eqn:E; [done|].
  assert (Hx : x ∈ Tree.activeVoxels tr) by (rewrite E; left).
  apply elem_of_activeVoxels in Hx. by rewrite H in Hx.
Qed.

Lemma isValueOn_create {A : Type} (bg : A) (c : Coord) :
  Tree.isValueOn (Tree.create bg) c = false.
Proof.
  unfold Tree.isValueOn, Tree.create. cbn [Tree.voxels]. by rewrite lookup_empty.
Qed.

Lemma voxelizeStage_empty (fuel : nat) (voxelSize : Q) (flags sweeps : Z)
  (c : Coord) :
  tiles partition 0 0 ->
  let m1 := voxelizeStage fuel (MeshToVolume_new voxelSize flags sweeps) in
  Tree.isValueOn (mDistGrid m1) c = false
  /\ Tree.isValueOn (mIntersectingVoxelsGrid m1) c = false.
Proof.
  intros Ht m1. unfold m1, voxelizeStage, MeshToVolume_new.
  cbn [mDistGrid mIntersectingVoxelsGrid ran].
  destruct (parallel_reduce_empty_range fuel partition 0 MeshVoxelizer_new c Ht)
    as [R1 R2].
  rewrite !isValueOn_merge, !isValueOn_create, R2. cbn [orb].
  apply (f_equal (fun o => o.1.2)) in R1. unfold vobs, voxel2 in R1.
  cbn [fst snd] in R1. rewrite !voxel_on in R1. rewrite R1.
  unfold MeshVoxelizer_new. cbn [mSqrDistTree mIntersectionTree].
  by rewrite !isValueOn_create.
Qed.

Lemma signSweepLoop_keeps_states (fuel : nat) (m : MeshToVolume) (c : Coord) :
  Tree.isValueOn (mDistGrid (signSweepLoop fuel m)) c
  = Tree.isValueOn (mDistGrid m) c
  /\ mIntersectingVoxelsGrid (signSweepLoop fuel m) = mIntersectingVoxelsGrid m
  /\ mIndexGrid (signSweepLoop fuel m) = mIndexGrid m.
Proof.
  unfold signSweepLoop.
  apply (fold_left_inv
           (fun a => Tree.isValueOn (mDistGrid a) c
                     = Tree.isValueOn (mDistGrid m) c
                     /\ mIntersectingVoxelsGrid a = mIntersectingVoxelsGrid m
                     /\ mIndexGrid a = mIndexGrid m)); [|done].
  intros s x _ [H1 [H2 H3]]. unfold signSweep.
  cbn [mDistGrid mIntersectingVoxelsGrid mIndexGrid ran].
  split; [|done].
  match goal with
  | |- Tree.isValueOn (propagateSign ?f ?d ?k) c = _ =>
      assert (Hp : signsRaised k d (propagateSign f d k))
  end.
  { unfold propagateSign. apply (fold_left_rel (signsRaised _)).
    - apply signsRaised_refl.
    - apply signsRaised_trans.
    - intros s' x' _. apply signsRaised_propagateSign_voxel. }
  destruct Hp as [_ Hp]. destruct (Hp c) as [-> _].
  unfold ContourTracer_run.
  match goal with
  | |- Tree.isValueOn (ContourTracer_call ?f ?t ?k ?a ?b ?d) c = _ =>
      destruct (signsFlipped_ContourTracer_call f t k a b d) as [_ Hc]
  end.
  destruct (Hc c) as [-> _]. exact H1.
Qed.

(** X15. Converting an empty mesh with a fresh converter: when the
    scheduler is handed the empty range of primitives and pruning
    inactive nodes of a tree without active voxels activates none, the
    conversion returns at the test for an empty distance grid.  The
    returned distance grid has no active voxel, and the stages that ran
    are the voxelization and, in signed mode, the sign sweeps, the sign
    of the intersecting voxels and the two cleaners: no value is
    transformed and nothing is dilated, trimmed or pruned. *)
Theorem X15_empty_mesh_returns_early (fuel : nat)
  (exBandWidth inBandWidth voxelSize : Q) (flags sweeps : Z)
  (unsignedDistField : bool) :
  polygonList = [] ->
  tiles partition 0 (length polygonList) ->
  (forall tr : Tree.t Q, Tree.activeVoxelCount tr = 0%nat ->
                         Tree.activeVoxelCount (pruneInactive Q tr) = 0%nat) ->
  let r := doConvert fuel exBandWidth inBandWidth unsignedDistField
             (MeshToVolume_new voxelSize flags sweeps) in
  Tree.activeVoxelCount (mDistGrid r) = 0%nat
  /\ mLog r
     = if unsignedDistField then [StVoxelize]
       else [StVoxelize]
            ++ concat (replicate (Z.to_nat (Z.min sweeps 1))
                                 [StContourTrace; StPropagateSign])
            ++ [StIntersectingVoxelSign; StIntersectingVoxelCleaner;
                StShellVoxelCleaner].
Proof.
  intros Hpoly Ht Hprune r. rewrite Hpoly in Ht. cbn [length] in Ht.
  set (m0 := MeshToVolume_new voxelSize flags sweeps) in *.
  assert (H1 : forall c,
             Tree.isValueOn (mDistGrid (voxelizeStage fuel m0)) c = false
             /\ Tree.isValueOn
                  (mIntersectingVoxelsGrid (voxelizeStage fuel m0)) c = false).
  { intros c. by apply voxelizeStage_empty. }
  assert (L1 : mLog (voxelizeStage fuel m0) = [StVoxelize]) by done.
  unfold r, doConvert. cbv zeta.
  destruct unsignedDistField; cbn [negb].
  - assert (E : Tree.activeVoxelCount (mDistGrid (voxelizeStage fuel m0))
                = 0%nat).
    { unfold Tree.activeVoxelCount. rewrite activeVoxels_nil; [done|].
      intros c. apply H1. }
    rewrite E. cbn [Nat.eqb]. by split.
  - set (m1 := voxelizeStage fuel m0) in *.
    destruct (signSweepLoop_spec fuel m1) as [L2 _].
    assert (Hd : forall c, Tree.isValueOn (mDistGrid (signSweepLoop fuel m1)) c
                           = false).
    { intros c. destruct (signSweepLoop_keeps_states fuel m1 c) as [-> _].
      apply H1. }
    assert (Hk : mIntersectingVoxelsGrid (signSweepLoop fuel m1)
                 = mIntersectingVoxelsGrid m1)
      by apply (signSweepLoop_keeps_states fuel m1 (0, 0, 0)).
    assert (Hc : Tree.activeVoxelCount
                   (mDistGrid (cleanStage (signSweepLoop fuel m1))) = 0%nat
                 /\ mLog (cleanStage (signSweepLoop fuel m1))
                    = mLog (signSweepLoop fuel m1)
                      ++ [StIntersectingVoxelSign; StIntersectingVoxelCleaner;
                          StShellVoxelCleaner]).
    { unfold cleanStage. cbv zeta.
      cbn [mDistGrid mIndexGrid mIntersectingVoxelsGrid mLog ran].
      split; [|by rewrite <- !app_assoc].
      apply Hprune.
      unfold IntersectingVoxelSign_call. rewrite Hk.
      rewrite (activeVoxels_nil (mIntersectingVoxelsGrid m1))
        by (intros c; apply H1).
      cbn [fold_left]. unfold ShellVoxelCleaner_call.
      rewrite (activeVoxels_nil (mDistGrid (signSweepLoop fuel m1))) by exact Hd.
      cbn [fold_left fst]. unfold Tree.activeVoxelCount.
      by rewrite (activeVoxels_nil _ Hd). }
    destruct Hc as [Hc1 Hc2]. rewrite Hc1. cbn [Nat.eqb].
    split; [exact Hc1|]. rewrite Hc2, L2, L1.
    assert (Hs : mSignSweeps m1 = Z.min sweeps 1) by done.
    by rewrite Hs, <- app_assoc.
Qed.

(** ** The band widths of the two entry points *)

Lemma std_max_ge (a b : Q) : (b <= a)%Q -> std_max a b = a.
Proof. intros H. unfold std_max. apply Qltb_ge in H. by rewrite H. Qed.

(** X16. The entry points accept no band width below [1 + 1e-7] voxels:
    any smaller width, zero and negative widths included, gives the
    conversion that the width [1 + 1e-7] gives. *)
Theorem X16_band_width_clamped (fuel : nat) (exBandWidth inBandWidth : Q)
  (m : MeshToVolume) :
  (exBandWidth <= MIN_BAND)%Q -> (inBandWidth <= MIN_BAND)%Q ->
  convertToLevelSet fuel exBandWidth inBandWidth m
  = convertToLevelSet fuel MIN_BAND MIN_BAND m
  /\ convertToUnsignedDistanceField fuel exBandWidth m
     = convertToUnsignedDistanceField fuel MIN_BAND m.
Proof.
  intros He Hi. unfold convertToLevelSet, convertToUnsignedDistanceField.
  cbv zeta. rewrite (std_max_ge MIN_BAND exBandWidth He).
  rewrite (std_max_ge MIN_BAND inBandWidth Hi).
  by rewrite (std_max_ge MIN_BAND MIN_BAND (Qle_refl _)).
Qed.

(** ** The background pass *)

(** The value that [VoxelSignOp] writes. *)
Definition bgValue (ex inb : Q) (v : Q) : Q :=
  if Qltb v 0 then (- inb)%Q else ex.

Lemma bgValue_idemp (ex inb v : Q) :
  (0 <= ex)%Q -> (0 < inb)%Q ->
  bgValue ex inb (bgValue ex inb v) = bgValue ex inb v.
Proof.
  intros Hex Hin. unfold bgValue. destruct (Qltb v 0).
  - assert (Qltb (- inb) 0 = true) as -> by (apply Qltb_lt; lra). done.
  - assert (Qltb ex 0 = false) as -> by (by apply Qltb_ge). done.
Qed.

Lemma voxel_VoxelSignOp_fold (ex inb : Q) (l : list Coord) (tr : Tree.t Q)
  (c : Coord) :
  (0 <= ex)%Q -> (0 < inb)%Q ->
  Tree.voxel (fold_left (VoxelSignOp ex inb) l tr) c
  = if decide (c ∈ l)
    then (bgValue ex inb (Tree.getValue tr c), Tree.isValueOn tr c)
    else Tree.voxel tr c.
Proof.
  intros Hex Hin. revert tr. induction l as [|a l IH]; intros tr.
  { cbn [fold_left]. destruct (decide (c ∈ [])) as [E|_]; [|done].
    by apply elem_of_nil in E. }
  cbn [fold_left]. rewrite IH.
  assert (Hs : Tree.voxel (VoxelSignOp ex inb tr a) c
               = if decide (c = a)
                 then (bgValue ex inb (Tree.getValue tr a), Tree.isValueOn tr a)
                 else Tree.voxel tr c).
  { unfold VoxelSignOp. by rewrite voxel_setValueOnly. }
  apply (f_equal fst) in Hs as Hv. apply (f_equal snd) in Hs as Ho.
  rewrite voxel_value in Hv. rewrite voxel_on in Ho.
  rewrite Hv, Ho, Hs.
  destruct (decide (c = a)) as [->|Hne]; cbn [fst snd].
  - rewrite (bgValue_idemp ex inb _ Hex Hin).
    destruct (decide (a ∈ a :: l)) as [_|E]; [|exfalso; apply E; left].
    by destruct (decide (a ∈ l)).
  - destruct (decide (c ∈ l)) as [Hi|Hi].
    + by rewrite decide_True by by right.
    + rewrite decide_False; [done|]. intros [?|?]%elem_of_cons; done.
Qed.

Lemma elem_of_inactiveVoxels {A : Type} (tr : Tree.t A) (c : Coord) :
  c ∈ inactiveVoxels tr -> Tree.isValueOn tr c = false.
Proof.
  unfold inactiveVoxels. intros H.
  apply list_elem_of_In, in_flat_map in H as [o [_ H]].
  apply list_elem_of_In in H. by apply list_elem_of_filter in H as [H _].
Qed.

(** X17. With an exterior width that is not negative and a positive
    interior width, the background pass gives every inactive voxel of
    an allocated leaf the value [-inBandWidth] when it held a negative
    value and [exBandWidth] otherwise; it changes no other voxel and no
    active state. *)
Theorem X17_background_pass (exBandWidth inBandWidth : Q) (tr : Tree.t Q)
  (c : Coord) :
  (0 <= exBandWidth)%Q -> (0 < inBandWidth)%Q ->
  Tree.voxel (transformValueOff (VoxelSignOp exBandWidth inBandWidth) tr) c
  = if decide (c ∈ inactiveVoxels tr)
    then (if Qltb (Tree.getValue tr c) 0 then (- inBandWidth)%Q
          else exBandWidth, false)
    else Tree.voxel tr c.
Proof.
  intros Hex Hin. unfold transformValueOff.
  rewrite (voxel_VoxelSignOp_fold exBandWidth inBandWidth _ tr c Hex Hin).
  destruct (decide (c ∈ inactiveVoxels tr)) as [Hc|Hc]; [|done].
  by rewrite (elem_of_inactiveVoxels tr c Hc).
Qed.

(** ** The square-root pass *)

Lemma voxel_sqrtAndScale (vs : Q) (uns : bool) (tr : Tree.t Q) (c : Coord) :
  Tree.voxel (transformValueOn (SqrtAndScaleOp vs uns) tr) c
  = if Tree.isValueOn tr c
    then (((if negb uns && Qltb (Tree.getValue tr c) 0 then - vs else vs)
           * sqrt (Qabs (Tree.getValue tr c)))%Q, true)
    else Tree.voxel tr c.
Proof.
  unfold transformValueOn.
  rewrite (fold_left_local Tree.voxel (SqrtAndScaleOp vs uns)
             (fun _ vo => (((if negb uns && Qltb vo.1 0 then - vs else vs)
                            * sqrt (Qabs vo.1))%Q, vo.2))
             _ (NoDup_activeVoxels tr)).
  - destruct (decide (c ∈ Tree.activeVoxels tr)) as [Hin|Hin].
    + apply elem_of_activeVoxels in Hin. rewrite Hin.
      unfold Tree.voxel. cbn [fst snd]. by rewrite Hin.
    + destruct (Tree.isValueOn tr c) eqn:E; [|done].
      exfalso. apply Hin. by apply elem_of_activeVoxels.
  - intros s a a' Hne. rewrite voxel_SqrtAndScaleOp.
    by destruct (decide (a' = a)).
  - intros s a. rewrite voxel_SqrtAndScaleOp.
    by destruct (decide (a = a)).
Qed.

(** X18. With a square root that is not negative and a positive voxel
    size, the signed square-root pass keeps the side that the sign
    stages gave to a voxel: an active voxel with a negative value gets
    a value that is not positive, an active voxel with a value that is
    not negative gets a value that is not negative; inactive voxels
    and all active states are left as they were. *)
Theorem X18_sqrt_pass_keeps_side (voxelSize : Q) (tr : Tree.t Q) (c : Coord) :
  sqrt_nonneg -> (0 < voxelSize)%Q ->
  let tr' := transformValueOn (SqrtAndScaleOp voxelSize false) tr in
  Tree.isValueOn tr' c = Tree.isValueOn tr c
  /\ (Tree.isValueOn tr c = false -> Tree.getValue tr' c = Tree.getValue tr c)
  /\ (Tree.isValueOn tr c = true ->
        ((Tree.getValue tr c < 0)%Q -> (Tree.getValue tr' c <= 0)%Q)
        /\ ((0 <= Tree.getValue tr c)%Q -> (0 <= Tree.getValue tr' c)%Q)).
Proof.
  intros Hs Hvs tr'.
  pose proof (voxel_sqrtAndScale voxelSize false tr c) as H. fold tr' in H.
  apply (f_equal fst) in H as Hv. apply (f_equal snd) in H as Ho.
  rewrite voxel_value in Hv. rewrite voxel_on in Ho.
  pose proof (Hs (Qabs (Tree.getValue tr c))) as H0.
  destruct (Tree.isValueOn tr c) eqn:Eon; cbn [fst snd negb andb] in *.
  - split; [done|]. split; [done|]. intros _. rewrite Hv. split.
    + intros Hneg. apply Qltb_lt in Hneg. rewrite Hneg. nra.
    + intros Hpos. apply Qltb_ge in Hpos. rewrite Hpos. nra.
  - split; [by rewrite Ho, voxel_on|]. split; [|done].
    intros _. by rewrite Hv.
Qed.

(** ** The distance of a voxel without active neighbours *)

(** X19. When none of the 18 neighbours of a voxel is active in the
    distance tree, [getDist] leaves the primitive index as it was
    passed in and returns the distance to that primitive: the expander
    then measures the voxel against the primitive it remembered from
    the previous voxel. *)
Theorem X19_getDist_without_active_neighbour (voxelSize : Q)
  (distAcc : Tree.t Q) (indexAcc : Tree.t Z) (ijk : Coord) (primIndex : Z) :
  (forall n, (n < 18)%nat ->
             Tree.isValueOn distAcc (neighbour ijk n) = false) ->
  getDist voxelSize distAcc indexAcc ijk primIndex
  = (getDistToPrim voxelSize ijk primIndex, primIndex).
Proof.
  intros Hoff.
  pose proof (getDist_scan_spec distAcc indexAcc ijk (seq 0 18)
                (DBL_MAX, primIndex)) as H.
  cbv zeta in H. destruct H as [_ [_ H]].
  assert (E : getDist_scan distAcc indexAcc ijk (seq 0 18) (DBL_MAX, primIndex)
              = (DBL_MAX, primIndex)).
  { destruct H as [H|[n [Hin [Hon _]]]]; [exact H|].
    apply in_seq in Hin. rewrite Hoff in Hon; [done|lia]. }
  pose proof (getDist_fst voxelSize distAcc indexAcc ijk primIndex) as H1.
  pose proof (getDist_snd voxelSize distAcc indexAcc ijk primIndex) as H2.
  rewrite E in H1, H2. cbn [snd] in H1, H2.
  destruct (getDist voxelSize distAcc indexAcc ijk primIndex) as [d i].
  cbn [fst snd] in H1, H2. by rewrite H1, H2.
Qed.

(** ** Termination of the surface tracer *)









(** ** What the shell voxel cleaner leaves *)

(** X21. After the shell-voxel cleaner every active voxel of the
    distance tree was active before and is of one of three kinds: it
    holds a positive value, it is an intersecting voxel, or one of its
    18 neighbours is an intersecting voxel and its value is at most
    [-0.86602540378443861].  Voxels that were inactive, positive or
    intersecting are left as they were in both trees. *)
Theorem X21_shell_cleaner_postcondition (dist : Tree.t Q) (index : Tree.t Z)
  (mask : Tree.t bool) (c : Coord) :
  let r := ShellVoxelCleaner_call dist index mask in
  (Tree.isValueOn r.1 c = true ->
     Tree.isValueOn dist c = true
     /\ ((0 < Tree.getValue r.1 c)%Q
         \/ Tree.isValueOn mask c = true
         \/ ((exists m, (m < 18)%nat
                        /\ Tree.isValueOn mask (neighbour c m) = true)
             /\ (Tree.getValue r.1 c <= - HALF_DIAG)%Q)))
  /\ (Tree.isValueOn dist c = false \/ (0 < Tree.getValue dist c)%Q
      \/ Tree.isValueOn mask c = true ->
      voxel2 r c = voxel2 (dist, index) c).
Proof.
  intros r.
  pose proof (voxel2_ShellVoxelCleaner_call dist index mask c) as H.
  fold r in H.
  assert (Hv : Tree.getValue r.1 c = (voxel2 r c).1.1) by done.
  assert (Ho : Tree.isValueOn r.1 c = (voxel2 r c).1.2) by done.
  rewrite Hv, Ho, H. clear Hv Ho H.
  unfold shellCleaned, voxel2, Tree.voxel. cbn [fst snd].
  destruct (Tree.isValueOn dist c) eqn:Eon.
  2: { split; [done|done]. }
  destruct (Qltb 0 (Tree.getValue dist c)) eqn:Epos.
  { cbn [fst snd]. split; [|done]. intros _. split; [done|].
    left. by apply Qltb_lt. }
  destruct (Tree.isValueOn mask c) eqn:Em.
  { cbn [fst snd]. split; [|done]. intros _. split; [done|]. by right; left. }
  destruct (existsb (fun m => Tree.isValueOn mask (neighbour c m)) (seq 0 18))
    eqn:Ex; cbn [negb fst snd].
  - split.
    + intros _. split; [done|]. right; right. split.
      * by apply existsb_seq_true.
      * destruct (Qltb (- HALF_DIAG) (Tree.getValue dist c)) eqn:E;
          cbn [fst]; [lra|]. by apply Qltb_ge.
    + intros [?|[Hp|?]]; [done| |done].
      apply Qltb_lt in Hp. congruence.
  - split; [done|]. intros [?|[Hp|?]]; [done| |done].
    apply Qltb_lt in Hp. congruence.
Qed.

(** ** The intersecting voxel grid after a conversion *)

Lemma mIntersectingVoxelsGrid_dilationStage (fuel : nat) (ex inb : Q)
  (m : MeshToVolume) :
  mIntersectingVoxelsGrid (dilationStage fuel ex inb m)
  = mIntersectingVoxelsGrid m.
Proof.
  unfold dilationStage. cbv zeta.
  destruct (Qltb (mTransform_voxelSize m * 2) inb
            || Qltb (mTransform_voxelSize m * 2) ex); [|done].
  by destruct (expandLoop _ _ _ _ _ _ _ _) as [[d2 i2] l2].
Qed.

Lemma mIntersectingVoxelsGrid_afterTrim (fuel : nat) (ex inb : Q) (uns : bool)
  (m2 : MeshToVolume) :
  mIntersectingVoxelsGrid (trimStage ex inb
                             (doConvert_upToTrim fuel ex inb uns m2))
  = if uns then mIntersectingVoxelsGrid m2
    else Tree.clear (mIntersectingVoxelsGrid m2).
Proof.
  assert (H : mIntersectingVoxelsGrid (doConvert_upToTrim fuel ex inb uns m2)
              = if uns then mIntersectingVoxelsGrid m2
                else Tree.clear (mIntersectingVoxelsGrid m2)).
  { unfold doConvert_upToTrim. cbv zeta.
    match goal with
    | |- context [dilationStage fuel ex inb ?m4] =>
        pose proof (mIntersectingVoxelsGrid_dilationStage fuel ex inb m4) as Hd;
        assert (H4 : mIntersectingVoxelsGrid m4
                     = if uns then mIntersectingVoxelsGrid m2
                       else Tree.clear (mIntersectingVoxelsGrid m2))
          by (by destruct uns);
        generalize dependent (dilationStage fuel ex inb m4)
    end.
    intros m5 Hd. rewrite <- H4, <- Hd.
    by destruct (negb (negb _)). }
  unfold trimStage. by destruct (_ || _).
Qed.

(** X22. A signed conversion that returns a distance grid with active
    voxels returns an empty intersecting-voxel grid; an unsigned
    conversion never clears it: it returns the grid as the
    voxelization stage left it. *)
Theorem X22_intersecting_grid_after_conversion (fuel : nat)
  (exBandWidth inBandWidth : Q) (m : MeshToVolume) :
  (let r := doConvert fuel exBandWidth inBandWidth false m in
   Tree.activeVoxelCount (mDistGrid r) <> 0%nat ->
   Tree.leafs (mIntersectingVoxelsGrid r) = ∅
   /\ Tree.voxels (mIntersectingVoxelsGrid r) = ∅)
  /\ mIntersectingVoxelsGrid (doConvert fuel exBandWidth inBandWidth true m)
     = mIntersectingVoxelsGrid (voxelizeStage fuel m).
Proof.
  split.
  - cbv zeta. unfold doConvert. cbv zeta. cbn [negb].
    destruct (Tree.activeVoxelCount
                (mDistGrid (cleanStage (signSweepLoop fuel
                                          (voxelizeStage fuel m)))) =? 0)%nat
      eqn:E.
    { apply Nat.eqb_eq in E. done. }
    intros _. cbn [mIntersectingVoxelsGrid ran].
    by rewrite mIntersectingVoxelsGrid_afterTrim.
  - unfold doConvert. cbv zeta. cbn [negb].
    destruct (Tree.activeVoxelCount (mDistGrid (voxelizeStage fuel m)) =? 0)%nat;
      [done|].
    cbn [mIntersectingVoxelsGrid ran].
    by rewrite mIntersectingVoxelsGrid_afterTrim.
Qed.

(** ** Leaf preallocation *)

Lemma preallocAround_leafs (i inLeafs exLeafs : Z)
  (st : Tree.t Q * list Coord) (origin x : Coord) :
  x ∈ Tree.leafs st.1 ->
  x ∈ Tree.leafs (preallocAround i inLeafs exLeafs st origin).1.
Proof.
  unfold preallocAround.
  destruct (Qltb (Tree.getValue st.1 origin) 0 && negb (i <? inLeafs));
    [done|].
  destruct (negb (Qltb (Tree.getValue st.1 origin) 0) && negb (i <? exLeafs));
    [done|].
  destruct origin as [[ox oy] oz].
  match goal with
  | |- context [fold_left ?f ?l st] => generalize l as l0; intros l0
  end.
  revert st. induction l0 as [|a l0 IH]; intros st Hx; [done|].
  cbn [fold_left]. apply IH.
  destruct (Tree.probeLeaf DIM st.1 a); [done|].
  cbn [fst Tree.touchLeaf Tree.leafs]. by apply elem_of_union_r.
Qed.

Lemma preallocLoop_leafs (todo : nat) (i inL exL : Z) (leafs : list Coord)
  (d : Tree.t Q) (x : Coord) :
  x ∈ Tree.leafs d -> x ∈ Tree.leafs (preallocLoop todo i inL exL leafs d).
Proof.
  revert i leafs d. induction todo as [|todo IH]; intros i leafs d Hx; [done|].
  cbn [preallocLoop].
  assert (F : forall l (st : Tree.t Q * list Coord),
            x ∈ Tree.leafs st.1 ->
            x ∈ Tree.leafs (fold_left (preallocAround i inL exL) l st).1).
  { induction l as [|o l IHl]; intros st Hst; [done|]. cbn [fold_left].
    apply IHl. by apply preallocAround_leafs. }
  specialize (F leafs (d, []) Hx).
  destruct (fold_left (preallocAround i inL exL) leafs (d, [])) as [d' new].
  cbn [fst] in F. destruct new as [|n new]; [done|]. by apply IH.
Qed.

(** X23. Leaf preallocation changes no voxel, neither its value nor
    its state, and removes no leaf: it only allocates leaves. *)
Theorem X23_preallocLeafs_only_allocates (exBandWidth inBandWidth voxelSize : Q)
  (dist : Tree.t Q) (c : Coord) :
  let dist' := preallocLeafs exBandWidth inBandWidth voxelSize dist in
  Tree.voxel dist' c = Tree.voxel dist c
  /\ Tree.leafs dist ⊆ Tree.leafs dist'.
Proof.
  intros dist'. split; [apply preallocLeafs_voxel|].
  intros x Hx. unfold dist', preallocLeafs.
  destruct (preallocCounts exBandWidth inBandWidth voxelSize)
    as [[inL exL] numL].
  by apply preallocLoop_leafs.
Qed.

(** ** Termination of the contour tracer *)


Section TracerFuel.

(** A tracer whose step table holds entries between 1 and [T] and whose
    bounding box starts in the 32-bit range and ends more than [T]
    below 2^31 on the two axes of a slice, so that the counters of the
    row and voxel loops never overflow. *)
Variable tr : ContourTracer.
Variable T : Z.
Hypothesis table_bounds : forall n, 1 <= nth n (mStepSize tr) 1 <= T.
Hypothesis low_j : - 2 ^ 31 <= coord_j (mBBox tr).1.
Hypothesis low_k : - 2 ^ 31 <= coord_k (mBBox tr).1.
Hypothesis room_j : coord_j (mBBox tr).2 + T < 2 ^ 31.
Hypothesis room_k : coord_k (mBBox tr).2 + T < 2 ^ 31.





Lemma sparseScan_step_bounds (fuel : nat) (mask : Tree.t bool) (slice : Z)
  (dist : Tree.t Q) :
  1 <= (sparseScan fuel tr mask slice dist).2 <= T.
Proof using table_bounds.
  unfold sparseScan. cbn [snd].
  match goal with
  | |- context [sparseScan_j ?f ?t ?m ?s ?jj ?st] =>
      pose proof (stepsWithin_sparseScan_j T f t m s jj st table_bounds) as H
  end.
  apply H. unfold stepsWithin, stepAt. cbn [step0 step1 step2].
  match goal with
  | |- context [nth ?i (mStepSize tr) 1] => pose proof (table_bounds i)
  end.
  lia.
Qed.


End TracerFuel.




(** ** The voxels that a range of slices may change *)

(** [d'] agrees with [d] on every voxel whose first coordinate is
    outside [[a, b)]. *)
Definition sameOutside (a b : Z) (d d' : Tree.t Q) : Prop :=
  forall c, ~ (a <= coord_i c < b) -> Tree.voxel d' c = Tree.voxel d c.

Lemma sameOutside_refl (a b : Z) (d : Tree.t Q) : sameOutside a b d d.
Proof. by intros c _. Qed.

Lemma sameOutside_trans (a b : Z) (d1 d2 d3 : Tree.t Q) :
  sameOutside a b d1 d2 -> sameOutside a b d2 d3 -> sameOutside a b d1 d3.
Proof. intros H1 H2 c Hc. by rewrite (H2 c Hc), (H1 c Hc). Qed.

Lemma sameOutside_weaken (a b a' b' : Z) (d d' : Tree.t Q) :
  a' <= a -> b <= b' -> sameOutside a b d d' -> sameOutside a' b' d d'.
Proof. intros Ha Hb H c Hc. apply H. lia. Qed.

Lemma sameOutside_write (i j k : Z) (d : Tree.t Q) (v : Q) :
  sameOutside i (i + 1) d (Tree.setValueOnly d (i, j, k) v).
Proof.
  intros c Hc. rewrite voxel_setValueOnly.
  destruct (decide (c = (i, j, k))) as [->|_]; [|done].
  cbn [coord_i fst] in Hc. lia.
Qed.

Lemma sameOutside_backtrace (fuel : nat) (mask : Tree.t bool)
  (i j k lastk : Z) (dist : Tree.t Q) :
  sameOutside i (i + 1) dist (backtrace fuel mask i j k lastk dist).
Proof.
  revert k dist. induction fuel as [|fuel IH]; intros k dist;
    [apply sameOutside_refl|].
  cbn [backtrace]. destruct (k >=? lastk); [|apply sameOutside_refl].
  destruct (Tree.isValueOn mask (i, j, k)); [apply sameOutside_refl|].
  eapply sameOutside_trans; [|apply IH].
  destruct (Qltb (Tree.getValue dist (i, j, k)) 0);
    [apply sameOutside_write|apply sameOutside_refl].
Qed.

Lemma sameOutside_sparseScan_visit (mask : Tree.t bool) (i j k : Z)
  (s : ScanState) :
  sameOutside i (i + 1) (scDist s)
    (scDist (sparseScan_visit mask (i, j, k) s)).
Proof.
  unfold sparseScan_visit.
  destruct (Tree.isValueOn (scDist s) (i, j, k)); [|apply sameOutside_refl].
  destruct (Tree.isValueOn mask (i, j, k)); [apply sameOutside_refl|].
  destruct (lastVoxelWasOut s); cbn [scDist]; [apply sameOutside_write|].
  destruct (probeOutside (scDist s) (i, j, k)); cbn [scDist];
    [|apply sameOutside_refl].
  eapply sameOutside_trans; [apply sameOutside_write|].
  apply sameOutside_backtrace.
Qed.

Lemma sameOutside_sparseScan_k (fuel : nat) (tr : ContourTracer)
  (mask : Tree.t bool) (slice j k : Z) (st : SliceState) :
  sameOutside slice (slice + 1) (scDist (slScan st))
    (scDist (slScan (sparseScan_k fuel tr mask slice j k st))).
Proof.
  revert k st. induction fuel as [|fuel IH]; intros k st;
    [apply sameOutside_refl|].
  cbn [sparseScan_k]. destruct (k <=? coord_k (mBBox tr).2);
    [|apply sameOutside_refl].
  eapply sameOutside_trans; [|apply IH]. cbn [slScan].
  apply sameOutside_sparseScan_visit.
Qed.

Lemma sameOutside_sparseScan_j (fuel : nat) (tr : ContourTracer)
  (mask : Tree.t bool) (slice j : Z) (st : SliceState) :
  sameOutside slice (slice + 1) (scDist (slScan st))
    (scDist (slScan (sparseScan_j fuel tr mask slice j st))).
Proof.
  revert j st. induction fuel as [|fuel IH]; intros j st;
    [apply sameOutside_refl|].
  cbn [sparseScan_j]. destruct (j <=? coord_j (mBBox tr).2);
    [|apply sameOutside_refl].
  eapply sameOutside_trans; [|apply IH].
  match goal with
  | |- context [sparseScan_k ?f ?t ?m ?s ?jj ?kk ?st1] =>
      apply (sameOutside_sparseScan_k f t m s jj kk st1)
  end.
Qed.

Lemma sameOutside_sparseScan (fuel : nat) (tr : ContourTracer)
  (mask : Tree.t bool) (slice : Z) (dist : Tree.t Q) :
  sameOutside slice (slice + 1) dist (sparseScan fuel tr mask slice dist).1.
Proof.
  unfold sparseScan. cbn [fst].
  match goal with
  | |- context [sparseScan_j ?f ?t ?m ?s ?jj ?st] =>
      apply (sameOutside_sparseScan_j f t m s jj st)
  end.
Qed.

Lemma sameOutside_ContourTracer_call (fuel : nat) (tr : ContourTracer) (T : Z)
  (mask : Tree.t bool) (first last : Z) (dist : Tree.t Q) :
  (forall n, 1 <= nth n (mStepSize tr) 1 <= T) ->
  - 2 ^ 31 <= first -> last + T <= 2 ^ 31 ->
  sameOutside first last dist
    (ContourTracer_call fuel tr mask first last dist).
Proof.
  intros Htab Hf Hl. revert first dist Hf. induction fuel as [|fuel IH];
    intros first dist Hf; [apply sameOutside_refl|].
  cbn [ContourTracer_call].
  destruct (first <? last) eqn:E; [|apply sameOutside_refl].
  apply Z.ltb_lt in E.
  pose proof (sameOutside_sparseScan (S fuel) tr mask first dist) as Hs.
  pose proof (sparseScan_step_bounds tr T Htab (S fuel) mask first dist) as Hp.
  destruct (sparseScan (S fuel) tr mask first dist) as [dist' iStep].
  cbn [fst snd] in Hs, Hp. rewrite Int32_small by lia.
  eapply sameOutside_trans.
  - apply (sameOutside_weaken first (first + 1)); [lia|lia|exact Hs].
  - apply (sameOutside_weaken (first + iStep) last); [lia|lia|].
    apply IH. lia.
Qed.

(** X25. With non-negative node exponents, [operator()] of the contour
    tracer on a range of slices [[first, last)] that starts in the
    32-bit range and ends at least a top-level tile below 2^31 (the
    slice counter does not overflow) changes only voxels whose first
    coordinate lies in that range: the ranges that [tbb::parallel_for]
    hands out write to disjoint sets of voxels. *)
Theorem X25_contour_tracer_writes_within_range (fuel : nat)
  (dist0 dist : Tree.t Q) (mask : Tree.t bool) (first last : Z) (c : Coord) :
  Forall (fun d => 0 <= d) getNodeLog2Dims ->
  - 2 ^ 31 <= first ->
  last + nth 0 (mStepSize (ContourTracer_new dist0)) 1 <= 2 ^ 31 ->
  ~ (first <= coord_i c < last) ->
  Tree.voxel (ContourTracer_call fuel (ContourTracer_new dist0) mask
                                 first last dist) c
  = Tree.voxel dist c.
Proof.
  intros Hdims Hf Hl Hc.
  set (tr := ContourTracer_new dist0) in *.
  assert (Hs : mStepSize tr = buildStepSize getNodeLog2Dims).
  { unfold tr, ContourTracer_new.
    destruct (evalLeafBoundingBox dist0) as [l h]. by cbn. }
  assert (Htab : forall i, 1 <= nth i (mStepSize tr) 1
                           <= nth 0 (mStepSize tr) 1).
  { intros i. rewrite Hs. by apply buildStepSize_bounds. }
  by apply (sameOutside_ContourTracer_call fuel tr _ mask first last dist
              Htab Hf Hl).
Qed.

(** ** The intersecting voxels of the voxelizer *)

(** A bound that the squared distances stay below: the background of
    the squared-distance tree. *)
Definition distSqr_bounded : Prop :=
  forall p0 p1 p2 x : Vec3d, (triToPtnDistSqr p0 p1 p2 x < DBL_MAX)%Q.

(** [c] is active in the squared-distance tree of [vz]. *)
Definition activeIn (vz : MeshVoxelizer) (c : Coord) : Prop :=
  Tree.isValueOn (mSqrDistTree vz) c = true.

(** Every voxel of the intersection tree is active in the
    squared-distance tree. *)
Definition maskActive (vz : MeshVoxelizer) : Prop :=
  forall c, Tree.isValueOn (mIntersectionTree vz) c = true -> activeIn vz c.

Section MaskInvariant.

Hypothesis Hd : distSqr_nonneg.
Hypothesis Hb : distSqr_bounded.

Lemma evalVoxel_dist_bounded (ijk : Coord) (polyIdx : Z) :
  (evalVoxel_dist ijk polyIdx < DBL_MAX)%Q.
Proof using Hb.
  unfold evalVoxel_dist.
  destruct (negb (INVALID_IDX =? at4 (polygon polyIdx) 3)); [|apply Hb].
  destruct (Qltb _ _); apply Hb.
Qed.

Lemma evalVoxel_activates (vz : MeshVoxelizer) (ijk : Coord) (polyIdx : Z) :
  partialResult vz ->
  let vz' := (evalVoxel vz ijk polyIdx).2 in
  partialResult vz' /\ activeIn vz' ijk
  /\ (forall c, activeIn vz c -> activeIn vz' c)
  /\ mIntersectionTree vz' = mIntersectionTree vz.
Proof using Hd Hb.
  intros Hvz vz'.
  split; [by apply partialResult_evalVoxel|].
  unfold vz', evalVoxel, activeIn. cbn [snd].
  pose proof (evalVoxel_dist_bounded ijk polyIdx) as Hlt.
  destruct (Qltb (evalVoxel_dist ijk polyIdx)
                 (Qabs (Tree.getValue (mSqrDistTree vz) ijk))) eqn:E.
  - cbn [mSqrDistTree mIntersectionTree].
    assert (Hon : forall c, Tree.isValueOn
                    (Tree.setValue DIM (mSqrDistTree vz) ijk
                       (- evalVoxel_dist ijk polyIdx)%Q) c
                  = if decide (c = ijk) then true
                    else Tree.isValueOn (mSqrDistTree vz) c).
    { intros c. pose proof (voxel_setValue (mSqrDistTree vz) ijk c
                              (- evalVoxel_dist ijk polyIdx)%Q) as V.
      apply (f_equal snd) in V. rewrite voxel_on in V. rewrite V.
      by case_decide. }
    split; [rewrite Hon; by rewrite decide_True|].
    split; [|done]. intros c Hc. rewrite Hon. by case_decide.
  - split; [|done]. apply Qltb_ge in E.
    destruct (Tree.isValueOn (mSqrDistTree vz) ijk) eqn:Eon; [done|].
    exfalso. pose proof (Qabs_good _ (Hvz ijk)) as Hk.
    unfold key, vobs, voxel2, Tree.voxel in Hk. cbn [fst snd] in Hk.
    rewrite Eon in Hk. rewrite Hk in E. lra.
Qed.

(** What a step of the voxelizer keeps: a partial result whose
    intersecting voxels are active, with no active voxel lost. *)
Definition floodStep (vz vz' : MeshVoxelizer) : Prop :=
  partialResult vz' /\ (forall c, activeIn vz c -> activeIn vz' c).

Lemma evalNeighbours_active (primIdx : Z) (ijk : Coord) (ns : list nat)
  (vz : MeshVoxelizer) :
  partialResult vz ->
  let r := evalNeighbours primIdx ijk ns vz in
  floodStep vz r.2
  /\ mIntersectionTree r.2 = mIntersectionTree vz
  /\ (forall c, c ∈ r.1 -> activeIn r.2 c).
Proof using Hd Hb.
  revert vz. induction ns as [|n ns IH]; intros vz Hvz.
  { cbn. split; [by split|]. split; [done|].
    intros c Hc. by apply elem_of_nil in Hc. }
  cbn [evalNeighbours].
  destruct (negb (primIdx =? Tree.getValue (mLastPrimTree vz) (neighbour ijk n)));
    [|by apply IH].
  set (vz1 := mkVoxelizer (mSqrDistTree vz) (mPrimIndexTree vz)
                (mIntersectionTree vz)
                (Tree.setValue DIM (mLastPrimTree vz) (neighbour ijk n) primIdx)).
  assert (H1 : partialResult vz1)
    by (by eapply partialResult_ext; [| |exact Hvz]).
  pose proof (evalVoxel_activates vz1 (neighbour ijk n) primIdx H1) as He.
  cbv zeta in He. destruct (evalVoxel vz1 (neighbour ijk n) primIdx)
    as [hit vz2]. cbn [snd] in He. destruct He as [P2 [A2 [M2 K2]]].
  specialize (IH vz2 P2). cbv zeta in IH.
  destruct (evalNeighbours primIdx ijk ns vz2) as [found vz3].
  cbn [fst snd] in *. destruct IH as [[P3 M3] [K3 F3]].
  split; [split; [exact P3|]|split].
  - intros c Hc. apply M3, M2. exact Hc.
  - by rewrite K3, K2.
  - intros c Hc. destruct hit; [|by apply F3].
    apply elem_of_cons in Hc as [->|Hc]; [by apply M3|by apply F3].
Qed.

Lemma maskActive_mark (vz : MeshVoxelizer) (ijk : Coord) :
  maskActive vz -> activeIn vz ijk -> maskActive (markIntersection vz ijk).
Proof.
  intros Hm Ha c. unfold markIntersection, activeIn.
  cbn [mIntersectionTree mSqrDistTree].
  pose proof (voxel_setActiveState (mIntersectionTree vz) ijk c true) as V.
  apply (f_equal snd) in V. rewrite voxel_on in V. rewrite V.
  destruct (decide (c = ijk)) as [->|_]; [done|]. apply Hm.
Qed.

Lemma maskActive_step (vz vz' : MeshVoxelizer) :
  maskActive vz -> (forall c, activeIn vz c -> activeIn vz' c) ->
  mIntersectionTree vz' = mIntersectionTree vz -> maskActive vz'.
Proof. intros Hm Hmono Hk c Hc. rewrite Hk in Hc. by apply Hmono, Hm. Qed.

Lemma shortEdgeFlood_maskActive (fuel : nat) (primIdx : Z)
  (coordList : list Coord) (vz : MeshVoxelizer) :
  partialResult vz -> maskActive vz ->
  (forall c, c ∈ coordList -> activeIn vz c) ->
  maskActive (shortEdgeFlood fuel primIdx coordList vz).
Proof using Hd Hb.
  revert coordList vz.
  induction fuel as [|fuel IH]; intros coordList vz Hp Hm Hl; [done|].
  cbn [shortEdgeFlood]. destruct coordList as [|ijk rest]; [done|].
  assert (Hp1 : partialResult (markIntersection vz ijk))
    by (by eapply partialResult_ext; [| |exact Hp]).
  pose proof (evalNeighbours_active primIdx ijk (seq 0 26)
                (markIntersection vz ijk) Hp1) as He. cbv zeta in He.
  destruct (evalNeighbours primIdx ijk (seq 0 26) (markIntersection vz ijk))
    as [found vz2]. cbn [fst snd] in He. destruct He as [[P2 M2] [K2 F2]].
  apply IH; [exact P2| |].
  - apply (maskActive_step (markIntersection vz ijk)); [|exact M2|exact K2].
    apply maskActive_mark; [exact Hm|apply Hl; left].
  - intros c [Hc|Hc]%elem_of_app.
    + apply F2. by apply list_elem_of_In, in_rev, list_elem_of_In in Hc.
    + apply M2. apply Hl. by right.
Qed.

Lemma longEdgeSweep_maskActive (primIdx : Z) (todo : list Coord)
  (aux : Tree.t bool) (vz : MeshVoxelizer) :
  partialResult vz -> maskActive vz ->
  (forall c, c ∈ todo -> activeIn vz c) ->
  (forall c, Tree.isValueOn aux c = true -> activeIn vz c) ->
  let r := longEdgeSweep primIdx todo aux vz in
  partialResult r.2 /\ maskActive r.2
  /\ (forall c, Tree.isValueOn r.1 c = true -> activeIn r.2 c).
Proof using Hd Hb.
  revert aux vz.
  induction todo as [|ijk todo IH]; intros aux vz Hp Hm Hl Ha; [done|].
  cbn [longEdgeSweep].
  assert (Hp1 : partialResult (markIntersection vz ijk))
    by (by eapply partialResult_ext; [| |exact Hp]).
  pose proof (evalNeighbours_active primIdx ijk (seq 0 26)
                (markIntersection vz ijk) Hp1) as He. cbv zeta in He.
  destruct (evalNeighbours primIdx ijk (seq 0 26) (markIntersection vz ijk))
    as [found vz2]. cbn [fst snd] in He. destruct He as [[P2 M2] [K2 F2]].
  apply IH; [exact P2| | |].
  - apply (maskActive_step (markIntersection vz ijk)); [|exact M2|exact K2].
    apply maskActive_mark; [exact Hm|apply Hl; left].
  - intros c Hc. apply M2. apply Hl. by right.
  - assert (G : forall (l : list Coord) (a : Tree.t bool),
               (forall c, Tree.isValueOn a c = true -> activeIn vz2 c) ->
               (forall c, c ∈ l -> activeIn vz2 c) ->
               forall c,
                 Tree.isValueOn
                   (fold_left (fun a0 c0 => Tree.setActiveState DIM a0 c0 true)
                              l a) c = true ->
                 activeIn vz2 c).
    { induction l as [|x l IHl]; intros a Ha' Hl' c; [apply Ha'|].
      cbn [fold_left]. apply IHl.
      - intros c' Hc'.
        pose proof (voxel_setActiveState a x c' true) as V.
        apply (f_equal snd) in V. rewrite voxel_on in V. rewrite V in Hc'.
        destruct (decide (c' = x)) as [->|_]; [apply Hl'; left|by apply Ha'].
      - intros c' Hc'. apply Hl'. by right. }
    apply G; [|exact F2].
    intros c Hc. apply M2. rewrite isValueOn_iterSetValueOff in Hc.
    destruct (decide (c = ijk)); [done|]. by apply Ha.
Qed.

Lemma longEdgeFlood_maskActive (fuel : nat) (primIdx : Z)
  (aux : Tree.t bool) (vz : MeshVoxelizer) :
  partialResult vz -> maskActive vz ->
  (forall c, Tree.isValueOn aux c = true -> activeIn vz c) ->
  maskActive (longEdgeFlood fuel primIdx aux vz).
Proof using Hd Hb.
  revert aux vz.
  induction fuel as [|fuel IH]; intros aux vz Hp Hm Ha; [done|].
  cbn [longEdgeFlood].
  destruct (Tree.activeVoxels aux) as [|x todo] eqn:E; [done|].
  pose proof (longEdgeSweep_maskActive primIdx (x :: todo) aux vz Hp Hm) as Hs.
  cbv zeta in Hs.
  destruct (longEdgeSweep primIdx (x :: todo) aux vz) as [aux' vz'].
  cbn [fst snd] in Hs.
  destruct Hs as [P' [M' A']]; [|exact Ha|by apply IH].
  intros c Hc. apply Ha. apply elem_of_activeVoxels. by rewrite E.
Qed.

Lemma voxelizePrimitive_maskActive (fuel n : nat) (vz : MeshVoxelizer) :
  partialResult vz -> maskActive vz ->
  maskActive (voxelizePrimitive fuel n vz).
Proof using Hd Hb.
  intros Hp Hm. unfold voxelizePrimitive.
  destruct (shortEdge _ _ _).
  - unfold shortEdgeFill. cbv zeta.
    set (primIdx := Int32 (Z.of_nat n)).
    assert (Seed : forall (acc : list Coord * MeshVoxelizer) ijk,
               partialResult acc.2 -> maskActive acc.2 ->
               (forall c, c ∈ acc.1 -> activeIn acc.2 c) ->
               let acc' := (ijk :: acc.1, (evalVoxel acc.2 ijk primIdx).2) in
               partialResult acc'.2 /\ maskActive acc'.2
               /\ (forall c, c ∈ acc'.1 -> activeIn acc'.2 c)).
    { intros acc ijk Pa Ma La. cbv zeta. cbn [fst snd].
      destruct (evalVoxel_activates acc.2 ijk primIdx Pa) as [P' [A' [M' K']]].
      split; [exact P'|]. split; [by apply (maskActive_step acc.2)|].
      intros c [->|Hc]%elem_of_cons; [exact A'|]. by apply M', La. }
    assert (S0 : partialResult (([] : list Coord), vz).2
                 /\ maskActive (([] : list Coord), vz).2
                 /\ (forall c, c ∈ (([] : list Coord), vz).1 ->
                               activeIn (([] : list Coord), vz).2 c)).
    { cbn [fst snd]. split; [done|]. split; [done|].
      intros c Hc. by apply elem_of_nil in Hc. }
    destruct S0 as [P0 [M0 L0]].
    pose proof (Seed _ (nearestCoord (point (at4 (polygon (Z.of_nat n)) 0)))
                  P0 M0 L0) as [P1 [M1 L1]].
    pose proof (Seed _ (nearestCoord (point (at4 (polygon (Z.of_nat n)) 1)))
                  P1 M1 L1) as [P2 [M2 L2]].
    pose proof (Seed _ (nearestCoord (point (at4 (polygon (Z.of_nat n)) 2)))
                  P2 M2 L2) as [P3 [M3 L3]].
    destruct (negb (INVALID_IDX =? at4 (polygon (Z.of_nat n)) 3)).
    + pose proof (Seed _ (nearestCoord (point (at4 (polygon (Z.of_nat n)) 3)))
                    P3 M3 L3) as [P4 [M4 L4]].
      by apply shortEdgeFlood_maskActive.
    + by apply shortEdgeFlood_maskActive.
  - unfold longEdgeFill. cbv zeta.
    set (primIdx := Int32 (Z.of_nat n)).
    set (ijk := nearestCoord (point (at4 (polygon (Z.of_nat n)) 0))).
    destruct (evalVoxel_activates vz ijk primIdx Hp) as [P' [A' [M' K']]].
    apply longEdgeFlood_maskActive.
    + by eapply partialResult_ext; [| |exact P'].
    + intros c Hc. cbn [mIntersectionTree] in Hc. unfold activeIn.
      cbn [mSqrDistTree]. rewrite K' in Hc. by apply M', Hm.
    + intros c Hc. unfold activeIn. cbn [mSqrDistTree].
      pose proof (voxel_setActiveState (Tree.create false) ijk c true) as V.
      apply (f_equal snd) in V. rewrite voxel_on in V. rewrite V in Hc.
      destruct (decide (c = ijk)) as [->|_]; [exact A'|].
      by rewrite voxel_create in Hc.
Qed.

Lemma join_maskActive (lhs rhs : MeshVoxelizer) :
  partialResult lhs -> partialResult rhs ->
  maskActive lhs -> maskActive rhs -> maskActive (join lhs rhs).
Proof.
  intros Pl Pr Ml Mr c Hc. rewrite isValueOn_join_mask in Hc.
  unfold activeIn.
  change (Tree.isValueOn (mSqrDistTree (join lhs rhs)) c)
    with (vobs (join lhs rhs) c).1.2.
  rewrite vobs_join.
  destruct (Tree.isValueOn (mSqrDistTree rhs) c) eqn:Er.
  - destruct (joined_cases (vobs rhs c) (vobs lhs c) (Pl c))
      as [[-> _]|[-> Hk]]; [done|].
    destruct ((vobs lhs c).1.2) eqn:El; [done|]. exfalso.
    rewrite (goodVoxel_off _ (Pl c) El) in Hk.
    destruct (goodVoxel_on _ (Pr c) Er) as [_ [_ [Hlt Hkey]]].
    rewrite Hkey in Hlt. lra.
  - apply orb_true_iff in Hc as [Hc|Hc]; [by apply Ml|].
    apply Mr in Hc. unfold activeIn in Hc. congruence.
Qed.

Lemma parallel_reduce_maskActive (fuel : nat) (p : Partition)
  (body : MeshVoxelizer) :
  partialResult body -> maskActive body ->
  maskActive (parallel_reduce fuel p body).
Proof using Hd Hb.
  revert body. induction p as [first last|l IHl r IHr]; intros body Pb Mb;
    cbn [parallel_reduce].
  - unfold MeshVoxelizer_call.
    generalize (seq first (last - first)) as ns. intros ns. revert body Pb Mb.
    induction ns as [|n ns IH]; intros body Pb Mb; [done|].
    cbn [fold_left]. apply IH.
    + by apply partialResult_voxelizePrimitive.
    + by apply voxelizePrimitive_maskActive.
  - apply join_maskActive.
    + by apply partialResult_parallel_reduce.
    + apply partialResult_parallel_reduce; [exact Hd|apply partialResult_new].
    + by apply IHl.
    + apply IHr; [apply partialResult_new|].
      intros c Hc. unfold MeshVoxelizer_new in Hc.
      cbn [mIntersectionTree] in Hc. by rewrite isValueOn_create in Hc.
Qed.

End MaskInvariant.

(** X26. When squared distances are non-negative and below the
    background of the squared-distance tree, every voxel that the
    voxelizer marks as intersecting is an active voxel of the
    squared-distance tree, whatever cut of the primitive range the
    scheduler chooses. *)
Theorem X26_intersecting_voxels_are_active (fuel : nat) (p : Partition)
  (c : Coord) :
  distSqr_nonneg -> distSqr_bounded ->
  let vz := parallel_reduce fuel p MeshVoxelizer_new in
  Tree.isValueOn (mIntersectionTree vz) c = true ->
  Tree.isValueOn (mSqrDistTree vz) c = true.
Proof.
  intros Hd Hb vz Hc.
  apply (parallel_reduce_maskActive Hd Hb fuel p MeshVoxelizer_new);
    [apply partialResult_new| |exact Hc].
  intros x Hx. unfold MeshVoxelizer_new in Hx.
  cbn [mIntersectionTree] in Hx. by rewrite isValueOn_create in Hx.
Qed.

(** ** The band that the trim pass leaves *)

(** X27. After the trim pass every active voxel was active before,
    keeps its value, and holds a value strictly between
    [-inBandWidth] and [+inBandWidth]: the exterior side is cut at the
    interior width too, and the exterior width only serves as the value
    written to the voxels that are turned off. *)
Theorem X27_trim_pass_band (exBandWidth inBandWidth : Q) (tr : Tree.t Q)
  (c : Coord) :
  let tr' := transformValueOn (TrimOp exBandWidth inBandWidth) tr in
  Tree.isValueOn tr' c = true ->
  Tree.voxel tr' c = Tree.voxel tr c
  /\ Tree.isValueOn tr c = true
  /\ (- inBandWidth < Tree.getValue tr' c)%Q
  /\ (Tree.getValue tr' c < inBandWidth)%Q.
Proof.
  intros tr' Hon.
  pose proof (voxel_trim exBandWidth inBandWidth tr c) as H. fold tr' in H.
  destruct (Tree.isValueOn tr c) eqn:Eon.
  2: { apply (f_equal snd) in H. rewrite !voxel_on in H. congruence. }
  assert (Ht : (trimmed exBandWidth inBandWidth (Tree.voxel tr c)).2 = true).
  { rewrite <- H. by rewrite voxel_on. }
  pose proof (trimmed_on _ _ _ Ht) as Hk. rewrite Hk in H.
  split; [exact H|]. split; [done|].
  apply (f_equal fst) in H. rewrite !voxel_value in H. rewrite H.
  unfold trimmed in Hk. rewrite voxel_value in Hk.
  destruct (Qltb (Tree.getValue tr c) 0) eqn:Ein; cbn [negb andb] in Hk.
  - destruct (Qltb (- inBandWidth) (Tree.getValue tr c)) eqn:E1;
      cbn [negb] in Hk.
    + apply Qltb_lt in E1, Ein. split; lra.
    + apply (f_equal snd) in Hk. rewrite voxel_on in Hk. cbn in Hk. congruence.
  - destruct (Qltb (Tree.getValue tr c) inBandWidth) eqn:E1; cbn [negb] in Hk.
    + apply Qltb_lt in E1. apply Qltb_ge in Ein. split; lra.
    + apply (f_equal snd) in Hk. rewrite voxel_on in Hk. cbn in Hk. congruence.
Qed.

End Pipeline.

(** ** Concrete runs *)

(** A leaf side of 8 and the table above. *)
Definition DIM8 : Z := 8.

(** The voxel (0,0,0). *)
Definition c000 : Coord := (0, 0, 0).

(** A distance tree with the active voxel (0,0,0) at [-0.3], an index
    tree that records primitive 7 there, and an intersection mask whose
    only shell voxel is the neighbour (-1,0,0). *)
Definition shell_dist : Tree.t Q :=
  Tree.setValue DIM8 (Tree.create DBL_MAX) (0, 0, 0) (- (3 # 10))%Q.
Definition shell_index : Tree.t Z :=
  Tree.setValue DIM8 (Tree.create (Int32 INVALID_IDX)) (0, 0, 0) 7.
Definition shell_mask : Tree.t bool :=
  Tree.setActiveState DIM8 (Tree.create false) (-1, 0, 0) true.

Lemma C3_shell_cleaner_min_witness :
  Tree.isValueOn shell_dist c000 = true
  /\ Tree.isValueOn shell_mask c000 = false
  /\ (Tree.getValue shell_dist c000 <= 0)%Q
  /\ (exists m, (m < 18)%nat
        /\ Tree.isValueOn shell_mask
             (neighbour COORD_OFFSETS_spec c000 m) = true)
  /\ Tree.isValueOn
       (ShellVoxelCleaner_call DIM8 COORD_OFFSETS_spec shell_dist shell_index
                               shell_mask).1 c000 = true
  /\ (Tree.getValue
        (ShellVoxelCleaner_call DIM8 COORD_OFFSETS_spec shell_dist shell_index
                                shell_mask).1 c000
      == Qmin (Tree.getValue shell_dist c000) (- HALF_DIAG))%Q.
Proof.
  assert (H1 : Tree.isValueOn shell_dist c000 = true)
    by (vm_compute; reflexivity).
  assert (H2 : Tree.isValueOn shell_mask c000 = false)
    by (vm_compute; reflexivity).
  assert (H3 : (Tree.getValue shell_dist c000 <= 0)%Q)
    by (vm_compute; discriminate).
  assert (H4 : exists m, (m < 18)%nat
        /\ Tree.isValueOn shell_mask
             (neighbour COORD_OFFSETS_spec c000 m) = true).
  { exists 0%nat. split; [lia|]. vm_compute. reflexivity. }
  destruct (C3_shell_cleaner_min DIM8 COORD_OFFSETS_spec shell_dist
              shell_index shell_mask c000 H1 H2 H3) as [_ Hmin].
  destruct (Hmin H4) as [Hon [Hval _]].
  repeat split; assumption.
Defined.

(** The claim with "the larger of" fails on the same input: the stored
    value becomes [-0.86602540378443861], while the larger of [-0.3]
    and [-0.86602540378443861] is [-0.3]. *)
Lemma C3_counterexample :
  Tree.isValueOn shell_dist c000 = true
  /\ Tree.isValueOn shell_mask c000 = false
  /\ (Tree.getValue shell_dist c000 <= 0)%Q
  /\ Tree.isValueOn shell_mask (neighbour COORD_OFFSETS_spec c000 0) = true
  /\ Tree.getValue
       (ShellVoxelCleaner_call DIM8 COORD_OFFSETS_spec shell_dist shell_index
                               shell_mask).1 c000
     = (- HALF_DIAG)%Q
  /\ ~ (Tree.getValue
          (ShellVoxelCleaner_call DIM8 COORD_OFFSETS_spec shell_dist
                                  shell_index shell_mask).1 c000
        == Qmax (Tree.getValue shell_dist c000) (- HALF_DIAG))%Q.
Proof.
  split; [vm_compute; reflexivity|].
  split; [vm_compute; reflexivity|].
  split; [vm_compute; discriminate|].
  split; [vm_compute; reflexivity|].
  split; [vm_compute; reflexivity|].
  vm_compute. discriminate.
Qed.

(** A row for the contour tracer: the boundary voxel (0,0,0), then the
    interior active voxels (0,0,1) at [+2], (0,0,2) at [-1] and (0,0,3)
    at [+5]. *)
Definition c001 : Coord := (0, 0, 1).
Definition c002 : Coord := (0, 0, 2).
Definition c003 : Coord := (0, 0, 3).

Definition row_dist : Tree.t Q :=
  Tree.setValue DIM8
    (Tree.setValue DIM8
       (Tree.setValue DIM8
          (Tree.setValue DIM8 (Tree.create DBL_MAX) c000 (- (1 # 2))%Q)
          c001 2%Q)
       c002 (- (1))%Q)
    c003 5%Q.

Definition row_mask : Tree.t bool :=
  Tree.setActiveState DIM8 (Tree.create false) c000 true.

(** The scan state on arrival at (0,0,2). *)
Definition row_state : ScanState := mkScan row_dist false 0.

(** The scan of the row from its start reaches [row_state] at (0,0,2):
    the boundary voxel (0,0,0) clears [lastVoxelWasOut] and sets
    [last_k = 0]; at (0,0,1) neither probed neighbour is outside. *)
Lemma row_state_reached (k0 : Z) :
  sparseScan_visit COORD_OFFSETS_spec row_mask c001
    (sparseScan_visit COORD_OFFSETS_spec row_mask c000
       (mkScan row_dist true k0))
  = row_state.
Proof. vm_compute. reflexivity. Qed.

Lemma C7_contour_backtrace_witness :
  Tree.isValueOn (scDist row_state) c002 = true
  /\ Tree.isValueOn row_mask c002 = false
  /\ lastVoxelWasOut row_state = false
  /\ Tree.isValueOn (scDist row_state) (neighbour COORD_OFFSETS_spec c002 5)
     = true
  /\ (0 < Tree.getValue (scDist row_state)
                        (neighbour COORD_OFFSETS_spec c002 5))%Q
  /\ lastVoxelWasOut (sparseScan_visit COORD_OFFSETS_spec row_mask c002
                                       row_state) = true
  /\ last_k (sparseScan_visit COORD_OFFSETS_spec row_mask c002 row_state) = 2
  /\ Tree.voxel
       (scDist (sparseScan_visit COORD_OFFSETS_spec row_mask c002 row_state))
       c002
     = ((- Tree.getValue (scDist row_state) c002)%Q, true).
Proof.
  assert (H1 : Tree.isValueOn (scDist row_state) c002 = true)
    by (vm_compute; reflexivity).
  assert (H2 : Tree.isValueOn row_mask c002 = false)
    by (vm_compute; reflexivity).
  assert (H3 : lastVoxelWasOut row_state = false) by reflexivity.
  assert (H4 : Tree.isValueOn (scDist row_state)
                 (neighbour COORD_OFFSETS_spec c002 5) = true)
    by (vm_compute; reflexivity).
  assert (H5 : (0 < Tree.getValue (scDist row_state)
                      (neighbour COORD_OFFSETS_spec c002 5))%Q)
    by (vm_compute; reflexivity).
  destruct (C7_contour_backtrace COORD_OFFSETS_spec row_mask c002 row_state
              H1 H2 H3 (or_intror (conj H4 H5))) as [G1 [G2 [G3 _]]].
  repeat split; assumption.
Defined.

(** Read as "every interior active voxel passed on the way back has its
    sign flipped", the claim fails on this row: (0,0,1) is active, is
    not a boundary voxel, lies between [last_k = 0] and k-1 = 1 with no
    boundary voxel in between, and keeps its value [+2]. *)
Lemma C7_counterexample :
  let s' := sparseScan_visit COORD_OFFSETS_spec row_mask c002 row_state in
  Tree.isValueOn (scDist row_state) c002 = true
  /\ Tree.isValueOn row_mask c002 = false
  /\ lastVoxelWasOut row_state = false
  /\ probeOutside COORD_OFFSETS_spec (scDist row_state) c002 = true
  /\ Tree.isValueOn (scDist row_state) c001 = true
  /\ Tree.isValueOn row_mask c001 = false
  /\ last_k row_state <= coord_k c001 <= coord_k c002 - 1
  /\ Tree.getValue (scDist s') c001 = 2%Q
  /\ ~ (Tree.getValue (scDist s') c001
        == - Tree.getValue (scDist row_state) c001)%Q.
Proof.
  cbv zeta.
  split; [vm_compute; reflexivity|].
  split; [vm_compute; reflexivity|].
  split; [reflexivity|].
  split; [vm_compute; reflexivity|].
  split; [vm_compute; reflexivity|].
  split; [vm_compute; reflexivity|].
  split; [vm_compute; split; discriminate|].
  split; [vm_compute; reflexivity|].
  vm_compute. discriminate.
Qed.

(** *** Stand-ins for the collaborators

    The functions of the pipeline take the geometry kit, the tree
    methods and the scheduler's cut as parameters.  The stand-ins below
    are used only to run them on small inputs. *)

(** The squared distance to the first vertex: the triangle distance for
    a triangle whose three vertices coincide. *)
Definition demo_triToPtnDistSqr (p0 p1 p2 x : Vec3d) : Q :=
  let d := vsub x p0 in vdot d d.

Definition demo_sTri3ToPointDistSqr (p0 p1 p2 x : Vec3d) : Q * (Q * Q) :=
  (demo_triToPtnDistSqr p0 p1 p2 x, (1%Q, 0%Q)).

(** Rounding to the nearest lattice site. *)
Definition demo_nearestCoord (p : Vec3d) : Coord :=
  (Qfloor (at3 p 0 + (1 # 2)), Qfloor (at3 p 1 + (1 # 2)),
   Qfloor (at3 p 2 + (1 # 2))).

(** One primitive: a triangle collapsed to the point (0,0,0). *)
Definition demo_points : list Vec3d := [(0%Q, 0%Q, 0%Q)].
Definition demo_polygons : list Vec4I := [(0, 0, 0, INVALID_IDX)].

(** A tree of leaves only: every value sits at depth 0 and the scan
    advances by single voxels inside the box of the leaf at the
    origin. *)
Definition demo_log2dims : list Z := [3].
Definition demo_bbox (tr : Tree.t Q) : Coord * Coord := ((0, 0, 0), (7, 7, 7)).
Definition demo_depth (tr : Tree.t Q) (c : Coord) : nat := 0.

(** Face dilation of a mask. *)
Definition demo_dilateVoxels (mask : Tree.t bool) : Tree.t bool :=
  fold_left
    (fun acc c =>
       fold_left (fun a n => Tree.setActiveState DIM8 a
                               (neighbour COORD_OFFSETS_spec c n) true)
                 (seq 0 6) acc)
    (Tree.activeVoxels mask) mask.

(** Tree passes that leave the flattened tree as it is. *)
Definition demo_keep (A : Type) (tr : Tree.t A) : Tree.t A := tr.
Definition demo_sweepTiles (ex inb : Q) (tr : Tree.t Q) : Tree.t Q := tr.

(** The pipeline with the stand-ins plugged in. *)
Definition demo_doConvert : nat -> Q -> Q -> bool -> MeshToVolume -> MeshToVolume :=
  doConvert DIM8 COORD_OFFSETS_spec demo_nearestCoord demo_triToPtnDistSqr
    sqrt_floor demo_points demo_polygons demo_sTri3ToPointDistSqr
    (fun v => v) (fun _ _ => 1%Q) demo_log2dims demo_bbox demo_depth
    demo_keep (demo_keep Q) demo_sweepTiles demo_dilateVoxels (demo_keep Q)
    (Chunk 0 1).

Definition demo_convertToUnsignedDistanceField
  : nat -> Q -> MeshToVolume -> MeshToVolume :=
  convertToUnsignedDistanceField DIM8 COORD_OFFSETS_spec demo_nearestCoord
    demo_triToPtnDistSqr sqrt_floor demo_points demo_polygons
    demo_sTri3ToPointDistSqr (fun v => v) (fun _ _ => 1%Q) demo_log2dims
    demo_bbox demo_depth demo_keep (demo_keep Q) demo_sweepTiles
    demo_dilateVoxels (demo_keep Q) (Chunk 0 1).

Definition demo_dilationStage : nat -> Q -> Q -> MeshToVolume -> MeshToVolume :=
  dilationStage DIM8 COORD_OFFSETS_spec demo_triToPtnDistSqr sqrt_floor
    demo_points demo_polygons demo_keep demo_dilateVoxels.

(** A converter with voxel size 1 that was asked for three sign
    sweeps. *)
Definition demo_converter : MeshToVolume := MeshToVolume_new 1 0 3.

(** Asked for three sweeps, the converter keeps [min(3, 1) = 1] and the
    loop runs one alternation of contour tracing and sign
    propagation. *)
Lemma signSweeps_three_runs_one :
  mSignSweeps demo_converter = 1
  /\ mLog (signSweepLoop COORD_OFFSETS_spec demo_log2dims demo_bbox
                         demo_depth 20 demo_converter)
     = [StContourTrace; StPropagateSign].
Proof. split; vm_compute; reflexivity. Qed.

(** Asked for no sweep, the converter keeps [min(0, 1) = 0] and the
    loop does not run. *)
Lemma signSweeps_zero_runs_none :
  mSignSweeps (MeshToVolume_new 1 0 0) = 0
  /\ mLog (signSweepLoop COORD_OFFSETS_spec demo_log2dims demo_bbox
                         demo_depth 20 (MeshToVolume_new 1 0 0))
     = [].
Proof. split; vm_compute; reflexivity. Qed.

Lemma C8_unsigned_nonnegative_witness :
  (forall (tr : Tree.t Q) (c : Coord),
     Tree.isValueOn (demo_keep Q tr) c = true ->
     Tree.voxel (demo_keep Q tr) c = Tree.voxel tr c)
  /\ (0 < mTransform_voxelSize demo_converter)%Q
  /\ (Tree.isValueOn
        (mDistGrid (demo_convertToUnsignedDistanceField 8 3 demo_converter))
        c000 = false
      \/ (0 <= Tree.getValue
                 (mDistGrid
                    (demo_convertToUnsignedDistanceField 8 3 demo_converter))
                 c000)%Q).
Proof.
  assert (H1 : forall (tr : Tree.t Q) (c : Coord),
            Tree.isValueOn (demo_keep Q tr) c = true ->
            Tree.voxel (demo_keep Q tr) c = Tree.voxel tr c)
    by (intros tr c _; reflexivity).
  assert (H2 : (0 < mTransform_voxelSize demo_converter)%Q)
    by (vm_compute; reflexivity).
  split; [exact H1|]. split; [exact H2|].
  exact (C8_unsigned_nonnegative DIM8 COORD_OFFSETS_spec demo_nearestCoord
           demo_triToPtnDistSqr sqrt_floor demo_points demo_polygons
           demo_sTri3ToPointDistSqr (fun v => v) (fun _ _ => 1%Q)
           demo_log2dims demo_bbox demo_depth demo_keep (demo_keep Q)
           demo_sweepTiles demo_dilateVoxels (demo_keep Q) (Chunk 0 1)
           H1 8%nat 3%Q demo_converter c000 H2).
Defined.

Lemma C9_dilation_guard_witness :
  ((2 <= mTransform_voxelSize demo_converter * 2)%Q
   /\ (2 <= mTransform_voxelSize demo_converter * 2)%Q)
  /\ demo_dilationStage 8 2 2 demo_converter = demo_converter.
Proof.
  assert (H : (2 <= mTransform_voxelSize demo_converter * 2)%Q
              /\ (2 <= mTransform_voxelSize demo_converter * 2)%Q)
    by (split; vm_compute; discriminate).
  split; [exact H|].
  exact (proj1 (C9_dilation_guard DIM8 COORD_OFFSETS_spec demo_triToPtnDistSqr
                  sqrt_floor demo_points demo_polygons demo_keep
                  demo_dilateVoxels 8%nat 2%Q 2%Q demo_converter) H).
Defined.

(** A mesh of one triangle, (0,0,0), (150,0,0), (-150,0,0). *)
Definition wide_points : list Vec3d :=
  [(0%Q, 0%Q, 0%Q); (150%Q, 0%Q, 0%Q); ((- (150))%Q, 0%Q, 0%Q)].
Definition wide_polygons : list Vec4I := [(0, 1, 2, INVALID_IDX)].

(** The claim with "the extents of the (v0,v1,v2) triangle" fails for
    the triangle (0,0,0), (150,0,0), (-150,0,0): it spans 300 units
    along the first axis, the extent of its edge between v1 and v2, and
    [shortEdge] answers true, so that the primitive takes the
    short-edge branch, which seeds the voxels nearest to the three
    vertices; the long-edge branch seeds the first one only. *)
Lemma C4_counterexample :
  let v0 := point wide_points 0 in
  let v1 := point wide_points 1 in
  let v2 := point wide_points 2 in
  let r := voxelizePrimitive DIM8 COORD_OFFSETS_spec demo_nearestCoord
             demo_triToPtnDistSqr wide_points wide_polygons 0 0
             MeshVoxelizer_new in
  (v0 = (0%Q, 0%Q, 0%Q) /\ v1 = (150%Q, 0%Q, 0%Q)
   /\ v2 = ((- (150))%Q, 0%Q, 0%Q)
   /\ polygon wide_polygons 0 = (0, 1, 2, INVALID_IDX))
  /\ Qabs (at3 v1 0 - at3 v2 0) = 300%Q
  /\ Qltb (Qabs (at3 v1 0 - at3 v2 0)) 200 = false
  /\ shortEdge v0 v1 v2 = true
  /\ r = shortEdgeFill DIM8 COORD_OFFSETS_spec demo_nearestCoord
           demo_triToPtnDistSqr wide_points wide_polygons 0 0
           MeshVoxelizer_new
  /\ Tree.isValueOn (mSqrDistTree r) (150, 0, 0) = true
  /\ Tree.isValueOn
       (mSqrDistTree
          (longEdgeFill DIM8 COORD_OFFSETS_spec demo_nearestCoord
             demo_triToPtnDistSqr wide_points wide_polygons 0 0
             MeshVoxelizer_new)) (150, 0, 0) = false.
Proof. vm_compute. repeat split; reflexivity. Qed.

(** A distance tree with one active voxel, (0,0,0), at [+5]. *)
Definition trim_dist : Tree.t Q :=
  Tree.setValue DIM8 (Tree.create DBL_MAX) c000 5%Q.

Lemma C10_trim_pass_witness :
  Tree.isValueOn trim_dist c000 = true
  /\ (0 <= Tree.getValue trim_dist c000)%Q
  /\ ~ (Tree.getValue trim_dist c000 < 1)%Q
  /\ Tree.voxel (transformValueOn (TrimOp 3 1) trim_dist) c000 = (3%Q, false).
Proof.
  assert (H1 : Tree.isValueOn trim_dist c000 = true)
    by (vm_compute; reflexivity).
  assert (H2 : (0 <= Tree.getValue trim_dist c000)%Q)
    by (vm_compute; discriminate).
  assert (H3 : ~ (Tree.getValue trim_dist c000 < 1)%Q)
    by (vm_compute; discriminate).
  split; [exact H1|]. split; [exact H2|]. split; [exact H3|].
  exact (proj1 (proj1 (proj1 (C10_trim_pass 3 1 trim_dist) c000 H1) H2) H3).
Defined.

(** The voxelizer after the collapsed triangle was evaluated at
    (0,0,0), and after it was evaluated at (0,0,1). *)
Definition demo_evalVoxel (vz : MeshVoxelizer) (ijk : Coord) (polyIdx : Z)
  : bool * MeshVoxelizer :=
  evalVoxel DIM8 demo_triToPtnDistSqr demo_points demo_polygons vz ijk polyIdx.

Definition voxelizer_at_000 : MeshVoxelizer :=
  (demo_evalVoxel MeshVoxelizer_new c000 0).2.
Definition voxelizer_at_001 : MeshVoxelizer :=
  (demo_evalVoxel MeshVoxelizer_new c001 0).2.

Lemma C2_evalVoxel_witness :
  (evalVoxel_dist demo_triToPtnDistSqr demo_points demo_polygons c001 0
   < Qabs (Tree.getValue (mSqrDistTree voxelizer_at_000) c001))%Q
  /\ Tree.voxel (mSqrDistTree (demo_evalVoxel voxelizer_at_000 c001 0).2) c001
     = ((- evalVoxel_dist demo_triToPtnDistSqr demo_points demo_polygons
                          c001 0)%Q, true)
  /\ Tree.voxel (mPrimIndexTree (demo_evalVoxel voxelizer_at_000 c001 0).2) c001
     = (0, true)
  /\ (demo_evalVoxel voxelizer_at_000 c001 0).1 = false.
Proof.
  assert (H : (evalVoxel_dist demo_triToPtnDistSqr demo_points demo_polygons
                 c001 0
               < Qabs (Tree.getValue (mSqrDistTree voxelizer_at_000) c001))%Q)
    by (vm_compute; reflexivity).
  pose proof (C2_evalVoxel DIM8 demo_triToPtnDistSqr demo_points demo_polygons
                voxelizer_at_000 c001 0) as T.
  cbv zeta in T. destruct T as [_ [_ [T3 [_ [_ [_ [_ T8]]]]]]].
  destruct (T3 H) as [G1 G2].
  split; [exact H|]. split; [exact G1|]. split; [exact G2|].
  vm_compute. reflexivity.
Defined.

Lemma demo_distSqr_nonneg : distSqr_nonneg demo_triToPtnDistSqr.
Proof.
  intros p0 p1 p2 x. unfold demo_triToPtnDistSqr, vdot. cbv zeta.
  generalize (at3 (vsub x p0) 0) (at3 (vsub x p0) 1) (at3 (vsub x p0) 2).
  intros a b c. nra.
Qed.

Lemma partialResult_at_000 : partialResult voxelizer_at_000.
Proof.
  apply partialResult_evalVoxel;
    [apply demo_distSqr_nonneg|apply partialResult_new].
Qed.

Lemma partialResult_at_001 : partialResult voxelizer_at_001.
Proof.
  apply partialResult_evalVoxel;
    [apply demo_distSqr_nonneg|apply partialResult_new].
Qed.

Lemma C5_join_merge_policy_witness :
  partialResult voxelizer_at_000
  /\ partialResult voxelizer_at_001
  /\ vobs (join DIM8 voxelizer_at_000 voxelizer_at_001) c001
     = vobs (join DIM8 voxelizer_at_001 voxelizer_at_000) c001
  /\ vobs (join DIM8 (join DIM8 voxelizer_at_000 voxelizer_at_001)
                voxelizer_at_000) c001
     = vobs (join DIM8 voxelizer_at_000
                  (join DIM8 voxelizer_at_001 voxelizer_at_000)) c001.
Proof.
  pose proof partialResult_at_000 as H0.
  pose proof partialResult_at_001 as H1.
  pose proof (C5_join_merge_policy DIM8 voxelizer_at_000 voxelizer_at_001
                voxelizer_at_000 voxelizer_at_001 voxelizer_at_000 c001) as T.
  cbv zeta in T. destruct T as [_ [_ [_ [Tc Ta]]]].
  destruct (Tc H0 H1) as [_ [_ [_ [_ [Tne _]]]]].
  destruct (Ta H0 H1 H0) as [Tassoc _].
  split; [exact H0|]. split; [exact H1|]. split; [|exact Tassoc].
  apply Tne.
  - intros [Hon _]. vm_compute in Hon. discriminate.
  - vm_compute. reflexivity.
Defined.

(** The expander at the inactive voxel (0,0,0) next to the active voxel
    (0,0,1), which holds distance 1 and primitive 0. *)
Definition expand_state : ExpandState :=
  mkExpand (Tree.setValue DIM8 (Tree.create 3%Q) c001 1%Q)
           (Tree.setValue DIM8 (Tree.create (Int32 INVALID_IDX)) c001 0)
           (Tree.setActiveState DIM8 (Tree.create false) c000 true)
           0.

Definition demo_ExpandNB_voxel : Q -> Q -> Q -> ExpandState -> Coord -> ExpandState :=
  ExpandNB_voxel DIM8 COORD_OFFSETS_spec demo_triToPtnDistSqr sqrt_floor
                 demo_points demo_polygons.

Definition demo_getDist : Q -> Tree.t Q -> Tree.t Z -> Coord -> Z -> Q * Z :=
  getDist COORD_OFFSETS_spec demo_triToPtnDistSqr sqrt_floor demo_points
          demo_polygons.

Lemma C6_expand_voxel_witness :
  (Tree.probeLeaf DIM8 (exDist expand_state) c000 = true
   /\ Tree.probeLeaf DIM8 (exIndex expand_state) c000 = true
   /\ leafActiveVoxels DIM8 (exMask expand_state) c000 = [] ++ c000 :: []
   /\ Tree.isValueOn (exDist expand_state) c000 = false
   /\ (0 <= Tree.getValue (exDist expand_state) c000)%Q
   /\ ((demo_getDist 1 (exDist expand_state) (exIndex expand_state) c000
                     (closestPrimIndex expand_state)).1 < 3)%Q)
  /\ Tree.voxel (exDist (demo_ExpandNB_voxel 3 3 1 expand_state c000)) c000
     = ((demo_getDist 1 (exDist expand_state) (exIndex expand_state) c000
                      (closestPrimIndex expand_state)).1, true).
Proof.
  assert (L1 : Tree.probeLeaf DIM8 (exDist expand_state) c000 = true)
    by (vm_compute; reflexivity).
  assert (L2 : Tree.probeLeaf DIM8 (exIndex expand_state) c000 = true)
    by (vm_compute; reflexivity).
  assert (L3 : leafActiveVoxels DIM8 (exMask expand_state) c000
               = [] ++ c000 :: []) by (vm_compute; reflexivity).
  assert (H1 : Tree.isValueOn (exDist expand_state) c000 = false)
    by (vm_compute; reflexivity).
  assert (H2 : (0 <= Tree.getValue (exDist expand_state) c000)%Q)
    by (vm_compute; discriminate).
  assert (H3 : ((demo_getDist 1 (exDist expand_state) (exIndex expand_state)
                   c000 (closestPrimIndex expand_state)).1 < 3)%Q)
    by (vm_compute; reflexivity).
  pose proof (C6_expand_voxel DIM8 COORD_OFFSETS_spec demo_triToPtnDistSqr
                sqrt_floor demo_points demo_polygons 3 3 1 expand_state
                c000 c000 [] [] L1 L2 L3 H1) as T.
  cbv zeta in T. cbn [fold_left] in T. destruct T as [_ [_ [_ [T5 _]]]].
  destruct (T5 (conj H2 H3)) as [G _].
  split; [by repeat split|]. exact G.
Defined.

(** Two primitives collapsed to points: primitive 0 at (0,0,0) and
    primitive 1 at (0,0,2). *)
Definition skip_points : list Vec3d := [(0%Q, 0%Q, 0%Q); (0%Q, 0%Q, 2%Q)].
Definition skip_polygons : list Vec4I :=
  [(0, 0, 0, INVALID_IDX); (1, 1, 1, INVALID_IDX)].

(** The expander at the mask voxel (0,0,0): the inactive voxel (0,0,-1)
    holds 1 and the index of primitive 1, the active voxel (0,0,1)
    holds 5 and the index of primitive 0, every other voxel reads the
    background 3. *)
Definition skip_state : ExpandState :=
  mkExpand
    (Tree.setValueOff DIM8 (Tree.setValue DIM8 (Tree.create 3%Q) c001 5%Q)
                      (0, 0, -1) 1%Q)
    (Tree.setValueOff DIM8
       (Tree.setValue DIM8 (Tree.create (Int32 INVALID_IDX)) c001 0)
       (0, 0, -1) 1)
    (Tree.setActiveState DIM8 (Tree.create false) c000 true)
    0.

(** The claim with "the one of the 18 neighbours with smallest [|D|]"
    fails where an inactive neighbour holds the smallest magnitude: in
    [skip_state] the smallest [|D|] among the 18 neighbours of (0,0,0)
    is at the inactive voxel (0,0,-1), whose primitive would give the
    distance 2; the code skips that voxel, takes primitive 0 from the
    active voxel (0,0,1) and activates (0,0,0) with distance 0. *)
Lemma C6_counterexample :
  let D := exDist skip_state in
  let I := exIndex skip_state in
  let nb := neighbour COORD_OFFSETS_spec c000 in
  let s' := ExpandNB_voxel DIM8 COORD_OFFSETS_spec demo_triToPtnDistSqr
              sqrt_floor skip_points skip_polygons 3 3 1 skip_state c000 in
  (Tree.isValueOn (exMask skip_state) c000 = true
   /\ Tree.probeLeaf DIM8 D c000 = true /\ Tree.probeLeaf DIM8 I c000 = true
   /\ Tree.isValueOn D c000 = false)
  /\ (nb 4%nat = (0, 0, -1) /\ Tree.voxel D (nb 4%nat) = (1%Q, false)
      /\ Tree.getValue I (nb 4%nat) = 1)
  /\ forallb (fun n => Qle_bool 1 (Qabs (Tree.getValue D (nb n)))
                       && (Nat.eqb n 4
                           || Qltb 1 (Qabs (Tree.getValue D (nb n)))))
             (seq 0 18) = true
  /\ getDistToPrim demo_triToPtnDistSqr sqrt_floor skip_points skip_polygons
       1 c000 1 = 2%Q
  /\ Tree.voxel (exDist s') c000 = (0%Q, true)
  /\ Tree.voxel (exIndex s') c000 = (0, true).
Proof. vm_compute. repeat split; reflexivity. Qed.

(** The whole scan of slice 0 over the row, with unit steps, leaves
    (0,0,1) at [+2], turns (0,0,2) into [+1] and then, with
    [lastVoxelWasOut] set, flips (0,0,3) to [-5]. *)
Lemma sparseScan_row_run :
  let r := sparseScan COORD_OFFSETS_spec demo_depth 10
             (mkTracer ((0, 0, 0), (0, 0, 3)) [1; 1]) row_mask 0 row_dist in
  Tree.voxel r.1 c000 = ((- (1 # 2))%Q, true)
  /\ Tree.voxel r.1 c001 = (2%Q, true)
  /\ Tree.voxel r.1 c002 = (1%Q, true)
  /\ Tree.voxel r.1 c003 = ((- (5))%Q, true)
  /\ r.2 = 1.
Proof. vm_compute. repeat split; reflexivity. Qed.

(** [getDist] looks at active neighbours only: next to (0,0,0) the
    inactive voxels read the background 3, the active voxel (0,0,1)
    holds 5, and the scan picks 5 and the primitive recorded there. *)
Lemma getDist_skips_inactive :
  let dist := Tree.setValue DIM8 (Tree.create 3%Q) c001 5%Q in
  let index := Tree.setValue DIM8 (Tree.create (Int32 INVALID_IDX)) c001 0 in
  Tree.isValueOn dist (neighbour COORD_OFFSETS_spec c000 4) = false
  /\ Tree.getValue dist (neighbour COORD_OFFSETS_spec c000 4) = 3%Q
  /\ getDist_scan COORD_OFFSETS_spec dist index c000 (seq 0 18) (DBL_MAX, 9)
     = (5%Q, 0).
Proof. vm_compute. repeat split; reflexivity. Qed.

(** Unsigned conversion of the collapsed triangle: the distance grid
    has active voxels, none of them negative, when the trim block is
    reached, and none at all when the conversion returns. *)
Lemma unsigned_demo_run :
  let m2 := voxelizeStage DIM8 COORD_OFFSETS_spec demo_nearestCoord
              demo_triToPtnDistSqr demo_points demo_polygons (Chunk 0 1)
              8 demo_converter in
  let m6 := doConvert_upToTrim DIM8 COORD_OFFSETS_spec demo_triToPtnDistSqr
              sqrt_floor demo_points demo_polygons (fun _ _ => 1%Q)
              demo_keep (demo_keep Q) demo_sweepTiles demo_dilateVoxels
              8 3 0 true m2 in
  (0 < Tree.activeVoxelCount (mDistGrid m6))%nat
  /\ forallb (fun c => Qle_bool 0 (Tree.getValue (mDistGrid m6) c))
             (Tree.activeVoxels (mDistGrid m6)) = true
  /\ Tree.activeVoxelCount
       (mDistGrid (demo_convertToUnsignedDistanceField 8 3 demo_converter))
     = 0%nat.
Proof.
  cbv zeta. split; [vm_compute; lia|]. split; vm_compute; reflexivity.
Qed.

(** A tree configuration with node exponents 5, 4 and 3 and a leaf
    bounding box from (3, -5, 4097) to (20, 6, 5000). *)
Definition tree543_log2dims : list Z := [5; 4; 3].
Definition tree543_bbox (tr : Tree.t Q) : Coord * Coord :=
  ((3, -5, 4097), (20, 6, 5000)).
Definition tree543_depth (tr : Tree.t Q) (c : Coord) : nat := 2.

Lemma tree543_tracer_bbox :
  mBBox (ContourTracer_new tree543_log2dims tree543_bbox (Tree.create DBL_MAX))
  = ((-4096, -4096, 4096), (4096, 4096, 8192)).
Proof. vm_compute. reflexivity. Qed.

(** Near the end of the 32-bit range the alignment wraps: with tiles of
    side 4096 a maximum of 2^31 - 1 is aligned to -2^31, and the voxel
    loop that steps by 4096 from 2^31 - 4096 continues at -2^31. *)
Lemma tracer_arithmetic_wraps :
  alignAxis 4096 0 2147483647 = (0, -2147483648)
  /\ cur_k (sparseScan_k COORD_OFFSETS_spec demo_depth 1
              (mkTracer ((0, 0, 0), (0, 0, 2147479552)) [4096; 4096; 1])
              (Tree.create false) 0 0 2147479552
              (mkSlice (mkScan (Tree.create DBL_MAX) true 0) 1 1 1 0))
     = -2147483648.
Proof. vm_compute. split; reflexivity. Qed.

Lemma X5_contour_tracer_bbox_aligned_witness :
  let tr := ContourTracer_new tree543_log2dims tree543_bbox
              (Tree.create DBL_MAX) in
  0 < nth 0 (mStepSize tr) 1
  /\ tileAligned (nth 0 (mStepSize tr) 1) 3 20
       (coord_i (mBBox tr).1) (coord_i (mBBox tr).2)
  /\ tileAligned (nth 0 (mStepSize tr) 1) (-5) 6
       (coord_j (mBBox tr).1) (coord_j (mBBox tr).2)
  /\ tileAligned (nth 0 (mStepSize tr) 1) 4097 5000
       (coord_k (mBBox tr).1) (coord_k (mBBox tr).2).
Proof.
  apply (X5_contour_tracer_bbox_aligned tree543_log2dims tree543_bbox
           (Tree.create DBL_MAX)).
  - repeat constructor; lia.
  - unfold axisFits. vm_compute. repeat split; discriminate.
  - unfold axisFits. vm_compute. repeat split; discriminate.
  - unfold axisFits. vm_compute. repeat split; discriminate.
Defined.

Lemma X6_sparseScan_step_bounds_witness :
  let tr := ContourTracer_new tree543_log2dims tree543_bbox
              (Tree.create DBL_MAX) in
  1 <= (sparseScan COORD_OFFSETS_spec tree543_depth 4 tr (Tree.create false)
          0 (Tree.create DBL_MAX)).2
    <= nth 0 (mStepSize tr) 1.
Proof.
  apply (X6_sparseScan_step_bounds COORD_OFFSETS_spec tree543_log2dims
           tree543_bbox tree543_depth 4 (Tree.create DBL_MAX)
           (Tree.create DBL_MAX) (Tree.create false) 0).
  repeat constructor; lia.
Defined.

Lemma X7_voxelizer_index_names_stored_distance_witness :
  let vz := parallel_reduce DIM8 COORD_OFFSETS_spec demo_nearestCoord
              demo_triToPtnDistSqr demo_points demo_polygons 8 (Chunk 0 1)
              MeshVoxelizer_new in
  Tree.isValueOn (mSqrDistTree vz) c001 = true
  /\ Tree.isValueOn (mPrimIndexTree vz) c001 = true
  /\ Tree.getValue (mSqrDistTree vz) c001
     = (- evalVoxel_dist demo_triToPtnDistSqr demo_points demo_polygons c001
            (Tree.getValue (mPrimIndexTree vz) c001))%Q.
Proof.
  intros vz.
  assert (Hon : Tree.isValueOn (mSqrDistTree vz) c001 = true)
    by (vm_compute; reflexivity).
  split; [exact Hon|].
  exact (X7_voxelizer_index_names_stored_distance DIM8 COORD_OFFSETS_spec
           demo_nearestCoord demo_triToPtnDistSqr demo_points demo_polygons
           8 (Chunk 0 1) c001 Hon).
Defined.

Lemma X8_voxelizer_never_increases_magnitude_witness :
  (Qabs (Tree.getValue
           (mSqrDistTree
              (MeshVoxelizer_call DIM8 COORD_OFFSETS_spec demo_nearestCoord
                 demo_triToPtnDistSqr demo_points demo_polygons 8 0 1
                 MeshVoxelizer_new)) c001)
   <= Qabs (Tree.getValue (mSqrDistTree MeshVoxelizer_new) c001))%Q.
Proof.
  exact (X8_voxelizer_never_increases_magnitude DIM8 COORD_OFFSETS_spec
           demo_nearestCoord demo_triToPtnDistSqr demo_points demo_polygons
           8 0 1 MeshVoxelizer_new c001 demo_distSqr_nonneg).
Defined.



(** A signed conversion of the one-triangle mesh without the index
    flag: the distance grid comes back with active voxels and the index
    grid comes back empty. *)
Lemma X14_index_grid_dropped_without_flag_witness :
  let r := doConvert DIM8 COORD_OFFSETS_spec demo_nearestCoord
             demo_triToPtnDistSqr sqrt_floor demo_points demo_polygons
             demo_sTri3ToPointDistSqr (fun v => v) (fun _ _ => 1%Q)
             demo_log2dims demo_bbox demo_depth demo_keep (demo_keep Q)
             demo_sweepTiles demo_dilateVoxels (demo_keep Q) (Chunk 0 1)
             8 3 3 false demo_converter in
  Z.land GENERATE_PRIM_INDEX_GRID (mConversionFlags demo_converter) = 0
  /\ Tree.activeVoxelCount (mDistGrid r) <> 0%nat
  /\ Tree.leafs (mIndexGrid r) = ∅
  /\ Tree.voxels (mIndexGrid r) = ∅.
Proof.
  intros r.
  assert (H1 : Z.land GENERATE_PRIM_INDEX_GRID (mConversionFlags demo_converter)
               = 0) by reflexivity.
  assert (H2 : Tree.activeVoxelCount (mDistGrid r) <> 0%nat)
    by (vm_compute; discriminate).
  split; [exact H1|]. split; [exact H2|].
  exact (X14_index_grid_dropped_without_flag DIM8 COORD_OFFSETS_spec
           demo_nearestCoord demo_triToPtnDistSqr sqrt_floor demo_points
           demo_polygons demo_sTri3ToPointDistSqr (fun v => v)
           (fun _ _ => 1%Q) demo_log2dims demo_bbox demo_depth demo_keep
           (demo_keep Q) demo_sweepTiles demo_dilateVoxels (demo_keep Q)
           (Chunk 0 1) 8 3 3 false demo_converter H1 H2).
Defined.

(** A signed conversion of the mesh without polygons, asked for three
    sign sweeps. *)
Lemma X15_empty_mesh_returns_early_witness :
  let r := doConvert DIM8 COORD_OFFSETS_spec demo_nearestCoord
             demo_triToPtnDistSqr sqrt_floor demo_points []
             demo_sTri3ToPointDistSqr (fun v => v) (fun _ _ => 1%Q)
             demo_log2dims demo_bbox demo_depth demo_keep (demo_keep Q)
             demo_sweepTiles demo_dilateVoxels (demo_keep Q) (Chunk 0 0)
             8 3 3 false (MeshToVolume_new 1 0 3) in
  Tree.activeVoxelCount (mDistGrid r) = 0%nat
  /\ mLog r
     = [StVoxelize]
       ++ concat (replicate (Z.to_nat (Z.min 3 1))
                            [StContourTrace; StPropagateSign])
       ++ [StIntersectingVoxelSign; StIntersectingVoxelCleaner;
           StShellVoxelCleaner].
Proof.
  exact (X15_empty_mesh_returns_early DIM8 COORD_OFFSETS_spec
           demo_nearestCoord demo_triToPtnDistSqr sqrt_floor demo_points []
           demo_sTri3ToPointDistSqr (fun v => v) (fun _ _ => 1%Q)
           demo_log2dims demo_bbox demo_depth demo_keep (demo_keep Q)
           demo_sweepTiles demo_dilateVoxels (demo_keep Q) (Chunk 0 0)
           8 3 3 1 0 3 false eq_refl (conj eq_refl eq_refl)
           (fun tr H => H)).
Defined.

Lemma X16_band_width_clamped_witness :
  (0 <= MIN_BAND)%Q /\ ((1 # 2) <= MIN_BAND)%Q
  /\ convertToLevelSet DIM8 COORD_OFFSETS_spec demo_nearestCoord
       demo_triToPtnDistSqr sqrt_floor demo_points demo_polygons
       demo_sTri3ToPointDistSqr (fun v => v) (fun _ _ => 1%Q)
       demo_log2dims demo_bbox demo_depth demo_keep (demo_keep Q)
       demo_sweepTiles demo_dilateVoxels (demo_keep Q) (Chunk 0 1)
       8 0 (1 # 2) demo_converter
     = convertToLevelSet DIM8 COORD_OFFSETS_spec demo_nearestCoord
         demo_triToPtnDistSqr sqrt_floor demo_points demo_polygons
         demo_sTri3ToPointDistSqr (fun v => v) (fun _ _ => 1%Q)
         demo_log2dims demo_bbox demo_depth demo_keep (demo_keep Q)
         demo_sweepTiles demo_dilateVoxels (demo_keep Q) (Chunk 0 1)
         8 MIN_BAND MIN_BAND demo_converter
  /\ convertToUnsignedDistanceField DIM8 COORD_OFFSETS_spec demo_nearestCoord
       demo_triToPtnDistSqr sqrt_floor demo_points demo_polygons
       demo_sTri3ToPointDistSqr (fun v => v) (fun _ _ => 1%Q)
       demo_log2dims demo_bbox demo_depth demo_keep (demo_keep Q)
       demo_sweepTiles demo_dilateVoxels (demo_keep Q) (Chunk 0 1)
       8 0 demo_converter
     = convertToUnsignedDistanceField DIM8 COORD_OFFSETS_spec demo_nearestCoord
         demo_triToPtnDistSqr sqrt_floor demo_points demo_polygons
         demo_sTri3ToPointDistSqr (fun v => v) (fun _ _ => 1%Q)
         demo_log2dims demo_bbox demo_depth demo_keep (demo_keep Q)
         demo_sweepTiles demo_dilateVoxels (demo_keep Q) (Chunk 0 1)
         8 MIN_BAND demo_converter.
Proof.
  assert (H1 : (0 <= MIN_BAND)%Q) by (vm_compute; discriminate).
  assert (H2 : ((1 # 2) <= MIN_BAND)%Q) by (vm_compute; discriminate).
  split; [exact H1|]. split; [exact H2|].
  exact (X16_band_width_clamped DIM8 COORD_OFFSETS_spec demo_nearestCoord
           demo_triToPtnDistSqr sqrt_floor demo_points demo_polygons
           demo_sTri3ToPointDistSqr (fun v => v) (fun _ _ => 1%Q)
           demo_log2dims demo_bbox demo_depth demo_keep (demo_keep Q)
           demo_sweepTiles demo_dilateVoxels (demo_keep Q) (Chunk 0 1)
           8 0 (1 # 2) demo_converter H1 H2).
Defined.

(** The background pass on the tree with the one active voxel (0,0,0):
    the inactive voxel (0,0,1) of the same leaf, which reads the
    positive background, gets the exterior width. *)
Lemma X17_background_pass_witness :
  (0 <= 3)%Q /\ (0 < 2)%Q
  /\ Tree.voxel (transformValueOff DIM8 (VoxelSignOp 3 2) trim_dist) c001
     = (3%Q, false).
Proof.
  assert (H1 : (0 <= 3)%Q) by (vm_compute; discriminate).
  assert (H2 : (0 < 2)%Q) by (vm_compute; reflexivity).
  split; [exact H1|]. split; [exact H2|].
  rewrite (X17_background_pass DIM8 3 2 trim_dist c001 H1 H2).
  vm_compute. reflexivity.
Defined.

Lemma sqrt_floor_nonneg : sqrt_nonneg sqrt_floor.
Proof.
  intros x. unfold sqrt_floor, Qle. cbn [Qnum Qden].
  pose proof (Z.sqrt_nonneg (Qnum x * Z.pos (Qden x))). lia.
Qed.

Lemma X18_sqrt_pass_keeps_side_witness :
  sqrt_nonneg sqrt_floor /\ (0 < 1)%Q
  /\ (let tr' := transformValueOn (SqrtAndScaleOp sqrt_floor 1 false)
                   trim_dist in
      Tree.isValueOn tr' c000 = Tree.isValueOn trim_dist c000
      /\ (Tree.isValueOn trim_dist c000 = false ->
            Tree.getValue tr' c000 = Tree.getValue trim_dist c000)
      /\ (Tree.isValueOn trim_dist c000 = true ->
            ((Tree.getValue trim_dist c000 < 0)%Q ->
               (Tree.getValue tr' c000 <= 0)%Q)
            /\ ((0 <= Tree.getValue trim_dist c000)%Q ->
                  (0 <= Tree.getValue tr' c000)%Q))).
Proof.
  assert (H2 : (0 < 1)%Q) by (vm_compute; reflexivity).
  split; [exact sqrt_floor_nonneg|]. split; [exact H2|].
  exact (X18_sqrt_pass_keeps_side sqrt_floor 1 trim_dist c000
           sqrt_floor_nonneg H2).
Defined.

Lemma X19_getDist_without_active_neighbour_witness :
  getDist COORD_OFFSETS_spec demo_triToPtnDistSqr sqrt_floor demo_points
          demo_polygons 1 (Tree.create 3%Q) (Tree.create (Int32 INVALID_IDX))
          c000 0
  = (getDistToPrim demo_triToPtnDistSqr sqrt_floor demo_points demo_polygons
                   1 c000 0, 0).
Proof.
  exact (X19_getDist_without_active_neighbour COORD_OFFSETS_spec
           demo_triToPtnDistSqr sqrt_floor demo_points demo_polygons 1
           (Tree.create 3%Q) (Tree.create (Int32 INVALID_IDX)) c000 0
           (fun n _ => isValueOn_create 3%Q (neighbour COORD_OFFSETS_spec c000 n))).
Defined.


Lemma X22_intersecting_grid_after_conversion_witness :
  let r := doConvert DIM8 COORD_OFFSETS_spec demo_nearestCoord
             demo_triToPtnDistSqr sqrt_floor demo_points demo_polygons
             demo_sTri3ToPointDistSqr (fun v => v) (fun _ _ => 1%Q)
             demo_log2dims demo_bbox demo_depth demo_keep (demo_keep Q)
             demo_sweepTiles demo_dilateVoxels (demo_keep Q) (Chunk 0 1)
             8 3 3 false demo_converter in
  Tree.activeVoxelCount (mDistGrid r) <> 0%nat
  /\ Tree.leafs (mIntersectingVoxelsGrid r) = ∅
  /\ Tree.voxels (mIntersectingVoxelsGrid r) = ∅.
Proof.
  intros r.
  assert (H : Tree.activeVoxelCount (mDistGrid r) <> 0%nat)
    by (vm_compute; discriminate).
  split; [exact H|].
  exact (proj1 (X22_intersecting_grid_after_conversion DIM8 COORD_OFFSETS_spec
                  demo_nearestCoord demo_triToPtnDistSqr sqrt_floor
                  demo_points demo_polygons demo_sTri3ToPointDistSqr
                  (fun v => v) (fun _ _ => 1%Q) demo_log2dims demo_bbox
                  demo_depth demo_keep (demo_keep Q) demo_sweepTiles
                  demo_dilateVoxels (demo_keep Q) (Chunk 0 1)
                  8 3 3 demo_converter) H).
Defined.


Lemma X25_contour_tracer_writes_within_range_witness :
  (- 2 ^ 31 <= 1
   /\ 4 + nth 0 (mStepSize (ContourTracer_new demo_log2dims demo_bbox
                                              row_dist)) 1 <= 2 ^ 31
   /\ ~ (1 <= coord_i c001 < 4))
  /\ Tree.voxel
       (ContourTracer_call COORD_OFFSETS_spec demo_depth 30
          (ContourTracer_new demo_log2dims demo_bbox row_dist) row_mask
          1 4 row_dist) c001
     = Tree.voxel row_dist c001.
Proof.
  assert (Hf : - 2 ^ 31 <= 1) by (vm_compute; discriminate).
  assert (Hl : 4 + nth 0 (mStepSize (ContourTracer_new demo_log2dims
                                       demo_bbox row_dist)) 1 <= 2 ^ 31)
    by (vm_compute; discriminate).
  assert (H : ~ (1 <= coord_i c001 < 4)) by (vm_compute; intros [H _]; auto).
  split; [by repeat split|].
  exact (X25_contour_tracer_writes_within_range COORD_OFFSETS_spec
           demo_log2dims demo_bbox demo_depth 30 row_dist row_dist row_mask
           1 4 c001 ltac:(repeat constructor; lia) Hf Hl H).
Defined.

(** The squared distance of the stand-in, cut at 100: a distance that
    stays below the background of the squared-distance tree. *)
Definition capped_triToPtnDistSqr (p0 p1 p2 x : Vec3d) : Q :=
  let d := demo_triToPtnDistSqr p0 p1 p2 x in
  if Qltb d 100 then d else 100%Q.

Lemma capped_distSqr_nonneg : distSqr_nonneg capped_triToPtnDistSqr.
Proof.
  intros p0 p1 p2 x. unfold capped_triToPtnDistSqr. cbv zeta.
  destruct (Qltb _ _); [apply demo_distSqr_nonneg|lra].
Qed.

Lemma capped_distSqr_bounded : distSqr_bounded capped_triToPtnDistSqr.
Proof.
  intros p0 p1 p2 x. unfold capped_triToPtnDistSqr. cbv zeta.
  assert (H : (100 < DBL_MAX)%Q) by (vm_compute; reflexivity).
  destruct (Qltb _ _) eqn:E; [apply Qltb_lt in E; lra|exact H].
Qed.

Lemma X26_intersecting_voxels_are_active_witness :
  let vz := parallel_reduce DIM8 COORD_OFFSETS_spec demo_nearestCoord
              capped_triToPtnDistSqr demo_points demo_polygons 8 (Chunk 0 1)
              MeshVoxelizer_new in
  Tree.isValueOn (mIntersectionTree vz) c000 = true
  /\ Tree.isValueOn (mSqrDistTree vz) c000 = true.
Proof.
  intros vz.
  assert (Hon : Tree.isValueOn (mIntersectionTree vz) c000 = true)
    by (vm_compute; reflexivity).
  split; [exact Hon|].
  exact (X26_intersecting_voxels_are_active DIM8 COORD_OFFSETS_spec
           demo_nearestCoord capped_triToPtnDistSqr demo_points demo_polygons
           8 (Chunk 0 1) c000 capped_distSqr_nonneg capped_distSqr_bounded
           Hon).
Defined.

Lemma X27_trim_pass_band_witness :
  let tr' := transformValueOn (TrimOp 3 6) trim_dist in
  Tree.isValueOn tr' c000 = true
  /\ Tree.voxel tr' c000 = Tree.voxel trim_dist c000
  /\ Tree.isValueOn trim_dist c000 = true
  /\ (- (6) < Tree.getValue tr' c000)%Q
  /\ (Tree.getValue tr' c000 < 6)%Q.
Proof.
  intros tr'.
  assert (Hon : Tree.isValueOn tr' c000 = true) by (vm_compute; reflexivity).
  split; [exact Hon|].
  exact (X27_trim_pass_band 3 6 trim_dist c000 Hon).
Defined.
